(** * UR-NET batch vacancy checker: a shallow embedding and its properties

    The development follows [ur_net_batch_property_checker.py]:
    - [PyStr]: Python [str] values as sequences of code points, with the
      string methods the program calls ([strip], [in], [replace], [<]);
    - [Re]: the fragment of Python's [re] the program's patterns are written
      in, as a backtracking matcher together with a declarative reading;
    - [Dom]: the renderer boundary (page, row and element handles), every
      call of which may raise;
    - [Checker]: the methods of [URNetBatchChecker].

    Definitions come first, statements about them afterwards. *)

From Stdlib Require Import NArith ZArith Lia Ascii.
From stdpp Require Import base option list gmap strings.

Open Scope N_scope.

(** ** Python strings *)

Module PyStr.

(** A Python [str] is a sequence of Unicode code points. *)
Definition pystr := list N.

Fixpoint bytes_of (s : string) : list N :=
  match s with
  | EmptyString => []
  | String a s' => N_of_ascii a :: bytes_of s'
  end.

(** Source literals are written as UTF-8 text and decoded once. *)
Fixpoint utf8_decode (bs : list N) : pystr :=
  match bs with
  | [] => []
  | b0 :: t0 =>
    if b0 <? 128 then b0 :: utf8_decode t0 else
    match t0 with
    | [] => [b0]
    | b1 :: t1 =>
      if b0 <? 224 then ((b0 mod 32) * 64 + b1 mod 64) :: utf8_decode t1 else
      match t1 with
      | [] => [b0; b1]
      | b2 :: t2 =>
        if b0 <? 240
        then ((b0 mod 16) * 4096 + (b1 mod 64) * 64 + b2 mod 64) :: utf8_decode t2
        else
        match t2 with
        | [] => [b0; b1; b2]
        | b3 :: t3 =>
          ((b0 mod 8) * 262144 + (b1 mod 64) * 4096 + (b2 mod 64) * 64 + b3 mod 64)
            :: utf8_decode t3
        end
      end
    end
  end.

Definition u (s : string) : pystr := utf8_decode (bytes_of s).

(** The double quote, which the selector literals contain. *)
Definition dq : pystr := [34].

(** [str.isspace] on one code point (the table of CPython's
    [_PyUnicode_IsWhitespace]). *)
Definition is_space (c : N) : bool :=
  ((9 <=? c) && (c <=? 13)) || ((28 <=? c) && (c <=? 32))
  || (c =? 133) || (c =? 160) || (c =? 5760)
  || ((8192 <=? c) && (c <=? 8202))
  || (c =? 8232) || (c =? 8233) || (c =? 8239) || (c =? 8287) || (c =? 12288).

(** Code points of the digit zero of every decimal-digit block (Unicode
    category Nd); a code point is a digit when it lies in one of the blocks.
    This is what [\d] matches in a [str] pattern. *)
Definition digit_zeros : list N :=
  [ 48; 1632; 1776; 1984; 2406; 2534; 2662; 2790; 2918; 3046; 3174; 3302;
    3430; 3558; 3664; 3792; 3872; 4160; 4240; 6112; 6160; 6470; 6608; 6784;
    6800; 6992; 7088; 7232; 7248; 42528; 43216; 43264; 43472; 43504; 43600;
    44016; 65296; 66720; 68912; 69734; 69872; 69942; 70096; 70384; 70736;
    70864; 71248; 71360; 71472; 71904; 72016; 72784; 73040; 73120; 73552;
    92768; 92864; 93008; 120782; 120792; 120802; 120812; 120822; 123200;
    123632; 124144; 125264; 130032 ].

Definition is_digit (c : N) : bool :=
  existsb (fun z => (z <=? c) && (c <? z + 10)) digit_zeros.

Definition eqb_char (a b : N) : bool := a =? b.

(** Membership of a code point in the characters of a literal, for the
    bracket classes of the patterns. *)
Definition one_of (cs : pystr) (c : N) : bool := existsb (eqb_char c) cs.

Fixpoint is_prefix (p s : pystr) : bool :=
  match p, s with
  | [], _ => true
  | a :: p', b :: s' => eqb_char a b && is_prefix p' s'
  | _ :: _, [] => false
  end.

(** [sub in s] *)
Fixpoint contains (sub s : pystr) : bool :=
  is_prefix sub s ||
  match s with
  | [] => false
  | _ :: s' => contains sub s'
  end.

Fixpoint lstrip (s : pystr) : pystr :=
  match s with
  | c :: s' => if is_space c then lstrip s' else s
  | [] => []
  end.

(** [s.strip()] *)
Definition strip (s : pystr) : pystr := rev (lstrip (rev (lstrip s))).

(** [s.replace(old, new)] for a non-empty [old]: occurrences are replaced
    left to right and never overlap; [skip] counts the characters of an
    occurrence still to be passed over. *)
Fixpoint replace_from (old new : pystr) (skip : nat) (s : pystr) : pystr :=
  match s with
  | [] => []
  | c :: s' =>
    match skip with
    | S k => replace_from old new k s'
    | O =>
      if is_prefix old s
      then new ++ replace_from old new (Nat.pred (length old)) s'
      else c :: replace_from old new O s'
    end
  end.

Definition replace (old new s : pystr) : pystr := replace_from old new O s.

(** [a < b] on strings: lexicographic on code points. *)
Fixpoint ltb (a b : pystr) : bool :=
  match a, b with
  | _, [] => false
  | [], _ :: _ => true
  | x :: a', y :: b' => (x <? y) || ((x =? y) && ltb a' b')
  end.

(** Truth value of an [Optional[str]]: [None] and [''] are false. *)
Definition truthy (o : option pystr) : bool :=
  match o with
  | Some (_ :: _) => true
  | _ => false
  end.

(** [x or d] for an [Optional[str]] [x]. *)
Definition or_else (o : option pystr) (d : pystr) : pystr :=
  match o with
  | Some (c :: s) => c :: s
  | _ => d
  end.

End PyStr.

Import PyStr.

(** ** Regular expressions *)

Module Re.

(** The patterns of the program repeat single character classes only, so
    repetition is kept in that form: [Rep p lo hi] is the greedy [p{lo,hi}]
    ([hi = None] for an open upper bound). [Grp] is capture group 1. *)
Inductive regex :=
| Lit (s : pystr)
| Cls (p : N -> bool)
| Rep (p : N -> bool) (lo : nat) (hi : option nat)
| Cat (r1 r2 : regex)
| Alt (r1 r2 : regex)
| Grp (r : regex).

(** Length of the longest prefix of [s] in class [p], at most [hi] long. *)
Fixpoint run (p : N -> bool) (hi : option nat) (s : pystr) : nat :=
  match hi with
  | Some O => O
  | _ =>
    match s with
    | c :: s' => if p c then S (run p (Nat.pred <$> hi) s') else O
    | [] => O
    end
  end.

(** A way to match at the head of the subject: what was consumed, what
    group 1 captured, and the rest of the subject. *)
Definition way := (pystr * option pystr * pystr)%type.

Definition later_group (g1 g2 : option pystr) : option pystr :=
  match g2 with
  | Some _ => g2
  | None => g1
  end.

(** All ways to match [r] at the head of [s], in the order the backtracking
    matcher tries them: longest repetition first, left alternative first. *)
Fixpoint ways (r : regex) (s : pystr) : list way :=
  match r with
  | Lit l => if is_prefix l s then [(l, None, drop (length l) s)] else []
  | Cls p =>
    match s with
    | c :: s' => if p c then [([c], None, s')] else []
    | [] => []
    end
  | Rep p lo hi =>
    (fun k => (take k s, None, drop k s)) <$>
      reverse (seq lo (S (run p hi s) - lo))
  | Cat r1 r2 =>
    '(c1, g1, s1) ← ways r1 s;
    '(c2, g2, s2) ← ways r2 s1;
    [(c1 ++ c2, later_group g1 g2, s2)]
  | Alt r1 r2 => ways r1 s ++ ways r2 s
  | Grp r1 => (fun w : way => (w.1.1, Some w.1.1, w.2)) <$> ways r1 s
  end.

(** [re.search(r, s)]: the first way at the leftmost position that has
    one. The result is the match ([group()]) and group 1 ([group(1)]). *)
Fixpoint search (r : regex) (s : pystr) : option (pystr * option pystr) :=
  match ways r s with
  | w :: _ => Some (w.1.1, w.1.2)
  | [] =>
    match s with
    | [] => None
    | _ :: s' => search r s'
    end
  end.

(** [bool(re.search(r, s))] *)
Definition found (r : regex) (s : pystr) : bool := bool_decide (is_Some (search r s)).

(** [m.group(1)] of a search, [None] when nothing matched. *)
Definition group1 (r : regex) (s : pystr) : option pystr :=
  search r s ≫= snd.

(** [m.group()] of a search. *)
Definition group0 (r : regex) (s : pystr) : option pystr :=
  fst <$> search r s.

(** Declarative reading: [Matches r w g] when [r] matches exactly the word
    [w], capturing [g]. *)
Inductive Matches : regex -> pystr -> option pystr -> Prop :=
| MLit l : Matches (Lit l) l None
| MCls p c : p c = true -> Matches (Cls p) [c] None
| MRep p lo hi w :
    Forall (fun c => p c = true) w ->
    (lo <= length w)%nat ->
    (forall h, hi = Some h -> (length w <= h)%nat) ->
    Matches (Rep p lo hi) w None
| MCat r1 r2 w1 w2 g1 g2 :
    Matches r1 w1 g1 -> Matches r2 w2 g2 ->
    Matches (Cat r1 r2) (w1 ++ w2) (later_group g1 g2)
| MAltL r1 r2 w g : Matches r1 w g -> Matches (Alt r1 r2) w g
| MAltR r1 r2 w g : Matches r2 w g -> Matches (Alt r1 r2) w g
| MGrp r w g : Matches r w g -> Matches (Grp r) w (Some w).

End Re.

Import Re.

(** ** The renderer boundary *)

Module Dom.

(** Outcome of a call that may raise; [Raise e] carries [str(e)]. *)
Inductive result (A : Type) :=
| Ok (a : A)
| Raise (e : pystr).
Arguments Ok {A} a.
Arguments Raise {A} e.

Definition bind {A B} (m : result A) (f : A -> result B) : result B :=
  match m with
  | Ok a => f a
  | Raise e => Raise e
  end.

(** [try: m except: h] *)
Definition catch {A} (m : result A) (h : pystr -> A) : A :=
  match m with
  | Ok a => a
  | Raise e => h e
  end.

(** An element handle: [text_content()] and [get_attribute(name)]. *)
Record Element := {
  text_content : result (option pystr);
  get_attribute : pystr -> result (option pystr)
}.

(** A row handle: an element that is queried further. *)
Record Row := {
  row_text_content : result (option pystr);
  row_query_selector : pystr -> result (option Element)
}.

(** A page context. [goto n] is the outcome of the [n]-th navigation
    (counted from 0) and [body_text] is [text_content('body')]. *)
Record Page := {
  goto : nat -> result unit;
  query_selector : pystr -> result (option Element);
  query_selector_all : pystr -> result (list Row);
  title : result pystr;
  body_text : result (option pystr);
  close : result unit
}.

(** The browser: [new_page n] is the outcome of its [n]-th [new_page()]. *)
Definition Browser := nat -> result Page.

End Dom.

Import Dom.

Notation "'do!' x <- m ; f" := (Dom.bind m (fun x => f))
  (at level 10, x name, m at level 100, f at level 200, only parsing).

(** ** The checker *)

Module Checker.

(** *** Data *)

(** One vacant unit, the dictionary [room_info]. *)
Record Room := {
  type : pystr;
  rent : pystr;
  area : pystr;
  floor : pystr
}.

Inductive Status := success | failed.

#[global] Instance Status_eq_dec : EqDecision Status.
Proof. solve_decision. Defined.

(** The dictionary returned for one target. [property_name] is optional
    because the failure paths store [predefined_info.get('name')]. *)
Record PropertyResult := {
  url : pystr;
  property_name : option pystr;
  title : pystr;
  vacant_rooms : list Room;
  total_vacant : Z;
  phone_number : pystr;
  phone_source : pystr;
  transportation : pystr;
  transportation_source : pystr;
  address : pystr;
  address_source : pystr;
  management_years : pystr;
  management_years_source : pystr;
  status : Status;
  error : option pystr
}.

(** [predefined_info]: [None] or a dictionary from field names to text. *)
Definition Predefined := option (gmap pystr pystr).

(** [if predefined_info]: neither [None] nor the empty dictionary. *)
Definition given (pre : Predefined) : bool :=
  match pre with
  | Some d => negb (bool_decide (d = ∅))
  | None => false
  end.

(** [predefined_info.get(k)] *)
Definition pre_get (pre : Predefined) (k : pystr) : option pystr :=
  pre ≫= fun d => d !! k.

(** [predefined_info.get(k, dflt) if predefined_info else dflt] *)
Definition pre_get_or (pre : Predefined) (k dflt : pystr) : pystr :=
  if given pre then default dflt (pre_get pre k) else dflt.

(** ['<tag>' if predefined_info and predefined_info.get(k) else '<none>'] *)
Definition pre_source (pre : Predefined) (k tag none : pystr) : pystr :=
  if given pre && truthy (pre_get pre k) then tag else none.

(** *** Literals *)

Definition UNKNOWN : pystr := u "不明".
Definition UNKNOWN_PROPERTY : pystr := u "不明な物件".
Definition PREDEFINED : pystr := u "事前定義".
Definition SCRAPED : pystr := u "ウェブページ抓取".
Definition UNKNOWN_ZH : pystr := u "未知".
Definition PREDEFINED_ZH : pystr := u "预定义".
Definition TITLE_SUFFIX : pystr := u "（東京都）の賃貸物件｜UR賃貸住宅".
Definition MAX_RETRIES_EXCEEDED : pystr := u "Max retries exceeded".
Definition PAGE_LOAD_FAILED : pystr := u "ページ読み込み失敗".

Definition K_name : pystr := u "name".
Definition K_url : pystr := u "url".
Definition K_phone : pystr := u "phone".
Definition K_transportation : pystr := u "transportation".
Definition K_address : pystr := u "address".
Definition K_management_years : pystr := u "management_years".

(** *** Patterns *)

Definition digit : N -> bool := is_digit.

(** [\d{1,3}[,，]\d{3}] *)
Definition re_price_core : regex :=
  Cat (Rep digit 1 (Some 3%nat))
      (Cat (Cls (one_of (u ",，"))) (Rep digit 3 (Some 3%nat))).

(** [\d{1,3}[,，]\d{3}[円日元]?] *)
Definition re_price : regex :=
  Cat re_price_core (Rep (one_of (u "円日元")) 0 (Some 1%nat)).

(** [\d+[号棟室]] *)
Definition re_room_name : regex :=
  Cat (Rep digit 1 None) (Cls (one_of (u "号棟室"))).

(** [\d+[LDK]] *)
Definition re_ldk : regex :=
  Cat (Rep digit 1 None) (Cls (one_of (u "LDK"))).

(** [(\d+[号棟]\d+[号室])] *)
Definition re_room_name_full : regex :=
  Grp (Cat (Rep digit 1 None)
      (Cat (Cls (one_of (u "号棟")))
      (Cat (Rep digit 1 None) (Cls (one_of (u "号室")))))).

(** [(\d+[SLDK]+)] *)
Definition re_type : regex :=
  Grp (Cat (Rep digit 1 None) (Rep (one_of (u "SLDK")) 1 None)).

(** [\d+[㎡平方米]] *)
Definition re_area : regex :=
  Cat (Rep digit 1 None) (Cls (one_of (u "㎡平方米"))).

(** [\d+[階]] *)
Definition re_floor : regex :=
  Cat (Rep digit 1 None) (Cls (one_of (u "階"))).

(** [(\d+[階]／?\d*[階]?)] *)
Definition re_floor_full : regex :=
  Grp (Cat (Rep digit 1 None)
      (Cat (Cls (one_of (u "階")))
      (Cat (Rep (one_of (u "／")) 0 (Some 1%nat))
      (Cat (Rep digit 0 None) (Rep (one_of (u "階")) 0 (Some 1%nat)))))).

Definition not_newline (c : N) : bool := negb (c =? 10).

(** [[^\n]*(?:駅|線)[^\n]*] *)
Definition re_transport : regex :=
  Cat (Rep not_newline 0 None)
      (Cat (Alt (Lit (u "駅")) (Lit (u "線"))) (Rep not_newline 0 None)).

(** [(?:電話|TEL|Tel|tel)[:：\s]*([0-9\-\(\)]+)] *)
Definition re_phone : regex :=
  Cat (Alt (Lit (u "電話")) (Alt (Lit (u "TEL")) (Alt (Lit (u "Tel")) (Lit (u "tel")))))
      (Cat (Rep (fun c => one_of (u ":：") c || is_space c) 0 None)
           (Grp (Rep (one_of (u "0123456789-()")) 1 None))).

(** [ur_net_results_(\d{8}_\d{6})\.json] *)
Definition re_timestamp : regex :=
  Cat (Lit (u "ur_net_results_"))
      (Cat (Grp (Cat (Rep digit 8 (Some 8%nat))
                (Cat (Lit (u "_")) (Rep digit 6 (Some 6%nat)))))
           (Lit (u ".json"))).

(** *** [extract_property_info] *)

Section Extraction.

Context (page : Page) (the_url : pystr) (predefined_info : Predefined).

(** [predefined_info.get('name', '不明な物件') if predefined_info else ...] *)
Definition name_default : pystr := pre_get_or predefined_info K_name UNKNOWN_PROPERTY.

(** [name.strip() if name else "不明な物件"] *)
Definition name_of_text (name : option pystr) : pystr :=
  if truthy name then strip (default [] name) else UNKNOWN_PROPERTY.

(** The body of the [try] that reads the property name. *)
Definition name_from_selectors : result pystr :=
  do! name_element <- query_selector page (u "h1.property-name");
  match name_element with
  | Some el => do! name <- text_content el; Ok (name_of_text name)
  | None =>
    do! name_element <- query_selector page (u "h1, .property-title, .building-name");
    match name_element with
    | Some el => do! name <- text_content el; Ok (name_of_text name)
    | None => Ok name_default
    end
  end.

(** The handler of that [try]: the name is taken from the page title; a
    failing [page.title()] propagates. *)
Definition name_from_title : result pystr :=
  do! t <- Dom.title page;
  let property_name := strip (replace TITLE_SUFFIX [] t) in
  Ok (if truthy (Some property_name) then property_name else name_default).

Definition extract_name : result pystr :=
  match name_from_selectors with
  | Ok n => Ok n
  | Raise _ => name_from_title
  end.

Definition room_table_selectors : list pystr :=
  [ u ".module_tables_room table tbody tr.js-log-item";
    u "table tbody tr.js-log-item";
    u ".rep_room";
    u "table tbody tr";
    u "tr" ].

Definition header_labels : list pystr :=
  [ u "間取図"; u "部屋名"; u "家賃"; u "間取り"; u "床面積"; u "階数" ].

(** The test a row must pass to be kept; a row whose text cannot be read
    is skipped. *)
Definition keep_row (row : Row) : bool :=
  match row_text_content row with
  | Ok (Some row_text) =>
    truthy (Some row_text)
    && negb (existsb (fun header => contains header row_text) header_labels)
    && (found re_price row_text
        && (found re_room_name row_text || found re_ldk row_text))
  | _ => false
  end.

(** The loop over [room_table_selectors]: the rows of the first selector
    that has a kept row. *)
Fixpoint find_room_rows (selectors : list pystr) : list Row :=
  match selectors with
  | [] => []
  | selector :: rest =>
    match query_selector_all page selector with
    | Ok (r :: rows) =>
      match filter (fun row => keep_row row = true) (r :: rows) with
      | [] => find_room_rows rest
      | filtered_rows => filtered_rows
      end
    | _ => find_room_rows rest
    end
  end.

(** The selector loops that assign the cell text to the variable before
    checking its shape: [var] is the variable, left as the last text read
    when no cell is accepted. *)
Fixpoint scan_cells (query : pystr -> result (option Element))
    (accept : pystr -> bool) (selectors : list pystr) (var : option pystr)
    : option pystr :=
  match selectors with
  | [] => var
  | selector :: rest =>
    match query selector with
    | Ok (Some element) =>
      match text_content element with
      | Ok text =>
        if truthy text && truthy (strip <$> text) then
          let stripped := strip (default [] text) in
          if accept stripped then Some stripped
          else scan_cells query accept rest (Some stripped)
        else scan_cells query accept rest text
      | Raise _ => scan_cells query accept rest var
      end
    | _ => scan_cells query accept rest var
    end
  end.

(** [if not var: ... m = re.search(r, row_text); if m: var = m.group(1)] *)
Definition or_row_text (row : Row) (r : regex) (var : option pystr) : option pystr :=
  if truthy var then var else
  match row_text_content row with
  | Ok (Some row_text) =>
    if truthy (Some row_text) then
      match group1 r row_text with
      | Some g => Some g
      | None => var
      end
    else var
  | _ => var
  end.

Definition room_name_selectors : list pystr :=
  [ u ".rep_room-name"; u "td.rep_room-name"; u "td:nth-child(2)";
    u "td:first-child + td" ].

Definition price_selectors : list pystr :=
  [ u "span.rep_room-price"; u ".rep_room-price";
    u "td:nth-child(3) span.rep_room-price"; u "td:nth-child(3)";
    u "td:nth-child(4)" ].

Definition type_selectors : list pystr :=
  [ u "td:nth-child(4)"; u "td:nth-child(3)"; u "td:nth-child(5)";
    u ".rep_room-type"; u "td.rep_room-type" ].

Definition area_selectors : list pystr :=
  [ u ".rep_room-floor"; u "td.rep_room-floor"; u "td:nth-child(5)";
    u "td:nth-child(6)" ].

Definition floor_selectors : list pystr :=
  [ u ".rep_room-kai"; u "td.rep_room-kai"; u "td:nth-child(6)";
    u "td:nth-child(7)"; u "td:last-child" ].

(** The room name is read but is not part of [room_info]. *)
Definition extract_room_name (row : Row) : option pystr :=
  or_row_text row re_room_name_full
    (scan_cells (row_query_selector row) (found re_room_name) room_name_selectors None).

Definition extract_rent (row : Row) : option pystr :=
  or_row_text row (Grp re_price)
    (scan_cells (row_query_selector row) (found re_price_core) price_selectors None).

(** The loop over [type_selectors] assigns [room_type] only on a match. *)
Fixpoint scan_type (row : Row) (selectors : list pystr) : option pystr :=
  match selectors with
  | [] => None
  | selector :: rest =>
    match row_query_selector row selector with
    | Ok (Some element) =>
      match text_content element with
      | Ok text =>
        if truthy text && truthy (strip <$> text) then
          match group1 re_type (strip (default [] text)) with
          | Some g => Some g
          | None => scan_type row rest
          end
        else scan_type row rest
      | Raise _ => scan_type row rest
      end
    | _ => scan_type row rest
    end
  end.

Definition extract_room_type (row : Row) : option pystr :=
  or_row_text row re_type (scan_type row type_selectors).

Definition extract_area (row : Row) : option pystr :=
  or_row_text row (Grp re_area)
    (scan_cells (row_query_selector row) (found re_area) area_selectors None).

Definition extract_floor (row : Row) : option pystr :=
  or_row_text row re_floor_full
    (scan_cells (row_query_selector row)
       (fun floor => found re_floor floor || contains (u "/") floor)
       floor_selectors None).

(** The [try] around the detail button; any raise leaves [is_vacant] false. *)
Definition has_detail_button (row : Row) : bool :=
  catch
    (do! detail_button <- row_query_selector row (u "a");
     match detail_button with
     | Some b =>
       do! button_text <- text_content b;
       do! button_href <- get_attribute b (u "href");
       Ok ((truthy button_text && contains (u "詳細") (default [] button_text))
           || (truthy button_href && contains (u "room.html") (default [] button_href)))
     | None => Ok false
     end)
    (fun _ => false).

(** One iteration of the loop over [room_rows]: the rooms it appends. *)
Definition row_rooms (row : Row) : list Room :=
  let rent := extract_rent row in
  let room_type := extract_room_type row in
  let area := extract_area row in
  let floor := extract_floor row in
  let is_vacant := has_detail_button row in
  let is_vacant :=
    if negb is_vacant && truthy rent && truthy room_type then true else is_vacant in
  if is_vacant && (truthy room_type && truthy rent) then
    [ {| type := or_else room_type UNKNOWN;
         rent := or_else rent UNKNOWN;
         area := or_else area UNKNOWN;
         floor := or_else floor UNKNOWN |} ]
  else [].

Definition extract_vacant_rooms : list Room :=
  find_room_rows room_table_selectors ≫= row_rooms.

End Extraction.

Section Extraction_result.

Context (page : Page) (the_url : pystr) (predefined_info : Predefined).

(** The page-level selector loops break on the first non-blank text. *)
Definition scan_page (selectors : list pystr) : option pystr :=
  scan_cells (query_selector page) (fun _ => true) selectors None.

(** [if not var: page_text = await page.text_content('body'); ...]: the
    read of the body may raise. *)
Definition or_body_text (pick : pystr -> option pystr) (var : option pystr)
    : result (option pystr) :=
  if truthy var then Ok var else
  do! page_text <- body_text page;
  Ok (if truthy page_text then
        match pick (default [] page_text) with
        | Some g => Some (strip g)
        | None => var
        end
      else var).

(** [scraped_info[k] = v or '不明'] with its source, and the handler that
    stores ['不明'] twice. *)
Definition scraped (r : result (option pystr)) : pystr * pystr :=
  match r with
  | Ok v => (or_else v UNKNOWN, if truthy v then SCRAPED else UNKNOWN)
  | Raise _ => (UNKNOWN, UNKNOWN)
  end.

Definition transportation_selectors : list pystr :=
  [ u "dt:contains(" ++ dq ++ u "交通" ++ dq ++ u ") + dd";
    u ".access-info"; u ".transportation";
    u "td:contains(" ++ dq ++ u "交通" ++ dq ++ u ") + td";
    u "th:contains(" ++ dq ++ u "交通" ++ dq ++ u ") + td";
    u ".property-access" ].

Definition address_selectors : list pystr :=
  [ u "dt:contains(" ++ dq ++ u "所在地" ++ dq ++ u ") + dd";
    u "dt:contains(" ++ dq ++ u "住所" ++ dq ++ u ") + dd";
    u ".address"; u ".location";
    u "td:contains(" ++ dq ++ u "所在地" ++ dq ++ u ") + td";
    u "th:contains(" ++ dq ++ u "住所" ++ dq ++ u ") + td";
    u ".property-address" ].

Definition phone_selectors : list pystr :=
  [ u "dt:contains(" ++ dq ++ u "電話" ++ dq ++ u ") + dd";
    u "dt:contains(" ++ dq ++ u "TEL" ++ dq ++ u ") + dd";
    u ".phone"; u ".tel";
    u "td:contains(" ++ dq ++ u "電話" ++ dq ++ u ") + td";
    u "th:contains(" ++ dq ++ u "TEL" ++ dq ++ u ") + td";
    u ".contact-phone" ].

Definition management_selectors : list pystr :=
  [ u "dt:contains(" ++ dq ++ u "管理年数" ++ dq ++ u ") + dd";
    u "dt:contains(" ++ dq ++ u "築年" ++ dq ++ u ") + dd";
    u ".management-years"; u ".built-year";
    u "td:contains(" ++ dq ++ u "管理年数" ++ dq ++ u ") + td";
    u "th:contains(" ++ dq ++ u "築年" ++ dq ++ u ") + td";
    u ".property-age" ].

(** The dictionary [scraped_info]: each value with its source. *)
Record ScrapedInfo := {
  s_transportation : pystr * pystr;
  s_address : pystr * pystr;
  s_phone : pystr * pystr;
  s_management_years : pystr * pystr
}.

(** [all(key in predefined_info for key in [...])] under [predefined_info and]. *)
Definition all_predefined : option (pystr * pystr * pystr * pystr) :=
  if given predefined_info then
    t ← pre_get predefined_info K_transportation;
    a ← pre_get predefined_info K_address;
    p ← pre_get predefined_info K_phone;
    m ← pre_get predefined_info K_management_years;
    Some (t, a, p, m)
  else None.

Definition additional_info : ScrapedInfo :=
  match all_predefined with
  | Some (t, a, p, m) =>
    {| s_transportation := (t, PREDEFINED);
       s_address := (a, PREDEFINED);
       s_phone := (p, PREDEFINED);
       s_management_years := (m, PREDEFINED) |}
  | None =>
    {| s_transportation :=
         scraped (or_body_text (group0 re_transport) (scan_page transportation_selectors));
       s_address := scraped (Ok (scan_page address_selectors));
       s_phone :=
         scraped (or_body_text (group1 re_phone) (scan_page phone_selectors));
       s_management_years := scraped (Ok (scan_page management_selectors)) |}
  end.

(** The dictionary of the outer handler. *)
Definition extraction_failed : PropertyResult :=
  {| url := the_url;
     property_name :=
       if given predefined_info then pre_get predefined_info K_name
       else Some (u "Unknown");
     title := [];
     vacant_rooms := [];
     total_vacant := 0;
     phone_number := pre_get_or predefined_info K_phone UNKNOWN_ZH;
     phone_source := pre_source predefined_info K_phone PREDEFINED_ZH UNKNOWN_ZH;
     transportation := pre_get_or predefined_info K_transportation UNKNOWN_ZH;
     transportation_source :=
       pre_source predefined_info K_transportation PREDEFINED_ZH UNKNOWN_ZH;
     address := pre_get_or predefined_info K_address UNKNOWN_ZH;
     address_source := pre_source predefined_info K_address PREDEFINED_ZH UNKNOWN_ZH;
     management_years := pre_get_or predefined_info K_management_years UNKNOWN_ZH;
     management_years_source :=
       pre_source predefined_info K_management_years PREDEFINED_ZH UNKNOWN_ZH;
     status := failed;
     error := Some MAX_RETRIES_EXCEEDED |}.

(** The body of the outer [try]: it raises when [page.title()] does, in the
    handler of the name or in the returned dictionary. *)
Definition extraction_body : result PropertyResult :=
  do! name <- extract_name page predefined_info;
  let rooms := extract_vacant_rooms page in
  let info := additional_info in
  do! t <- (if given predefined_info && truthy (pre_get predefined_info K_name)
            then Ok name else Dom.title page);
  Ok {| url := the_url;
        property_name := Some name;
        title := t;
        vacant_rooms := rooms;
        total_vacant := Z.of_nat (length rooms);
        phone_number := (s_phone info).1;
        phone_source := (s_phone info).2;
        transportation := (s_transportation info).1;
        transportation_source := (s_transportation info).2;
        address := (s_address info).1;
        address_source := (s_address info).2;
        management_years := (s_management_years info).1;
        management_years_source := (s_management_years info).2;
        status := success;
        error := None |}.

Definition extract_property_info : PropertyResult :=
  catch extraction_body (fun _ => extraction_failed).

End Extraction_result.

(** *** [check_single_property] *)

(** What the orchestrator does to the renderer and the clock, in order.
    Page contexts are numbered by the [new_page()] call that made them. *)
Inductive duration :=
| delay_seconds
| seconds (n : N).

Inductive event :=
| NewPage (id : nat) (ok : bool)
| Goto (id : nat) (attempt : nat) (ok : bool)
| Sleep (d : duration)
| Extract (id : nat)
| Close (id : nat)
| BrowserClose.

#[global] Instance duration_eq_dec : EqDecision duration.
Proof. solve_decision. Defined.

#[global] Instance event_eq_dec : EqDecision event.
Proof. solve_decision. Defined.

(** The dictionary of the two failure returns of [check_single_property],
    which differ in the error text only. *)
Definition check_failed (the_url : pystr) (predefined_info : Predefined)
    (err : pystr) : PropertyResult :=
  {| url := the_url;
     property_name :=
       if given predefined_info then pre_get predefined_info K_name
       else Some UNKNOWN_PROPERTY;
     title := [];
     vacant_rooms := [];
     total_vacant := 0;
     phone_number := pre_get_or predefined_info K_phone UNKNOWN;
     phone_source := pre_source predefined_info K_phone PREDEFINED UNKNOWN;
     transportation := pre_get_or predefined_info K_transportation UNKNOWN;
     transportation_source :=
       pre_source predefined_info K_transportation PREDEFINED UNKNOWN;
     address := pre_get_or predefined_info K_address UNKNOWN;
     address_source := pre_source predefined_info K_address PREDEFINED UNKNOWN;
     management_years := pre_get_or predefined_info K_management_years UNKNOWN;
     management_years_source :=
       pre_source predefined_info K_management_years PREDEFINED UNKNOWN;
     status := failed;
     error := Some err |}.

(** How the retry loop ends: left by [break] (or run dry), or by the
    [return] of its handler. *)
Inductive navigation := loaded | gave_up.

(** [for attempt in range(self.max_retries)], from [attempt] on with
    [todo] iterations left. *)
Fixpoint navigate (max_retries : Z) (page : Page) (id : nat)
    (todo attempt : nat) : list event * navigation :=
  match todo with
  | O => ([], loaded)
  | S todo' =>
    match goto page attempt with
    | Ok _ => ([Goto id attempt true; Sleep delay_seconds], loaded)
    | Raise _ =>
      if (Z.of_nat attempt <? max_retries - 1)%Z then
        let '(t, n) := navigate max_retries page id todo' (S attempt) in
        (Goto id attempt false :: Sleep (seconds (2 ^ N.of_nat attempt)) :: t, n)
      else ([Goto id attempt false], gave_up)
    end
  end.

(** [check_single_property(browser, url, index, total, predefined_info)];
    [index] and [total] are only printed. [id] counts the pages the browser
    has made so far. *)
Definition check_single_property (max_retries : Z) (browser : Browser)
    (id : nat) (the_url : pystr) (predefined_info : Predefined)
    : list event * PropertyResult :=
  match browser id with
  | Raise _ =>
    (* the handler's [page.close()] finds [page] unbound *)
    ([NewPage id false], check_failed the_url predefined_info MAX_RETRIES_EXCEEDED)
  | Ok page =>
    match navigate max_retries page id (Z.to_nat max_retries) O with
    | (t, gave_up) =>
      (NewPage id true :: t, check_failed the_url predefined_info PAGE_LOAD_FAILED)
    | (t, loaded) =>
      let result := extract_property_info page the_url predefined_info in
      match close page with
      | Ok _ =>
        (NewPage id true :: t ++ [Extract id; Close id],
         if decide (status result = success) then result
         else check_failed the_url predefined_info MAX_RETRIES_EXCEEDED)
      | Raise _ =>
        (* the handler closes the page once more, ignoring the outcome *)
        (NewPage id true :: t ++ [Extract id; Close id; Close id],
         check_failed the_url predefined_info MAX_RETRIES_EXCEEDED)
      end
    end
  end.

(** *** [check_properties] *)

(** An entry of [url_data]: a dictionary or a [(url, name)] pair. *)
Inductive Item :=
| ItemDict (d : gmap pystr pystr)
| ItemPair (url name : pystr).

(** [item.get('url', '')], or the first component. *)
Definition item_url (item : Item) : pystr :=
  match item with
  | ItemDict d => default [] (d !! K_url)
  | ItemPair url _ => url
  end.

Definition item_predefined (item : Item) : Predefined :=
  match item with
  | ItemDict d => Some d
  | ItemPair _ name => if truthy (Some name) then Some {[ K_name := name ]} else None
  end.

(** [for i, item in enumerate(url_data, 1)], with [made] pages made so far
    and [total = len(url_data)]. *)
Fixpoint check_loop (max_retries : Z) (browser : Browser) (total : nat)
    (i made : nat) (items : list Item) : list event * list PropertyResult :=
  match items with
  | [] => ([], [])
  | item :: rest =>
    let the_url := item_url item in
    if negb (truthy (Some the_url)) then
      check_loop max_retries browser total (S i) made rest
    else
      let '(t, result) :=
        check_single_property max_retries browser made the_url (item_predefined item) in
      let pause := if (i <? total)%nat then [Sleep delay_seconds] else [] in
      let '(t', results) := check_loop max_retries browser total (S i) (S made) rest in
      (t ++ pause ++ t', result :: results)
  end.

(** The events of a run and the returned [results]. *)
Definition check_properties (max_retries : Z) (browser : Browser)
    (url_data : list Item) : list event * list PropertyResult :=
  let '(t, results) := check_loop max_retries browser (length url_data) 1 0 url_data in
  (t ++ [BrowserClose], results).

(** *** [find_latest_result_file] *)

(** A file path, split as [os.path.join] builds it and [os.path.basename]
    takes it apart. *)
Definition Path := (pystr * pystr)%type.

Definition join (dir name : pystr) : Path := (dir, name).
Definition basename (p : Path) : pystr := p.2.

(** What a scan of [results_dir] meets: no such path, the names in it in
    the order [glob] walks them, or a failure raised on the way. *)
Inductive Directory :=
| Absent
| Listing (names : list pystr)
| Unreadable (e : pystr).

Definition RESULTS_PREFIX : pystr := u "ur_net_results_".
Definition JSON_SUFFIX : pystr := u ".json".
Definition MIN_TIMESTAMP : pystr := u "00000000_000000".

Definition is_suffix (p s : pystr) : bool := is_prefix (rev p) (rev s).

(** [fnmatch(name, "ur_net_results_*.json")] *)
Definition glob_match (name : pystr) : bool :=
  is_prefix RESULTS_PREFIX name
  && is_suffix JSON_SUFFIX (drop (length RESULTS_PREFIX) name).

(** [glob.glob(os.path.join(results_dir, "ur_net_results_*.json"))] *)
Definition glob (results_dir : pystr) (names : list pystr) : list Path :=
  join results_dir <$> filter (fun name => glob_match name = true) names.

Definition extract_timestamp (filepath : Path) : pystr :=
  match group1 re_timestamp (basename filepath) with
  | Some stamp => stamp
  | None => MIN_TIMESTAMP
  end.

(** [max(xs, key=key)] after its first element: a later element replaces
    the running maximum only when its key is strictly greater. *)
Fixpoint max_from {A} (key : A -> pystr) (best : A) (xs : list A) : A :=
  match xs with
  | [] => best
  | x :: xs' => max_from key (if ltb (key best) (key x) then x else best) xs'
  end.

Definition find_latest_result_file (results_dir : pystr) (dir : Directory)
    : option Path :=
  match dir with
  | Absent => None
  | Unreadable _ => None
  | Listing names =>
    match glob results_dir names with
    | [] => None
    | f :: result_files => Some (max_from extract_timestamp f result_files)
    end
  end.

(** *** [compare_results] *)

(** A dictionary with text keys that keeps insertion order, as the value
    dictionaries of the comparison do. *)
Fixpoint dict_set {V} (k : pystr) (v : V) (d : list (pystr * V)) : list (pystr * V) :=
  match d with
  | [] => [(k, v)]
  | (k', v') :: d' =>
    if decide (k' = k) then (k', v) :: d' else (k', v') :: dict_set k v d'
  end.

Fixpoint dict_get {V} (k : pystr) (d : list (pystr * V)) : option V :=
  match d with
  | [] => None
  | (k', v') :: d' => if decide (k' = k) then Some v' else dict_get k d'
  end.

Definition dict_keys {V} (d : list (pystr * V)) : list pystr := fst <$> d.

(** [k in d] *)
Definition dict_has {V} (k : pystr) (d : list (pystr * V)) : bool :=
  bool_decide (is_Some (dict_get k d)).

(** The value stored per url. *)
Record Vacancy := {
  v_property_name : option pystr;
  v_total_vacant : Z;
  v_vacant_rooms : list Room
}.

(** The loop that fills [current_vacant_properties], and likewise
    [previous_vacant_properties]. *)
Fixpoint vacant_properties (results : list PropertyResult)
    (acc : list (pystr * Vacancy)) : list (pystr * Vacancy) :=
  match results with
  | [] => acc
  | result :: rest =>
    vacant_properties rest
      (if bool_decide (status result = success) && (0 <? total_vacant result)%Z then
         dict_set (url result)
           {| v_property_name := property_name result;
              v_total_vacant := total_vacant result;
              v_vacant_rooms := vacant_rooms result |} acc
       else acc)
  end.

Inductive ChangeType := new | increased.

#[global] Instance ChangeType_eq_dec : EqDecision ChangeType.
Proof. solve_decision. Defined.

(** An entry of [new_properties]. *)
Record NewProperty := {
  n_url : pystr;
  n_property_name : option pystr;
  n_total_vacant : Z;
  n_vacant_rooms : list Room;
  change_type : ChangeType
}.

(** [comparison_summary]: the five counts, or the text of the error. *)
Inductive Summary :=
| Counts (previous_vacant_count current_vacant_count new_vacant_properties
          increased_vacant_properties total_new_changes : nat)
| Error (e : pystr).

Record Comparison := {
  has_new_properties : bool;
  new_properties : list NewProperty;
  previous_file : Path;
  comparison_summary : Summary
}.

Section Compare.

Context (current previous : list (pystr * Vacancy)).

(** [set(current.keys()) - set(previous.keys())]. A set is listed in an
    order that the program does not fix; the list stands for it in the order
    of [current], and statements about it hold up to permutation. *)
Definition new_vacant_urls : list pystr :=
  filter (fun k => dict_has k previous = false) (dict_keys current).

(** The loop over [current_vacant_properties] that collects the urls whose
    count grew. *)
Definition grew (k : pystr) : bool :=
  match dict_get k current, dict_get k previous with
  | Some c, Some p => (v_total_vacant p <? v_total_vacant c)%Z
  | _, _ => false
  end.

Definition increased_vacant_urls : list pystr :=
  filter (fun k => grew k = true) (dict_keys current).

(** The loop over [all_new_urls]. *)
Definition collect (all_new_urls : list pystr) : list NewProperty :=
  k ← all_new_urls;
  match dict_get k current with
  | Some c =>
    [ {| n_url := k;
         n_property_name := v_property_name c;
         n_total_vacant := v_total_vacant c;
         n_vacant_rooms := v_vacant_rooms c;
         change_type :=
           if bool_decide (k ∈ new_vacant_urls) then new else increased |} ]
  | None => []
  end.

End Compare.

(** [compare_results(current_results, previous_file)]; [loaded] is the
    outcome of opening the file, parsing it and taking its ['results']. *)
Definition compare_results (current_results : list PropertyResult)
    (file : Path) (loaded : result (list PropertyResult)) : Comparison :=
  match loaded with
  | Ok previous_results =>
    let current := vacant_properties current_results [] in
    let previous := vacant_properties previous_results [] in
    let news := new_vacant_urls current previous in
    let grown := increased_vacant_urls current previous in
    let found_new := collect current previous (news ++ grown) in
    {| has_new_properties := bool_decide (0 < length found_new)%nat;
       new_properties := found_new;
       previous_file := file;
       comparison_summary :=
         Counts (length previous) (length current) (length news) (length grown)
                (length found_new) |}
  | Raise e =>
    {| has_new_properties := true;
       new_properties := [];
       previous_file := file;
       comparison_summary := Error e |}
  end.

(** *** [should_send_email] *)

(** [reason]: '初回実行のため', '新規空室物件 n 件検出' or '新規空室物件なし'. *)
Inductive Reason :=
| first_run
| new_found (n : nat)
| nothing_new.

(** The dictionary [decision_info]. *)
Record DecisionInfo := {
  should_send : bool;
  reason : Reason;
  is_first_run : bool;
  comparison_result : option Comparison
}.

(** [load file] stands for reading and parsing the snapshot [file]. *)
Definition should_send_email (results : list PropertyResult)
    (results_dir : pystr) (dir : Directory)
    (load : Path -> result (list PropertyResult)) : DecisionInfo :=
  match find_latest_result_file results_dir dir with
  | None =>
    {| should_send := true; reason := first_run; is_first_run := true;
       comparison_result := None |}
  | Some latest_file =>
    let comparison := compare_results results latest_file (load latest_file) in
    if has_new_properties comparison then
      {| should_send := true;
         reason := new_found (length (new_properties comparison));
         is_first_run := false;
         comparison_result := Some comparison |}
    else
      {| should_send := false; reason := nothing_new; is_first_run := false;
         comparison_result := Some comparison |}
  end.

(** *** [save_results] *)

(** What a written file holds: the snapshot dictionary, or the tabular or
    line-oriented view of the results. *)
Inductive Content :=
| JsonSnapshot (timestamp : pystr) (total_checked : nat)
    (total_vacant_rooms : Z) (results : list PropertyResult)
| CsvTable (results : list PropertyResult)
| TextReport (results : list PropertyResult).

(** The file system: the directories that exist and the files by path.
    Opening a path for writing needs its directory and then replaces what
    the path held, as mode ['w'] does. *)
Record FS := {
  dirs : gset pystr;
  files : gmap Path Content
}.

(** The two readings of the clock: [strftime("%Y%m%d_%H%M%S")] and
    [isoformat()]. *)
Record Clock := {
  stamp : pystr;
  iso : pystr
}.

Definition APP : pystr := u "/app".
Definition APP_RESULTS : pystr := u "/app/results".
Definition RESULTS : pystr := u "results".

(** [os.makedirs(d, exist_ok=True)] *)
Definition makedirs (d : pystr) (fs : FS) : FS :=
  {| dirs := {[ d ]} ∪ dirs fs; files := files fs |}.

(** [with open(p, 'w') as f: <write c>]; raises when the directory of
    [p] is missing. *)
Definition write_file (p : Path) (c : Content) (fs : FS) : result FS :=
  if bool_decide (p.1 ∈ dirs fs)
  then Ok {| dirs := dirs fs; files := <[ p := c ]> (files fs) |}
  else Raise (u "FileNotFoundError").

(** [sum(r['total_vacant'] for r in results if r['status'] == 'success')] *)
Definition sum_vacant (results : list PropertyResult) : Z :=
  foldr (fun r acc => if bool_decide (status r = success) then total_vacant r + acc else acc)%Z
        0%Z results.

(** The name the file gets when [output_path] is not given. *)
Definition computed_path (fs : FS) (clock : Clock) (output_format : pystr) : Path :=
  join (if bool_decide (APP ∈ dirs fs) then APP_RESULTS else RESULTS)
       (RESULTS_PREFIX ++ stamp clock ++ u "." ++ output_format).

(** The rows that [writer.writerows(results)] gets into the file. The
    columns are the keys of the first result; a result holds the key ['error']
    exactly when it has an error, and a row with a key that is no column makes
    the writer raise, after the rows before it were written. *)
Fixpoint rows_until_error (results : list PropertyResult) : list PropertyResult :=
  match results with
  | [] => []
  | r :: rest =>
    match error r with
    | None => r :: rows_until_error rest
    | Some _ => []
    end
  end.

Definition csv_written (results : list PropertyResult) : list PropertyResult :=
  match results with
  | [] => []
  | first :: _ =>
    match error first with
    | Some _ => results
    | None => rows_until_error results
    end
  end.

(** [not output_path] holds of [None] and of the empty path. The failure
    that the csv writer raises after a partial write is swallowed like the
    others, and the file keeps the rows written so far. *)
Definition save_results (clock : Clock) (results : list PropertyResult)
    (output_format : pystr) (output_path : option Path) (fs : FS) : FS :=
  let computed :=
    let p := computed_path fs clock output_format in
    (p, makedirs p.1 fs) in
  let '(output_path, fs) :=
    match output_path with
    | Some p => if bool_decide (p = ([], [])) then computed else (p, fs)
    | None => computed
    end in
  catch
    (if decide (output_format = u "json") then
       write_file output_path
         (JsonSnapshot (iso clock) (length results) (sum_vacant results) results) fs
     else if decide (output_format = u "csv") then
       write_file output_path (CsvTable (csv_written results)) fs
     else if decide (output_format = u "txt") then
       write_file output_path (TextReport results) fs
     else Ok fs)
    (fun _ => fs).

End Checker.

Import Checker.

(** ** Reading the targets *)

Module Inputs.

(** [re.findall(r, s)] for a pattern without group that matches no empty
    word: the matches from left to right, the search resuming after each.
    [skip] counts the characters of the last match still to be passed. *)
Fixpoint findall_from (r : regex) (skip : nat) (s : pystr) : list pystr :=
  match s with
  | [] => []
  | _ :: s' =>
    match skip with
    | S k => findall_from r k s'
    | O =>
      match ways r s with
      | w :: _ => w.1.1 :: findall_from r (Nat.pred (length w.1.1)) s'
      | [] => findall_from r O s'
      end
    end
  end.

Definition findall (r : regex) (s : pystr) : list pystr := findall_from r O s.

Definition not_space (c : N) : bool := negb (is_space c).

Definition URL_HEAD : pystr := u "://www.ur-net.go.jp/".

(** [https?://www\.ur-net\.go\.jp/[^\s]+] *)
Definition url_pattern : regex :=
  Cat (Lit (u "http"))
      (Cat (Rep (one_of (u "s")) 0 (Some 1%nat))
           (Cat (Lit URL_HEAD) (Rep not_space 1 None))).

Definition parse_urls_from_text (text : pystr) : list pystr :=
  findall url_pattern text.

(** What the readers of the [csv] module make of a file: the first line
    stripped, the rows of [csv.reader] from the start of the file, and the
    rows of [csv.DictReader], each a dictionary from the column names to the
    fields that are present. *)
Record CsvFile := {
  first_line : pystr;
  reader_rows : list (list pystr);
  dict_rows : list (gmap pystr pystr)
}.

Definition URLS_TXT_HEADER : pystr :=
  u "No.,物件名,対象空室数,最寄駅,住所,電話番号,管理年数,URL".

Definition HTTP : pystr := u "http".

(** [row[i].strip()] for an index within the row. *)
Definition field (row : list pystr) (i : nat) : pystr := strip (default [] (row !! i)).

(** The rows after the header of the urls.txt layout: all six keys are set. *)
Definition urls_txt_row (row : list pystr) : list (gmap pystr pystr) :=
  if (8 <=? length row)%nat then
    let the_url := field row 7 in
    if truthy (Some the_url) && is_prefix HTTP the_url then
      [ <[ K_management_years := field row 6 ]>
        (<[ K_phone := field row 5 ]>
        (<[ K_address := field row 4 ]>
        (<[ K_transportation := field row 3 ]>
        (<[ K_name := field row 1 ]>
        {[ K_url := the_url ]})))) ]
    else []
  else [].

(** The rows of a file without header: the url is taken as it stands. *)
Definition indexed_row (row : list pystr) : list (gmap pystr pystr) :=
  if (8 <=? length row)%nat then
    let the_url := default [] (row !! 7%nat) in
    if truthy (Some the_url) && is_prefix HTTP the_url then
      [ <[ K_management_years := field row 6 ]>
        (<[ K_address := field row 4 ]>
        (<[ K_transportation := field row 3 ]>
        (<[ K_phone := field row 5 ]>
        (<[ K_name := field row 0 ]>
        {[ K_url := the_url ]})))) ]
    else []
  else [].

(** [for key in keys: if key in row and row[key]: ... row[key].strip(); break] *)
Fixpoint first_column (keys : list pystr) (row : gmap pystr pystr) : option pystr :=
  match keys with
  | [] => None
  | key :: rest =>
    if truthy (row !! key) then strip <$> row !! key else first_column rest row
  end.

(** [info[k] = v] when a column was found for [k]. *)
Definition set_if (k : pystr) (v : option pystr) (info : gmap pystr pystr)
    : gmap pystr pystr :=
  match v with
  | Some x => <[ k := x ]> info
  | None => info
  end.

Definition url_columns : list pystr := [ u "url"; u "URL"; u "リンク"; u "link" ].
Definition name_columns : list pystr :=
  [ u "name"; u "名称"; u "物件名"; u "property_name"; u "団地名" ].
Definition phone_columns : list pystr :=
  [ u "phone"; u "電話"; u "電話番号"; u "tel"; u "TEL" ].
Definition transportation_columns : list pystr :=
  [ u "transportation"; u "交通"; u "交通機関"; u "access"; u "最寄駅" ].
Definition address_columns : list pystr :=
  [ u "address"; u "住所"; u "所在地"; u "location" ].
Definition management_columns : list pystr :=
  [ u "management_years"; u "管理年数"; u "years"; u "年数" ].

(** The rows of a file with header, read by column name. *)
Definition named_row (row : gmap pystr pystr) : list (gmap pystr pystr) :=
  match first_column url_columns row with
  | Some (c :: the_url) =>
    [ set_if K_management_years (first_column management_columns row)
        (set_if K_address (first_column address_columns row)
        (set_if K_transportation (first_column transportation_columns row)
        (set_if K_phone (first_column phone_columns row)
        (set_if K_name (first_column name_columns row)
        {[ K_url := c :: the_url ]})))) ]
  | _ => []
  end.

(** [parse_urls_from_csv(csv_file)]; a file that cannot be opened gives
    the empty list. *)
Definition parse_urls_from_csv (file : result CsvFile) : list (gmap pystr pystr) :=
  match file with
  | Raise _ => []
  | Ok f =>
    if contains URLS_TXT_HEADER (first_line f) then
      tail (reader_rows f) ≫= urls_txt_row
    else if negb (is_prefix (u "url,") (first_line f))
            && negb (is_prefix (u "URL,") (first_line f))
            && negb (is_prefix (u "name,") (first_line f)) then
      reader_rows f ≫= indexed_row
    else dict_rows f ≫= named_row
  end.

(** The targets [main] hands to [check_properties]. *)
Definition targets_of_urls (urls : list pystr) : list Item :=
  (fun the_url => ItemDict {[ K_url := the_url ]}) <$> urls.

Definition targets_of_csv (file : result CsvFile) : list Item :=
  ItemDict <$> parse_urls_from_csv file.

End Inputs.

Import Inputs.

(** ** After the batch: saving, deciding, reporting *)

Module Report.

(** [with open(previous_file) as f: json.load(f).get('results', [])] on the
    modelled file system: only a snapshot parses. *)
Definition read_snapshot (fs : FS) (file : Path) : result (list PropertyResult) :=
  match files fs !! file with
  | Some (JsonSnapshot _ _ _ results) => Ok results
  | Some _ => Raise (u "JSONDecodeError")
  | None => Raise (u "FileNotFoundError")
  end.

(** The end of [main]: the results are saved first and the decision is
    taken afterwards, against the directory as the save left it. [scan] is
    what the lookup meets in ["results"] then. *)
Definition save_and_decide (clock : Clock) (results : list PropertyResult)
    (output_format : pystr) (output_path : option Path) (fs : FS)
    (scan : Directory) : FS * DecisionInfo :=
  let fs' := save_results clock results output_format output_path fs in
  (fs', should_send_email results RESULTS scan (read_snapshot fs')).

(** The figures and the three groups of [print_results]. *)
Definition success_count (results : list PropertyResult) : nat :=
  length (filter (fun r => status r = success) results).

Definition failed_count (results : list PropertyResult) : nat :=
  (length results - success_count results)%nat.

Definition properties_with_rooms (results : list PropertyResult) : list PropertyResult :=
  filter (fun r => status r = success /\ (0 < total_vacant r)%Z) results.

Definition properties_without_rooms (results : list PropertyResult) : list PropertyResult :=
  filter (fun r => status r = success /\ total_vacant r = 0%Z) results.

Definition failed_properties (results : list PropertyResult) : list PropertyResult :=
  filter (fun r => status r <> success) results.

End Report.

Import Report.

(** ** The mail sender *)

Module Email.

(** [s.split(sep)] for a separator of one character. *)
Fixpoint split_on (sep : N) (s : pystr) : list pystr :=
  match s with
  | [] => [[]]
  | c :: s' =>
    if (c =? sep) then [] :: split_on sep s'
    else
      match split_on sep s' with
      | w :: ws => (c :: w) :: ws
      | [] => [[c]]
      end
  end.

Definition COMMA : N := 44.

(** [__init__]: [self.bcc_addrs], from the text of the [bcc_addr] setting. *)
Definition bcc_addrs (bcc_addr : pystr) : list pystr :=
  if truthy (Some bcc_addr)
  then filter (fun addr => addr <> []) (strip <$> split_on COMMA bcc_addr)
  else [].

(** What [send_email] does, in order: an attempt to build and transmit
    the message to the recipients, which ends with or without an exception,
    and a wait. *)
Inductive mail_event :=
| Attempt (attempt : nat) (recipients : list pystr) (ok : bool)
| Wait (secs : nat).

(** [for attempt in range(self.max_retries)], from [attempt] on with [todo]
    iterations left; [smtp n] is the outcome of the body of the [n]-th
    attempt. *)
Fixpoint attempts (max_retries : Z) (smtp : nat -> result unit)
    (recipients : list pystr) (todo attempt : nat) : list mail_event * bool :=
  match todo with
  | O => ([], false)
  | S todo' =>
    match smtp attempt with
    | Ok _ => ([Attempt attempt recipients true], true)
    | Raise _ =>
      if (Z.of_nat attempt <? max_retries - 1)%Z then
        let '(t, sent) := attempts max_retries smtp recipients todo' (S attempt) in
        (Attempt attempt recipients false :: Wait ((attempt + 1) * 2) :: t, sent)
      else ([Attempt attempt recipients false], false)
    end
  end.

(** [send_email(to_addr, subject, html_content, text_content, bcc_addrs)];
    [configured] is [self.bcc_addrs]. *)
Definition send_email (max_retries : Z) (configured : list pystr)
    (smtp : nat -> result unit) (to_addr : pystr)
    (bcc : option (list pystr)) : list mail_event * bool :=
  let actual_bcc_addrs := default configured bcc in
  attempts max_retries smtp (to_addr :: actual_bcc_addrs) (Z.to_nat max_retries) 0.

(** The data handed to [format_results_to_html]: a dictionary with the
    key ['results'] and the other keys it may have, or the bare list. *)
Inductive ResultsData :=
| Snapshot (results : list PropertyResult) (timestamp : option pystr)
    (total_checked : option nat) (total_vacant_rooms : option Z)
| Bare (results : list PropertyResult).

(** [load_results_from_json(file_path)] on the modelled file system;
    [None] is the empty dictionary that every failure gives. *)
Definition load_results_from_json (fs : FS) (file_path : Path) : option ResultsData :=
  match files fs !! file_path with
  | Some (JsonSnapshot timestamp total_checked total_vacant_rooms results) =>
    Some (Snapshot results (Some timestamp) (Some total_checked) (Some total_vacant_rooms))
  | _ => None
  end.

(** The figures and the groups that [format_results_to_html] puts into
    the message. *)
Record Figures := {
  f_timestamp : pystr;
  f_total_checked : nat;
  f_total_vacant_rooms : Z;
  f_with_rooms : list PropertyResult;
  f_without_rooms : list PropertyResult;
  f_failed : list PropertyResult;
  f_success_count : nat;
  f_failed_count : nat
}.

(** The head of [format_results_to_html]; [now] is [datetime.now().isoformat()]. *)
Definition format_figures (now : pystr) (results_data : ResultsData) : Figures :=
  let '(results, timestamp, total_checked, total_vacant_rooms) :=
    match results_data with
    | Snapshot results timestamp total_checked total_vacant_rooms =>
      (results, default now timestamp, default (length results) total_checked,
       default 0%Z total_vacant_rooms)
    | Bare results => (results, now, length results, sum_vacant results)
    end in
  let with_rooms := properties_with_rooms results in
  let without_rooms := properties_without_rooms results in
  let failed_ones := failed_properties results in
  {| f_timestamp := timestamp;
     f_total_checked := total_checked;
     f_total_vacant_rooms := total_vacant_rooms;
     f_with_rooms := with_rooms;
     f_without_rooms := without_rooms;
     f_failed := failed_ones;
     f_success_count := (length with_rooms + length without_rooms)%nat;
     f_failed_count := length failed_ones |}.

End Email.

Import Email.

(** ** Vocabulary of the statements *)

(** The invariant of a Property Result: the count is the number of units,
    and a failed result has no unit. *)
Definition consistent (r : PropertyResult) : Prop :=
  total_vacant r = Z.of_nat (length (vacant_rooms r))
  /\ (status r = failed -> vacant_rooms r = []).

(** A target that is processed: its url is not empty. *)
Definition has_url (item : Item) : Prop := item_url item <> [].

#[global] Instance has_url_dec item : Decision (has_url item).
Proof. unfold has_url. apply _. Defined.

Definition is_goto (e : event) : bool :=
  match e with
  | Goto _ _ _ => true
  | _ => false
  end.

(** The events of [k] failed attempts, from attempt [a] on, each followed
    by its backoff wait. *)
Definition backoff_from (id a k : nat) : list event :=
  b ← seq a k; [Goto id b false; Sleep (seconds (2 ^ N.of_nat b))].

Definition backoff (id k : nat) : list event := backoff_from id 0 k.

(** The url-keyed mapping the comparison builds from a result list. *)
Definition vacancies (results : list PropertyResult) : list (pystr * Vacancy) :=
  vacant_properties results [].

(** A result that enters the mapping under the url [k]. *)
Definition vacant_at (k : pystr) (r : PropertyResult) : Prop :=
  url r = k /\ status r = success /\ (0 < total_vacant r)%Z.

#[global] Instance vacant_at_dec k r : Decision (vacant_at k r).
Proof. unfold vacant_at. apply _. Defined.

(** The candidates of the lookup: the paths [glob] yields. *)
Definition candidates (results_dir : pystr) (dir : Directory) : list Path :=
  match dir with
  | Listing names => glob results_dir names
  | _ => []
  end.

(** A candidate whose name carries no timestamp. *)
Definition malformed (p : Path) : Prop := group1 re_timestamp (basename p) = None.

(** The seconds of backoff a run of events waits in all. *)
Definition backoff_seconds (t : list event) : N :=
  foldr (fun e acc => match e with Sleep (seconds n) => n + acc | _ => acc end) 0 t.

(** The pages that are open after an event: made, and [close()] not yet
    called on them. *)
Definition track (open : list nat) (e : event) : list nat :=
  match e with
  | NewPage id true => id :: open
  | Close id => filter (fun x => x <> id) open
  | _ => open
  end.

Definition open_after (open : list nat) (t : list event) : list nat :=
  foldl track open t.

(** After no event of [t] is more than one page open. *)
Fixpoint exclusive_from (open : list nat) (t : list event) : Prop :=
  match t with
  | [] => True
  | e :: t' => (length (track open e) <= 1)%nat /\ exclusive_from (track open e) t'
  end.

(** An event that neither makes nor closes a page. *)
Definition neutral (e : event) : Prop :=
  match e with
  | NewPage _ true | Close _ => False
  | _ => True
  end.

(** A result of a target whose page never loaded. *)
Definition gave_up_loading (r : PropertyResult) : Prop :=
  error r = Some PAGE_LOAD_FAILED.

#[global] Instance gave_up_loading_dec r : Decision (gave_up_loading r).
Proof. unfold gave_up_loading. apply _. Defined.

(** The pages the browser was asked for, in order. *)
Definition new_page_ids (t : list event) : list nat :=
  omap (fun e => match e with NewPage id _ => Some id | _ => None end) t.

(** An event of the retry loop. *)
Definition navigating (e : event) : Prop :=
  match e with
  | Goto _ _ _ | Sleep _ => True
  | _ => False
  end.

(** A reading of [strftime("%Y%m%d_%H%M%S")]: eight digits, an underscore,
    six digits. *)
Definition is_stamp (s : pystr) : bool :=
  bool_decide (length s = 15%nat)
  && forallb digit (take 8 s)
  && bool_decide (drop 8 (take 9 s) = u "_")
  && forallb digit (drop 9 s).

(** The name under which a snapshot is saved when no path is given. *)
Definition saved_name (clock : Clock) : pystr :=
  RESULTS_PREFIX ++ stamp clock ++ JSON_SUFFIX.

(** [names] is what the directory [dir] of [fs] lists. *)
Definition listed (fs : FS) (dir : pystr) (names : list pystr) : Prop :=
  forall name, name ∈ names <-> is_Some (files fs !! join dir name).

(** The path a save writes: the one given, or the computed one. *)
Definition path_given (output_path : option Path) : Prop :=
  exists p, output_path = Some p /\ p <> ([], []).

#[global] Instance path_given_dec output_path : Decision (path_given output_path).
Proof.
  destruct output_path as [p|].
  - destruct (decide (p = ([], []))) as [Hp|Hp].
    + right. intros (p' & [= <-] & Hne). done.
    + left. by exists p.
  - right. by intros (p & ? & _).
Defined.

Definition target_path (clock : Clock) (output_format : pystr)
    (output_path : option Path) (fs : FS) : Path :=
  if decide (path_given output_path)
  then default (computed_path fs clock output_format) output_path
  else computed_path fs clock output_format.

Definition supported (output_format : pystr) : Prop :=
  output_format = u "json" \/ output_format = u "csv" \/ output_format = u "txt".

(** The files that [parse_urls_from_csv] reads by column name; the other
    two layouts are read by position. *)
Definition reads_by_name (f : CsvFile) : bool :=
  negb (contains URLS_TXT_HEADER (first_line f))
  && (is_prefix (u "url,") (first_line f)
      || is_prefix (u "URL,") (first_line f)
      || is_prefix (u "name,") (first_line f)).

(** The url of a parsed row, as [check_properties] reads it. *)
Definition row_url (d : gmap pystr pystr) : pystr := item_url (ItemDict d).

(** The rest of the subject is empty or starts outside the class [p]. *)
Definition stops (p : N -> bool) (rest : pystr) : Prop :=
  match rest with
  | [] => True
  | c :: _ => p c = false
  end.

(** The first way of [r] leaves a rest that stops [p], at every subject. *)
Definition greedy_end (p : N -> bool) (r : regex) : Prop :=
  forall s w ws, ways r s = w :: ws -> stops p w.2.

(** What a row read by position hands on: the url, and all four fields. *)
Definition positional (d : gmap pystr pystr) : Prop :=
  exists k t a p m,
    d !! K_url = Some k /\ k <> [] /\ is_prefix HTTP k = true
    /\ d !! K_transportation = Some t /\ d !! K_address = Some a
    /\ d !! K_phone = Some p /\ d !! K_management_years = Some m.

(** The first attempt below [n] whose body ends without an exception. *)
Fixpoint first_ok_from (smtp : nat -> result unit) (a n : nat) : option nat :=
  match n with
  | O => None
  | S n' =>
    match smtp a with
    | Ok _ => Some a
    | Raise _ => first_ok_from smtp (S a) n'
    end
  end.

Definition first_ok (smtp : nat -> result unit) (n : nat) : option nat :=
  first_ok_from smtp 0 n.

(** The events of the failed attempts [a], ..., [a + k - 1], each followed
    by its wait. *)
Definition retries_from (recipients : list pystr) (a k : nat) : list mail_event :=
  b ← seq a k; [Attempt b recipients false; Wait ((b + 1) * 2)].

(** The seconds a run of mail events waits in all. *)
Definition waited (t : list mail_event) : nat :=
  foldr (fun e acc => match e with Wait n => (n + acc)%nat | _ => acc end) 0%nat t.

(** The units shown for a list of results. *)
Definition units (results : list PropertyResult) : list Room :=
  results ≫= vacant_rooms.



(** ** Concrete inputs *)

Module Fixtures.

Definition URL_A : pystr := u "https://www.ur-net.go.jp/chintai/kanto/tokyo/a.html".
Definition URL_B : pystr := u "https://www.ur-net.go.jp/chintai/kanto/tokyo/b.html".
Definition URL_C : pystr := u "https://www.ur-net.go.jp/chintai/kanto/tokyo/c.html".

(** A page that never loads: every navigation times out. *)
Definition unreachable_page : Page :=
  {| goto := fun _ => Raise (u "Timeout 30000ms exceeded");
     query_selector := fun _ => Ok None;
     query_selector_all := fun _ => Ok [];
     Dom.title := Ok [];
     body_text := Ok None;
     close := Ok () |}.

(** A page that loads at once and lists no room. *)
Definition empty_page : Page :=
  {| goto := fun _ => Ok ();
     query_selector := fun _ => Ok None;
     query_selector_all := fun _ => Ok [];
     Dom.title := Ok (u "UR");
     body_text := Ok None;
     close := Ok () |}.

(** The first page made never loads, the later ones do. *)
Definition first_unreachable : Browser :=
  fun id => match id with O => Ok unreachable_page | S _ => Ok empty_page end.

Definition predefined_a : gmap pystr pystr :=
  {[ K_url := URL_A; K_name := u "A"; K_phone := u "03-0000-0000" ]}.

(** A successful result for the url [k] with [n] vacant units. *)
Definition unit_2ldk : Room :=
  {| type := u "2LDK"; rent := u "85,000円"; area := u "52㎡"; floor := u "3階" |}.

Definition vacant (k : pystr) (n : nat) : PropertyResult :=
  {| url := k;
     property_name := Some (u "UR");
     title := u "UR";
     vacant_rooms := replicate n unit_2ldk;
     total_vacant := Z.of_nat n;
     phone_number := UNKNOWN; phone_source := UNKNOWN;
     transportation := UNKNOWN; transportation_source := UNKNOWN;
     address := UNKNOWN; address_source := UNKNOWN;
     management_years := UNKNOWN; management_years_source := UNKNOWN;
     status := success;
     error := None |}.

(** Prior vacant set {A:1, B:2} and current {A:1, B:3, C:1}. *)
Definition prior_results : list PropertyResult := [vacant URL_A 1; vacant URL_B 2].
Definition current_results : list PropertyResult :=
  [vacant URL_A 1; vacant URL_B 3; vacant URL_C 1].

Definition NAME_0 : pystr := u "ur_net_results_20251006_231825.json".
Definition NAME_LATEST : pystr := u "ur_net_results_latest.json".
Definition NAME_ZERO : pystr := u "ur_net_results_00000000_000000.json".

Definition snapshot_file : Path := join RESULTS NAME_0.

(** A cell with the given text and no attribute. *)
Definition cell (text : pystr) : Element :=
  {| text_content := Ok (Some text); get_attribute := fun _ => Ok None |}.

(** A row of five cells: picture, room name, layout, a cell reading 不明,
    rent. None of the cells has one of the class names the selectors try. *)
Definition shifted_row : Row :=
  {| row_text_content := Ok (Some (u " 1号棟101号室 2LDK 不明 85,000円"));
     row_query_selector := fun selector =>
       if decide (selector = u "td:nth-child(2)") then Ok (Some (cell (u "1号棟101号室")))
       else if decide (selector = u "td:first-child + td") then Ok (Some (cell (u "1号棟101号室")))
       else if decide (selector = u "td:nth-child(3)") then Ok (Some (cell (u "2LDK")))
       else if decide (selector = u "td:nth-child(4)") then Ok (Some (cell (u "不明")))
       else if decide (selector = u "td:nth-child(5)") then Ok (Some (cell (u "85,000円")))
       else if decide (selector = u "td:last-child") then Ok (Some (cell (u "85,000円")))
       else Ok None |}.

(** A row as the site renders it, with the class names the first
    selectors look for and a link to the detail page. *)
Definition listed_row : Row :=
  {| row_text_content := Ok (Some (u " 1号棟101号室 85,000円 2LDK 52㎡ 3階/5階 詳細"));
     row_query_selector := fun selector =>
       if decide (selector = u ".rep_room-name") then Ok (Some (cell (u " 1号棟101号室 ")))
       else if decide (selector = u "span.rep_room-price") then Ok (Some (cell (u "85,000円")))
       else if decide (selector = u "td:nth-child(4)") then Ok (Some (cell (u " 2LDK ")))
       else if decide (selector = u ".rep_room-floor") then Ok (Some (cell (u "52㎡")))
       else if decide (selector = u ".rep_room-kai") then Ok (Some (cell (u "3階/5階")))
       else if decide (selector = u "a") then
         Ok (Some {| text_content := Ok (Some (u "詳細"));
                     get_attribute := fun _ => Ok (Some (u "/chintai/room.html?id=101")) |})
       else Ok None |}.

(** The header row of the same table. *)
Definition header_row : Row :=
  {| row_text_content := Ok (Some (u "間取図 部屋名 家賃 間取り 床面積 階数"));
     row_query_selector := fun _ => Ok None |}.

(** A page whose room table holds the header and [listed_row]. *)
Definition listed_page : Page :=
  {| goto := fun _ => Ok ();
     query_selector := fun selector =>
       if decide (selector = u "h1.property-name") then Ok (Some (cell (u " UR ひばりが丘 ")))
       else Ok None;
     query_selector_all := fun selector =>
       if decide (selector = u "table tbody tr") then Ok [header_row; listed_row]
       else Ok [];
     Dom.title := Ok (u "ひばりが丘（東京都）の賃貸物件｜UR賃貸住宅");
     body_text :=
       Ok (Some (u "西武池袋線「ひばりヶ丘」駅 徒歩10分" ++ [10] ++ u "TEL: 03-0000-0000"));
     close := Ok () |}.

(** A page whose only table row is [shifted_row]. *)
Definition shifted_page : Page :=
  {| goto := fun _ => Ok ();
     query_selector := fun _ => Ok None;
     query_selector_all := fun selector =>
       if decide (selector = u "table tbody tr") then Ok [shifted_row]
       else if decide (selector = u "tr") then Ok [shifted_row]
       else Ok [];
     Dom.title := Ok (u "UR");
     body_text := Ok None;
     close := Ok () |}.

(** The results directory holding one snapshot, written at 2025-10-06
    23:18:25, and the clock reading that very second. *)
Definition old_snapshot : Content :=
  JsonSnapshot (u "2025-10-06T23:18:25.120000") 0 0 [].

Definition disk : FS :=
  {| dirs := {[ RESULTS ]}; files := {[ snapshot_file := old_snapshot ]} |}.

Definition clock : Clock :=
  {| stamp := u "20251006_231825"; iso := u "2025-10-06T23:18:25.870000" |}.

(** A target with the four fields given beforehand, as a line of the
    urls.txt layout provides them. *)
Definition predefined_full : gmap pystr pystr :=
  <[ K_management_years := u "45年" ]>
  (<[ K_phone := u "03-1111-2222" ]>
  (<[ K_address := u "東京都西東京市ひばりが丘" ]>
  (<[ K_transportation := u "西武池袋線 ひばりヶ丘駅" ]>
  (<[ K_name := u "ひばりが丘" ]>
  {[ K_url := URL_A ]})))).

(** The unit [listed_row] shows. *)
Definition unit_2ldk_listed : Room :=
  {| type := u "2LDK"; rent := u "85,000円"; area := u "52㎡"; floor := u "3階/5階" |}.

(** A page that loads at the third attempt. *)
Definition slow_page : Page :=
  {| goto := fun attempt =>
       match attempt with
       | O | S O => Raise (u "Timeout 30000ms exceeded")
       | _ => Ok ()
       end;
     query_selector := fun _ => Ok None;
     query_selector_all := fun _ => Ok [];
     Dom.title := Ok (u "UR");
     body_text := Ok None;
     close := Ok () |}.

(** The clock of a run on the next morning. *)
Definition later_clock : Clock :=
  {| stamp := u "20251007_090000"; iso := u "2025-10-07T09:00:00.500000" |}.


(** A file in the urls.txt layout: the header and one line, whose phone
    cell is empty. *)
Definition urls_txt : CsvFile :=
  {| first_line := URLS_TXT_HEADER;
     reader_rows :=
       [ [u "No."; u "物件名"; u "対象空室数"; u "最寄駅"; u "住所"; u "電話番号";
          u "管理年数"; u "URL"];
         [u "1"; u "ひばりが丘パークヒルズ"; u "2"; u " 西武池袋線 ひばりヶ丘駅 ";
          u "東京都西東京市ひばりが丘"; u ""; u "45年"; URL_A] ];
     dict_rows := [] |}.

End Fixtures.

(** * Properties *)

(** ** Strings *)

Section String_facts.

Lemma ltb_irrefl (a : pystr) : ltb a a = false.
Proof.
  induction a as [|x a IH]; [done|]. simpl.
  rewrite N.ltb_irrefl, N.eqb_refl. exact IH.
Qed.

(** Two strings neither of which is below the other are the same. *)
Lemma ltb_antisym (a b : pystr) : ltb a b = false -> ltb b a = false -> a = b.
Proof.
  revert b. induction a as [|x a IH]; intros [|y b]; simpl; try done.
  intros H1 H2.
  apply orb_false_iff in H1 as [H1 H1'], H2 as [H2 H2'].
  apply N.ltb_ge in H1, H2.
  assert (x = y) as -> by lia.
  rewrite N.eqb_refl in H1', H2'. simpl in *.
  f_equal. by apply IH.
Qed.

Lemma ltb_trans (a b c : pystr) : ltb a b = true -> ltb b c = true -> ltb a c = true.
Proof.
  revert b c. induction a as [|x a IH]; intros [|y b] [|z c]; simpl; try done.
  intros H1 H2.
  apply orb_true_iff in H1 as [H1|H1], H2 as [H2|H2];
    repeat match goal with
    | H : (_ && _) = true |- _ => apply andb_true_iff in H as [? ?]
    | H : (_ <? _) = true |- _ => apply N.ltb_lt in H
    | H : (_ =? _) = true |- _ => apply N.eqb_eq in H
    end; subst; apply orb_true_iff.
  - left. apply N.ltb_lt. lia.
  - left. by apply N.ltb_lt.
  - left. by apply N.ltb_lt.
  - right. rewrite N.eqb_refl. simpl. eauto.
Qed.

(** Every decimal digit is at or above the ASCII zero. *)
Lemma is_digit_ge_zero (c : N) : is_digit c = true -> 48 <= c.
Proof.
  unfold is_digit. rewrite existsb_exists. intros (z & Hz & Hc).
  apply andb_true_iff in Hc as [Hc _]. apply N.leb_le in Hc.
  assert (Forall (fun z => 48 <= z) digit_zeros) as Hall.
  { unfold digit_zeros. repeat constructor; lia. }
  rewrite Forall_forall in Hall. specialize (Hall z).
  apply list_elem_of_In in Hz. specialize (Hall Hz). lia.
Qed.

Lemma is_prefix_app (p s : pystr) : is_prefix p s = true -> s = p ++ drop (length p) s.
Proof.
  revert s. induction p as [|a p IH]; intros s; [done|].
  destruct s as [|b s]; simpl; [done|].
  intros [Hab Hp]%andb_true_iff. apply N.eqb_eq in Hab as ->.
  f_equal. by apply IH.
Qed.

End String_facts.

(** ** The matcher against the declarative reading *)

Section Regex_facts.

Lemma run_length p hi s : (run p hi s <= length s)%nat.
Proof.
  revert hi. induction s as [|c s IH]; intros hi.
  - destruct hi as [[|h]|]; simpl; lia.
  - destruct hi as [[|h]|]; simpl; [lia| |];
      destruct (p c); simpl; try lia; apply le_n_S, IH.
Qed.

Lemma run_bound p h s : (run p (Some h) s <= h)%nat.
Proof.
  revert h. induction s as [|c s IH]; intros [|h]; simpl; try lia.
  destruct (p c); simpl; [|lia]. apply le_n_S, IH.
Qed.

Lemma run_class p hi s k :
  (k <= run p hi s)%nat -> Forall (fun c => p c = true) (take k s).
Proof.
  revert hi k. induction s as [|c s IH]; intros hi k Hk.
  - rewrite take_nil. constructor.
  - destruct k as [|k]; [constructor|].
    assert (p c = true /\ (k <= run p (Nat.pred <$> hi) s)%nat) as [Hc Hk'].
    { destruct hi as [[|h]|]; simpl in Hk; [lia| |];
        destruct (p c); simpl in *; split; try done; lia. }
    simpl. constructor; [done|]. by eapply IH.
Qed.

(** Each way the matcher finds splits the subject and is a match in the
    declarative sense. *)
Lemma ways_sound r s c g rest :
  (c, g, rest) ∈ ways r s -> s = c ++ rest /\ Matches r c g.
Proof.
  revert s c g rest. induction r as [l|p|p lo hi|r1 IH1 r2 IH2|r1 IH1 r2 IH2|r IH];
    intros s c g rest Hin; simpl in Hin.
  - destruct (is_prefix l s) eqn:Hp; [|by apply elem_of_nil in Hin].
    apply list_elem_of_singleton in Hin. simplify_eq.
    split; [by apply is_prefix_app | constructor].
  - destruct s as [|x s]; [by apply elem_of_nil in Hin|].
    destruct (p x) eqn:Hx; [|by apply elem_of_nil in Hin].
    apply list_elem_of_singleton in Hin. simplify_eq.
    split; [done | by constructor].
  - apply list_elem_of_fmap in Hin as (k & Heq & Hk). simplify_eq.
    apply elem_of_reverse, elem_of_seq in Hk.
    assert (k <= run p hi s)%nat as Hrun by lia.
    pose proof (run_length p hi s) as Hlen.
    split; [by rewrite take_drop|].
    constructor.
    + by eapply run_class.
    + rewrite length_take. lia.
    + intros h ->. rewrite length_take. pose proof (run_bound p h s). lia.
  - apply list_elem_of_bind in Hin as ([[c1 g1] s1] & Hin2 & Hin1).
    apply list_elem_of_bind in Hin2 as ([[c2 g2] s2] & Hin3 & Hin2).
    apply list_elem_of_singleton in Hin3. simplify_eq.
    apply IH1 in Hin1 as [-> M1]. apply IH2 in Hin2 as [-> M2].
    split; [by rewrite app_assoc | by constructor].
  - apply elem_of_app in Hin as [Hin|Hin].
    + apply IH1 in Hin as [-> M]. split; [done | by apply MAltL].
    + apply IH2 in Hin as [-> M]. split; [done | by apply MAltR].
  - apply list_elem_of_fmap in Hin as ([[c' g'] rest'] & Heq & Hin).
    simpl in Heq. simplify_eq.
    apply IH in Hin as [-> M]. split; [done | by econstructor].
Qed.

(** A successful search found a match somewhere in the subject. *)
Lemma search_sound r s c g :
  search r s = Some (c, g) ->
  Matches r c g /\ exists pre post, s = pre ++ c ++ post.
Proof.
  induction s as [|x s IH]; simpl.
  - destruct (ways r []) as [|[[c' g'] rest] ws] eqn:Hw; [done|].
    intros [= <- <-].
    destruct (ways_sound r [] c' g' rest) as [Hs M]; [rewrite Hw; left|].
    split; [done|]. by exists [], rest.
  - destruct (ways r (x :: s)) as [|[[c' g'] rest] ws] eqn:Hw.
    + intros H. apply IH in H as (M & pre & post & ->).
      split; [done|]. by exists (x :: pre), post.
    + intros [= <- <-].
      destruct (ways_sound r (x :: s) c' g' rest) as [Hs M]; [rewrite Hw; left|].
      split; [done|]. by exists [], rest.
Qed.

Lemma group1_sound r s g :
  group1 r s = Some g -> exists c, Matches r c (Some g).
Proof.
  unfold group1. destruct (search r s) as [[c g']|] eqn:Hs; simpl; [|done].
  intros ->. exists c. by apply search_sound in Hs as [M _].
Qed.

End Regex_facts.

(** ** Extraction and single-target checking: the returned dictionary *)

Section Result_facts.

Context (page : Page) (the_url : pystr) (predefined_info : Predefined).

Lemma extraction_body_ok r :
  extraction_body page the_url predefined_info = Ok r ->
  url r = the_url /\ status r = success
  /\ vacant_rooms r = extract_vacant_rooms page
  /\ total_vacant r = Z.of_nat (length (extract_vacant_rooms page)).
Proof.
  unfold extraction_body, Dom.bind.
  destruct (extract_name page predefined_info) as [name|]; [|done].
  destruct (if given predefined_info && truthy (pre_get predefined_info K_name)
            then Ok name else Dom.title page) as [t|]; [|done].
  by intros [= <-].
Qed.

Lemma extract_property_info_cases :
  let r := extract_property_info page the_url predefined_info in
  (extraction_body page the_url predefined_info = Ok r)
  \/ (r = extraction_failed the_url predefined_info).
Proof.
  unfold extract_property_info, catch.
  destruct (extraction_body page the_url predefined_info); eauto.
Qed.

Lemma extract_property_info_url :
  url (extract_property_info page the_url predefined_info) = the_url.
Proof.
  destruct extract_property_info_cases as [H| ->]; [|done].
  by apply extraction_body_ok in H as [? _].
Qed.

Lemma extract_property_info_consistent :
  consistent (extract_property_info page the_url predefined_info).
Proof.
  destruct extract_property_info_cases as [H| ->].
  - apply extraction_body_ok in H as (_ & Hs & Hr & Hn).
    split; [by rewrite Hn, Hr | by rewrite Hs].
  - by split.
Qed.

Lemma check_failed_consistent err : consistent (check_failed the_url predefined_info err).
Proof. by split. Qed.

End Result_facts.

(** The result of [check_single_property] is the extracted dictionary or
    one of its own two failure dictionaries. *)
Lemma check_single_property_cases max_retries browser id the_url pre :
  let r := (check_single_property max_retries browser id the_url pre).2 in
  (exists page, browser id = Ok page
     /\ r = extract_property_info page the_url pre /\ status r = success)
  \/ (exists err, r = check_failed the_url pre err).
Proof.
  unfold check_single_property.
  destruct (browser id) as [page|]; [|right; eauto].
  destruct (navigate _ _ _ _ _) as [t []]; [|right; eauto].
  destruct (close page); [|right; eauto]. simpl.
  case_decide; [left; eauto | right; eauto].
Qed.

Lemma check_single_property_url max_retries browser id the_url pre :
  url (check_single_property max_retries browser id the_url pre).2 = the_url.
Proof.
  destruct (check_single_property_cases max_retries browser id the_url pre)
    as [(page & _ & -> & _)|(err & ->)]; [apply extract_property_info_url | done].
Qed.

Lemma check_single_property_consistent max_retries browser id the_url pre :
  consistent (check_single_property max_retries browser id the_url pre).2.
Proof.
  destruct (check_single_property_cases max_retries browser id the_url pre)
    as [(page & _ & -> & _)|(err & ->)];
    [apply extract_property_info_consistent | apply check_failed_consistent].
Qed.

(** ** The batch loop *)

Lemma check_loop_urls max_retries browser total items : forall i made,
  url <$> (check_loop max_retries browser total i made items).2
  = item_url <$> filter has_url items.
Proof.
  induction items as [|item items IH]; intros i made; [done|]. simpl.
  unfold filter at 1; simpl. fold (filter has_url items).
  destruct (item_url item) as [|c the_url] eqn:Hu; simpl.
  - rewrite decide_False by (unfold has_url; rewrite Hu; naive_solver). apply IH.
  - rewrite decide_True by (unfold has_url; by rewrite Hu).
    destruct (check_single_property _ _ _ _ _) as [t r] eqn:Hr.
    specialize (IH (S i) (S made)).
    destruct (check_loop _ _ _ _ _ items) as [t' rs]. simpl in *.
    rewrite Hu. f_equal; [|done].
    change r with (t, r).2. rewrite <- Hr. apply check_single_property_url.
Qed.

Lemma check_loop_results max_retries browser total items : forall i made r,
  r ∈ (check_loop max_retries browser total i made items).2 ->
  exists id the_url pre, r = (check_single_property max_retries browser id the_url pre).2.
Proof.
  induction items as [|item items IH]; intros i made r; simpl; [by intros ?%elem_of_nil|].
  destruct (negb _); [apply IH|].
  destruct (check_single_property _ _ _ _ _) as [t r0] eqn:Hr.
  specialize (IH (S i) (S made) r).
  destruct (check_loop _ _ _ _ _ items) as [t' rs]. simpl in *.
  intros [->|Hin]%elem_of_cons; [|by apply IH].
  eexists _, _, _. by rewrite Hr.
Qed.


Lemma check_properties_results max_retries browser url_data :
  (check_properties max_retries browser url_data).2
  = (check_loop max_retries browser (length url_data) 1 0 url_data).2.
Proof. unfold check_properties. by destruct (check_loop _ _ _ _ _ _). Qed.

Lemma check_properties_urls max_retries browser url_data :
  url <$> (check_properties max_retries browser url_data).2
    = item_url <$> filter has_url url_data
  /\ length (check_properties max_retries browser url_data).2
     = length (filter has_url url_data).
Proof.
  rewrite check_properties_results.
  pose proof (check_loop_urls max_retries browser (length url_data) url_data 1 0) as H.
  split; [done|].
  apply (f_equal length) in H. by rewrite !length_fmap in H.
Qed.


Lemma filter_all {A} (P : A -> Prop) `{forall x, Decision (P x)} (l : list A) :
  Forall P l -> filter P l = l.
Proof.
  induction 1 as [|x l Hx Hl IH]; [done|].
  rewrite filter_cons_True by done. by f_equal.
Qed.

(** ** The retry loop *)

Lemma backoff_from_S id a k :
  backoff_from id a (S k)
  = Goto id a false :: Sleep (seconds (2 ^ N.of_nat a)) :: backoff_from id (S a) k.
Proof. done. Qed.

Lemma backoff_from_gotos id k : forall a,
  length (filter is_goto (backoff_from id a k)) = k.
Proof.
  induction k as [|k IH]; intros a; [done|].
  rewrite backoff_from_S.
  rewrite filter_cons_True by done. rewrite filter_cons_False by (simpl; tauto).
  simpl. by rewrite IH.
Qed.

(** The loop ends in one of three ways: the last attempt failed, an
    attempt succeeded, or there was no attempt to make. *)
Lemma navigate_shape max_retries page id : forall todo a,
  (todo + a = Z.to_nat max_retries)%nat ->
  exists k,
    (navigate max_retries page id todo a
       = (backoff_from id a k ++ [Goto id (a + k) false], gave_up)
     /\ Z.of_nat (a + k) = (max_retries - 1)%Z)
    \/ (navigate max_retries page id todo a
          = (backoff_from id a k ++ [Goto id (a + k) true; Sleep delay_seconds], loaded)
        /\ (a + k < Z.to_nat max_retries)%nat)
    \/ (navigate max_retries page id todo a = ([], loaded) /\ todo = O /\ k = O).
Proof.
  induction todo as [|todo IH]; intros a Hsum.
  - exists O. right; right. done.
  - simpl. destruct (goto page a) as [[]|e].
    + exists O. right; left. rewrite Nat.add_0_r. split; [done | lia].
    + destruct (Z.of_nat a <? max_retries - 1)%Z eqn:Hlt.
      * apply Z.ltb_lt in Hlt.
        destruct (IH (S a)) as (k & [[-> Hk]|[[-> Hk]|(_ & -> & _)]]); [lia| | |lia].
        -- exists (S k). left. rewrite backoff_from_S.
           replace (a + S k)%nat with (S a + k)%nat by lia. done.
        -- exists (S k). right; left. rewrite backoff_from_S.
           replace (a + S k)%nat with (S a + k)%nat by lia. done.
      * apply Z.ltb_ge in Hlt. exists O. left. rewrite Nat.add_0_r.
        split; [done | lia].
Qed.

(** Closes a goal from [H : x ∈ [y1; ...; yn]] when [x] is none of the [yi]. *)
Ltac not_listed H :=
  repeat (apply elem_of_cons in H as [H|H]; [discriminate H|]);
  apply elem_of_nil in H; destruct H.

(** The events of one target whose page was made: [k] failed attempts with
    their waits, and then either the failure of the last attempt allowed, or a
    successful attempt, the extraction and the closing of the page. Without
    any attempt to make, the extraction follows at once. *)
Lemma check_single_property_trace max_retries browser id the_url pre page :
  browser id = Ok page ->
  let run := check_single_property max_retries browser id the_url pre in
  exists k,
    (run.1 = NewPage id true :: backoff id k ++ [Goto id k false]
     /\ Z.of_nat k = (max_retries - 1)%Z
     /\ run.2 = check_failed the_url pre PAGE_LOAD_FAILED)
    \/ (exists closes,
          run.1 = NewPage id true :: backoff id k
                    ++ Goto id k true :: Sleep delay_seconds :: Extract id :: closes
          /\ (k < Z.to_nat max_retries)%nat
          /\ (closes = [Close id] \/ closes = [Close id; Close id]))
    \/ ((max_retries <= 0)%Z /\ k = O
        /\ exists closes,
             run.1 = NewPage id true :: Extract id :: closes
             /\ (closes = [Close id] \/ closes = [Close id; Close id])).
Proof.
  intros Hpage run. subst run. unfold check_single_property. rewrite Hpage.
  destruct (navigate_shape max_retries page id (Z.to_nat max_retries) 0)
    as (k & [[-> Hk]|[[-> Hk]|(-> & Hz & Hk)]]); [lia| | |]; exists k.
  - by left.
  - right; left. destruct (close page); eexists; simpl;
      (split; [rewrite <- app_assoc; reflexivity | split; [done | eauto]]).
  - right; right. split; [lia|]. split; [done|].
    destruct (close page); eexists; simpl; eauto.
Qed.


Lemma elem_of_backoff_from id e k : forall a,
  e ∈ backoff_from id a k
  <-> exists b, (a <= b < a + k)%nat
        /\ (e = Goto id b false \/ e = Sleep (seconds (2 ^ N.of_nat b))).
Proof.
  induction k as [|k IH]; intros a.
  - split; [by intros ?%elem_of_nil | intros (b & ? & _); lia].
  - rewrite backoff_from_S, !elem_of_cons, IH. split.
    + intros [->|[->|(b & Hb & He)]];
        [exists a; split; [lia | by left]
        |exists a; split; [lia | by right]
        |exists b; split; [lia | done]].
    + intros (b & Hb & He). destruct (decide (b = a)) as [->|Hne].
      * destruct He as [->| ->]; eauto.
      * right; right. exists b. split; [lia | done].
Qed.

(** The page of a target is closed unless the last attempt allowed failed:
    on that path the function returns from inside the retry loop. *)
Lemma page_closed_unless_navigation_gave_up max_retries browser id the_url pre page :
  browser id = Ok page ->
  let run := check_single_property max_retries browser id the_url pre in
  Close id ∈ run.1
  <-> ~ exists k, Z.of_nat k = (max_retries - 1)%Z /\ Goto id k false ∈ run.1.
Proof.
  intros Hpage run.
  destruct (check_single_property_trace max_retries browser id the_url pre page Hpage)
    as (k & [(Hrun & Hk & _)|[(closes & Hrun & Hk & Hc)|(Hz & _ & closes & Hrun & Hc)]]);
    fold run in Hrun; rewrite Hrun.
  - split.
    + rewrite elem_of_cons, elem_of_app, list_elem_of_singleton.
      intros [?|[(b & _ & [?|?])%elem_of_backoff_from|?]]; done.
    + intros []. exists k. split; [done|].
      rewrite elem_of_cons, elem_of_app, list_elem_of_singleton. eauto.
  - split.
    + intros _ (j & Hj & Hin).
      rewrite elem_of_cons, elem_of_app, !elem_of_cons in Hin.
      destruct Hin as [?|[(b & Hb & [[= ->]|?])%elem_of_backoff_from|[?|[?|[?|Hin]]]]];
        try done; [lia|].
      destruct Hc as [-> | ->]; by not_listed Hin.
    + intros _. rewrite elem_of_cons, elem_of_app, !elem_of_cons.
      right; right. do 3 right. destruct Hc as [-> | ->]; apply list_elem_of_here.
  - split.
    + intros _ (j & Hj & Hin). rewrite !elem_of_cons in Hin.
      destruct Hin as [?|[?|Hin]]; try done.
      destruct Hc as [-> | ->]; by not_listed Hin.
    + intros _. rewrite !elem_of_cons. do 2 right.
      destruct Hc as [-> | ->]; apply list_elem_of_here.
Qed.

Lemma pre_get_or_present (d : gmap pystr pystr) k v dflt :
  d !! k = Some v -> pre_get_or (Some d) k dflt = v.
Proof.
  intros Hk. unfold pre_get_or, given, pre_get. simpl. rewrite Hk. simpl.
  rewrite bool_decide_eq_false_2; [done|].
  intros ->. by rewrite lookup_empty in Hk.
Qed.

(** ** Claims on the orchestrator *)

(** C1, as the claim states it, fails: a target whose url is missing is
    passed over by [if not url: continue], so one input target yields no
    Property Result at all. *)
Lemma target_without_url_is_dropped :
  (check_properties 5 Fixtures.first_unreachable [ItemDict ∅]).2 = []
  /\ length [ItemDict ∅] = 1%nat.
Proof. split; reflexivity. Qed.

(** C1 (amended): the output holds exactly one Property Result for every
    target whose url is not empty, in input order; targets with an empty or
    missing url are skipped. The urls of the results are the non-empty urls
    of the targets, in the same order, and so are the lengths. *)
Theorem check_properties_one_result_per_url max_retries browser url_data :
  url <$> (check_properties max_retries browser url_data).2
    = item_url <$> filter has_url url_data
  /\ length (check_properties max_retries browser url_data).2
     = length (filter has_url url_data).
Proof. apply check_properties_urls. Qed.

(** C4: [total_vacant] is the number of entries of [vacant_rooms], and a
    failed result has no entry, on every return path of
    [extract_property_info] and of [check_single_property], hence for every
    result of a batch. *)
Theorem unit_count_matches_units max_retries browser id page the_url pre :
  consistent (extract_property_info page the_url pre)
  /\ consistent (check_single_property max_retries browser id the_url pre).2
  /\ forall url_data,
       Forall consistent (check_properties max_retries browser url_data).2.
Proof.
  split; [apply extract_property_info_consistent|].
  split; [apply check_single_property_consistent|].
  intros url_data. rewrite check_properties_results.
  apply Forall_forall. intros r Hr.
  apply check_loop_results in Hr as (id' & u' & pre' & ->).
  apply check_single_property_consistent.
Qed.

(** C10: on every return path of [extract_property_info] and of
    [check_single_property] the [url] of the returned dictionary is the
    [url] argument. *)
Theorem result_url_is_argument max_retries browser id page the_url pre :
  url (extract_property_info page the_url pre) = the_url
  /\ url (check_single_property max_retries browser id the_url pre).2 = the_url.
Proof.
  split; [apply extract_property_info_url | apply check_single_property_url].
Qed.



(** A target that never loads, with the default of five attempts: the waits
    are 1, 2, 4 and 8 seconds and the fifth failure ends the target. *)
Example five_attempts_then_failed :
  check_single_property 5 Fixtures.first_unreachable 0 Fixtures.URL_A
    (Some Fixtures.predefined_a)
  = ([ NewPage 0 true;
       Goto 0 0 false; Sleep (seconds 1); Goto 0 1 false; Sleep (seconds 2);
       Goto 0 2 false; Sleep (seconds 4); Goto 0 3 false; Sleep (seconds 8);
       Goto 0 4 false ],
     check_failed Fixtures.URL_A (Some Fixtures.predefined_a) PAGE_LOAD_FAILED).
Proof. vm_compute. reflexivity. Qed.

(** The target that never loads ends as failed and the next one is still
    checked. *)
Example failed_target_does_not_block :
  status <$> (check_properties 2 Fixtures.first_unreachable
                [ItemDict {[ K_url := Fixtures.URL_A ]};
                 ItemDict {[ K_url := Fixtures.URL_B ]}]).2
  = [failed; success].
Proof. vm_compute. reflexivity. Qed.

(** C7 fails on the code: when the last navigation attempt fails,
    [check_single_property] returns from inside the retry loop and never
    calls [page.close()]. In a batch of two targets the page of the first is
    still open when the page of the second is made, and no [Close 0] occurs
    in the whole run. *)
Theorem page_left_open_when_navigation_gives_up :
  (check_properties 2 Fixtures.first_unreachable
     [ItemDict {[ K_url := Fixtures.URL_A ]}; ItemDict {[ K_url := Fixtures.URL_B ]}]).1
  = [ NewPage 0 true; Goto 0 0 false; Sleep (seconds 1); Goto 0 1 false;
      Sleep delay_seconds;
      NewPage 1 true; Goto 1 0 true; Sleep delay_seconds; Extract 1; Close 1;
      BrowserClose ].
Proof. vm_compute. reflexivity. Qed.

(** ** The url-keyed mappings *)

Section Dict_facts.

Context {V : Type}.
Implicit Types (d : list (pystr * V)) (k : pystr) (v : V).

Lemma dict_get_set d k k' v :
  dict_get k (dict_set k' v d) = if decide (k' = k) then Some v else dict_get k d.
Proof.
  induction d as [|[k0 v0] d IH]; simpl.
  - by destruct (decide (k' = k)).
  - destruct (decide (k0 = k')) as [->|Hne]; simpl.
    + by destruct (decide (k' = k)).
    + destruct (decide (k0 = k)) as [->|Hne'].
      * by rewrite decide_False by congruence.
      * exact IH.
Qed.

Lemma dict_keys_get d k : k ∈ dict_keys d <-> is_Some (dict_get k d).
Proof.
  unfold dict_keys. induction d as [|[k0 v0] d IH]; simpl.
  - split; [by intros ?%elem_of_nil | by intros [? ?]].
  - rewrite elem_of_cons, IH. destruct (decide (k0 = k)) as [->|Hne].
    + split; eauto.
    + split; [intros [?|?]; [congruence|done] | eauto].
Qed.

Lemma dict_has_true d k : dict_has k d = true <-> is_Some (dict_get k d).
Proof. unfold dict_has. apply bool_decide_eq_true. Qed.

Lemma dict_has_false d k : dict_has k d = false <-> dict_get k d = None.
Proof.
  unfold dict_has. rewrite bool_decide_eq_false, <- eq_None_not_Some. done.
Qed.

End Dict_facts.

(** The value the mapping stores for a result. *)
Lemma vacant_properties_lookup k results : forall acc,
  dict_get k (vacant_properties results acc)
  = match last (filter (vacant_at k) results) with
    | Some r =>
      Some {| v_property_name := property_name r;
              v_total_vacant := total_vacant r;
              v_vacant_rooms := vacant_rooms r |}
    | None => dict_get k acc
    end.
Proof.
  induction results as [|r results IH]; intros acc; [done|]. simpl.
  rewrite IH. clear IH.
  destruct (decide (vacant_at k r)) as [Hv|Hv].
  - rewrite filter_cons_True by done.
    destruct Hv as (<- & Hs & Ht).
    rewrite bool_decide_eq_true_2 by done.
    rewrite (proj2 (Z.ltb_lt _ _) Ht). simpl.
    rewrite dict_get_set, decide_True by done.
    rewrite last_cons. by destruct (last (filter _ results)).
  - rewrite filter_cons_False by done.
    destruct (last (filter (vacant_at k) results)); [done|].
    destruct (bool_decide (status r = success)) eqn:Hs; simpl; [|done].
    destruct (0 <? total_vacant r)%Z eqn:Ht; [|done].
    rewrite dict_get_set. destruct (decide (url r = k)) as [Hu|]; [|done].
    exfalso. apply Hv. repeat split; [done| |].
    + by apply bool_decide_eq_true in Hs.
    + by apply Z.ltb_lt.
Qed.

(** The mapping holds exactly the urls of the results with
    [status = success] and [total_vacant > 0]. *)
Lemma vacancies_dom k results :
  is_Some (dict_get k (vacancies results)) <-> exists r, r ∈ results /\ vacant_at k r.
Proof.
  unfold vacancies. rewrite vacant_properties_lookup. simpl.
  destruct (last (filter (vacant_at k) results)) as [r|] eqn:Hl.
  - split; [intros _|eauto].
    apply last_Some in Hl as [l' Hl].
    assert (r ∈ filter (vacant_at k) results) as Hin by (rewrite Hl; set_solver).
    apply list_elem_of_filter in Hin as [? ?]. eauto.
  - apply last_None in Hl. split; [by intros [? ?]|].
    intros (r & Hin & Hv).
    assert (r ∈ filter (vacant_at k) results) as Hin' by by apply list_elem_of_filter.
    rewrite Hl in Hin'. by apply elem_of_nil in Hin'.
Qed.

(** ** The comparison *)

Section Compare_facts.

Context (current previous : list (pystr * Vacancy)).

Lemma new_vacant_urls_spec k :
  k ∈ new_vacant_urls current previous
  <-> is_Some (dict_get k current) /\ dict_get k previous = None.
Proof.
  unfold new_vacant_urls.
  rewrite list_elem_of_filter, dict_has_false, dict_keys_get. tauto.
Qed.

Lemma increased_vacant_urls_spec k :
  k ∈ increased_vacant_urls current previous
  <-> exists c p, dict_get k current = Some c /\ dict_get k previous = Some p
                  /\ (v_total_vacant p < v_total_vacant c)%Z.
Proof.
  unfold increased_vacant_urls, grew.
  rewrite list_elem_of_filter, dict_keys_get. split.
  - intros [Hg _].
    destruct (dict_get k current) as [c|]; [|done].
    destruct (dict_get k previous) as [p|]; [|done].
    exists c, p. by apply Z.ltb_lt in Hg.
  - intros (c & p & -> & -> & Hlt). split; [by apply Z.ltb_lt | eauto].
Qed.

Lemma collect_spec urls e :
  e ∈ collect current previous urls
  <-> exists k c, k ∈ urls /\ dict_get k current = Some c
        /\ e = {| n_url := k;
                  n_property_name := v_property_name c;
                  n_total_vacant := v_total_vacant c;
                  n_vacant_rooms := v_vacant_rooms c;
                  change_type :=
                    if bool_decide (k ∈ new_vacant_urls current previous)
                    then new else increased |}.
Proof.
  unfold collect. rewrite list_elem_of_bind. split.
  - intros (k & He & Hk). destruct (dict_get k current) as [c|] eqn:Hc.
    + apply list_elem_of_singleton in He. eauto.
    + by apply elem_of_nil in He.
  - intros (k & c & Hk & Hc & ->). exists k. rewrite Hc.
    split; [by apply list_elem_of_singleton | done].
Qed.

(** What is flagged, and how. *)
Lemma flagged_spec k t :
  (exists e, e ∈ collect current previous
                 (new_vacant_urls current previous
                  ++ increased_vacant_urls current previous)
             /\ n_url e = k /\ change_type e = t)
  <-> (t = new /\ is_Some (dict_get k current) /\ dict_get k previous = None)
      \/ (t = increased
          /\ exists c p, dict_get k current = Some c /\ dict_get k previous = Some p
                         /\ (v_total_vacant p < v_total_vacant c)%Z).
Proof.
  split.
  - intros (e & He & <- & <-).
    apply collect_spec in He as (k & c & Hk & Hc & ->). simpl.
    case_bool_decide as Hnew.
    + left. split; [done|]. by apply new_vacant_urls_spec.
    + right. split; [done|].
      apply elem_of_app in Hk as [Hk|Hk]; [done|].
      by apply increased_vacant_urls_spec.
  - intros [(-> & Hc & Hp)|(-> & c & p & Hc & Hp & Hlt)].
    + assert (k ∈ new_vacant_urls current previous) as Hk
        by by apply new_vacant_urls_spec.
      destruct Hc as [c Hc].
      exists {| n_url := k;
                n_property_name := v_property_name c;
                n_total_vacant := v_total_vacant c;
                n_vacant_rooms := v_vacant_rooms c;
                change_type := new |}.
      split; [|done]. apply collect_spec. exists k, c.
      split; [apply elem_of_app; by left|]. split; [done|].
      by rewrite bool_decide_eq_true_2.
    + assert (k ∈ increased_vacant_urls current previous) as Hk.
      { apply increased_vacant_urls_spec. eauto. }
      exists {| n_url := k;
                n_property_name := v_property_name c;
                n_total_vacant := v_total_vacant c;
                n_vacant_rooms := v_vacant_rooms c;
                change_type := increased |}.
      split; [|done]. apply collect_spec. exists k, c.
      split; [apply elem_of_app; by right|]. split; [done|].
      rewrite bool_decide_eq_false_2; [done|].
      intros [_ Hn]%new_vacant_urls_spec. congruence.
Qed.

End Compare_facts.

(** C2: with both sides restricted to the results with [status = success]
    and [total_vacant > 0], a url is flagged as [new] exactly when the current
    mapping has it and the prior one does not, and as [increased] exactly when
    both have it and the current count is strictly greater;
    [has_new_properties] holds exactly when something is flagged, and it is
    the [should_send] of the decision taken against that snapshot; a url
    whose count did not grow, or which left the current mapping, is not
    flagged.
    For prior {A:1, B:2} and current {A:1, B:3, C:1} the flagged urls are C as
    [new] and B as [increased], and [has_new_properties] is true. *)
Theorem newly_vacant_decision current_results previous_results file :
  let current := vacancies current_results in
  let previous := vacancies previous_results in
  let d := compare_results current_results file (Ok previous_results) in
  (forall k, is_Some (dict_get k current)
             <-> exists r, r ∈ current_results /\ vacant_at k r)
  /\ (forall k, is_Some (dict_get k previous)
                <-> exists r, r ∈ previous_results /\ vacant_at k r)
  /\ (forall k t,
        (exists e, e ∈ new_properties d /\ n_url e = k /\ change_type e = t)
        <-> (t = new /\ is_Some (dict_get k current) /\ dict_get k previous = None)
            \/ (t = increased
                /\ exists c p, dict_get k current = Some c
                               /\ dict_get k previous = Some p
                               /\ (v_total_vacant p < v_total_vacant c)%Z))
  /\ (has_new_properties d = true <-> new_properties d <> [])
  /\ (forall results_dir dir load,
        find_latest_result_file results_dir dir = Some file ->
        load file = Ok previous_results ->
        should_send (should_send_email current_results results_dir dir load)
        = has_new_properties d)
  /\ (forall k c p e,
        dict_get k current = Some c -> dict_get k previous = Some p ->
        (v_total_vacant c <= v_total_vacant p)%Z ->
        e ∈ new_properties d -> n_url e <> k)
  /\ (forall k e, dict_get k current = None -> e ∈ new_properties d -> n_url e <> k)
  /\ (let d0 := compare_results Fixtures.current_results file (Ok Fixtures.prior_results) in
      (fun e => (n_url e, change_type e)) <$> new_properties d0
        = [(Fixtures.URL_C, new); (Fixtures.URL_B, increased)]
      /\ has_new_properties d0 = true).
Proof.
  intros current previous d.
  assert (forall k t,
        (exists e, e ∈ new_properties d /\ n_url e = k /\ change_type e = t)
        <-> (t = new /\ is_Some (dict_get k current) /\ dict_get k previous = None)
            \/ (t = increased
                /\ exists c p, dict_get k current = Some c
                               /\ dict_get k previous = Some p
                               /\ (v_total_vacant p < v_total_vacant c)%Z)) as Hflag.
  { intros k t. apply flagged_spec. }
  split; [intros k; apply vacancies_dom|].
  split; [intros k; apply vacancies_dom|].
  split; [exact Hflag|].
  split; [|split; [|split; [|split]]].
  - simpl. rewrite bool_decide_eq_true.
    destruct (collect _ _ _); simpl; split; (done || lia).
  - intros results_dir dir load Hfile Hload.
    unfold should_send_email. rewrite Hfile, Hload. fold d.
    by destruct (has_new_properties d).
  - intros k c p e Hc Hp Hle He Hk.
    destruct (proj1 (Hflag k (change_type e))) as [(_ & _ & Hn)|(_ & c' & p' & Hc' & Hp' & Hlt)];
      [eauto | congruence |].
    simplify_eq. lia.
  - intros k e Hc He Hk.
    destruct (proj1 (Hflag k (change_type e))) as [(_ & [c' Hc'] & _)|(_ & c' & p' & Hc' & _)];
      [eauto | congruence | congruence].
  - vm_compute. done.
Qed.

(** C3: when reading or parsing the prior snapshot raises, the comparison
    has [has_new_properties] set and keeps the text of the error in its
    summary; [should_send_email] then decides to send and hands that
    comparison on. *)
Theorem unreadable_snapshot_fails_open current_results file e results_dir dir load :
  has_new_properties (compare_results current_results file (Raise e)) = true
  /\ comparison_summary (compare_results current_results file (Raise e)) = Error e
  /\ (find_latest_result_file results_dir dir = Some file ->
      load file = Raise e ->
      let decision := should_send_email current_results results_dir dir load in
      should_send decision = true
      /\ is_first_run decision = false
      /\ comparison_summary <$> comparison_result decision = Some (Error e)).
Proof.
  split; [done|]. split; [done|].
  intros Hfile Hload. unfold should_send_email. rewrite Hfile, Hload. done.
Qed.

Lemma unreadable_snapshot_fails_open_witness :
  find_latest_result_file RESULTS (Listing [Fixtures.NAME_0]) = Some Fixtures.snapshot_file
  /\ should_send
       (should_send_email Fixtures.current_results RESULTS (Listing [Fixtures.NAME_0])
          (fun _ => Raise (u "Expecting value: line 1 column 1 (char 0)")))
     = true.
Proof.
  split; [vm_compute; reflexivity|].
  exact (proj1 (proj2 (proj2 (unreadable_snapshot_fails_open
    Fixtures.current_results Fixtures.snapshot_file
    (u "Expecting value: line 1 column 1 (char 0)") RESULTS
    (Listing [Fixtures.NAME_0])
    (fun _ => Raise (u "Expecting value: line 1 column 1 (char 0)"))))
    ltac:(vm_compute; reflexivity) eq_refl)).
Defined.

(** ** Saving *)

(** C9, as the claim states it, fails: a save whose computed name is the
    name of an existing snapshot replaces that snapshot. The directory holds
    the snapshot written at 23:18:25; a second save in the same second leaves
    the new results under the same path. *)
Lemma save_replaces_snapshot_of_same_name :
  files Fixtures.disk !! Fixtures.snapshot_file = Some Fixtures.old_snapshot
  /\ Fixtures.old_snapshot = JsonSnapshot (u "2025-10-06T23:18:25.120000") 0 0 []
  /\ computed_path Fixtures.disk Fixtures.clock (u "json") = Fixtures.snapshot_file
  /\ files (save_results Fixtures.clock Fixtures.current_results (u "json") None
             Fixtures.disk) !! Fixtures.snapshot_file
     = Some (JsonSnapshot (u "2025-10-06T23:18:25.870000") 3 5 Fixtures.current_results).
Proof. vm_compute. done. Qed.

(** C9 (amended): a save under the computed name creates the output
    directory if it is absent and leaves the snapshot under that name,
    replacing a file of the same name if there is one; every file of another
    name, and every directory, is left as it was. *)
Theorem save_results_frame clock results fs :
  let path := computed_path fs clock (u "json") in
  let fs' := save_results clock results (u "json") None fs in
  path.1 ∈ dirs fs'
  /\ files fs' !! path
     = Some (JsonSnapshot (iso clock) (length results) (sum_vacant results) results)
  /\ (forall other, other <> path -> files fs' !! other = files fs !! other)
  /\ dirs fs ⊆ dirs fs'.
Proof.
  intros path fs'. subst fs'. unfold save_results.
  change (computed_path fs clock (u "json")) with path.
  rewrite decide_True by done. unfold write_file.
  rewrite bool_decide_eq_true_2 by (unfold makedirs; cbn [dirs]; set_solver).
  unfold catch, makedirs. cbn [dirs files].
  split; [set_solver|]. split; [apply lookup_insert_eq|].
  split; [|set_solver].
  intros other Hne. by apply lookup_insert_ne.
Qed.

(** ** The latest snapshot *)

Section Max_facts.

Context {A : Type} (key : A -> pystr).

Lemma ltb_le_lt_trans (a b c : pystr) :
  ltb b a = false -> ltb b c = true -> ltb a c = true.
Proof.
  intros Hab Hbc. destruct (ltb a b) eqn:Hba.
  - by eapply ltb_trans.
  - by rewrite (ltb_antisym a b Hba Hab).
Qed.

Lemma ltb_asym (a b : pystr) : ltb a b = true -> ltb b a = false.
Proof.
  intros Hab. destruct (ltb b a) eqn:Hba; [|done].
  pose proof (ltb_trans a b a Hab Hba) as H. by rewrite ltb_irrefl in H.
Qed.

(** [max] returns the first element whose key no element exceeds: the
    elements before it have smaller keys, the ones after it have keys that
    are not greater. *)
Lemma max_from_spec xs : forall best,
  let m := max_from key best xs in
  exists before after,
    best :: xs = before ++ m :: after
    /\ Forall (fun c => ltb (key c) (key m) = true) before
    /\ Forall (fun c => ltb (key m) (key c) = false) after.
Proof.
  induction xs as [|x xs IH]; intros best; simpl.
  - exists [], []. done.
  - destruct (ltb (key best) (key x)) eqn:Hlt.
    + destruct (IH x) as (before & after & Heq & Hb & Ha).
      exists (best :: before), after. rewrite Heq. split; [done|]. split; [|done].
      constructor; [|done].
      destruct before as [|b before]; injection Heq as Hx Hxs.
      * by rewrite <- Hx.
      * subst b. apply Forall_cons in Hb as [Hb _]. by eapply ltb_trans.
    + destruct (IH best) as (before & after & Heq & Hb & Ha).
      destruct before as [|b before]; injection Heq as Hx Hxs.
      * subst after. rewrite <- Hx in Ha. exists [], (x :: xs). rewrite <- Hx.
        split; [done|]. split; [done|]. by constructor.
      * subst b. exists (best :: x :: before), after.
        split; [simpl; by rewrite <- Hxs|].
        apply Forall_cons in Hb as [Hb Hb']. split; [|done].
        constructor; [done|]. constructor; [|done].
        by eapply ltb_le_lt_trans.
Qed.

Lemma max_from_greatest xs best c :
  c ∈ best :: xs -> ltb (key (max_from key best xs)) (key c) = false.
Proof.
  destruct (max_from_spec xs best) as (before & after & -> & Hb & Ha).
  rewrite elem_of_app, elem_of_cons. rewrite Forall_forall in Hb, Ha.
  intros [Hc|[->|Hc]]; [apply ltb_asym; eauto | apply ltb_irrefl | eauto].
Qed.

End Max_facts.

Section Timestamp_facts.

Lemma ltb_pointwise (a b : pystr) :
  Forall2 (fun x y => y <= x) a b -> ltb a b = false.
Proof.
  induction 1 as [|x y a b Hxy _ IH]; [done|]. simpl.
  rewrite IH, andb_false_r, orb_false_r. apply N.ltb_ge. done.
Qed.

Lemma digits_above_zeros (w : pystr) :
  Forall (fun c => digit c = true) w ->
  Forall2 (fun x y => y <= x) w (replicate (length w) 48).
Proof.
  induction 1 as [|c w Hc _ IH]; simpl; constructor; [|done].
  by apply is_digit_ge_zero.
Qed.

(** What group 1 of the file-name pattern holds: eight digits, an
    underscore, six digits. *)
Lemma timestamp_shape c g :
  Matches re_timestamp c (Some g) ->
  exists w1 w2, g = w1 ++ u "_" ++ w2
    /\ Forall (fun c => digit c = true) w1 /\ length w1 = 8%nat
    /\ Forall (fun c => digit c = true) w2 /\ length w2 = 6%nat.
Proof.
  unfold re_timestamp. intros H.
  inversion H as [| | |r1 r2 w1 w2 g1 g2 H1 H2 Hr Hw Hg| | |]; subst; clear H.
  inversion H1; subst; clear H1.
  inversion H2 as [| | |r1 r2 w3 w4 g3 g4 H3 H4 Hr Hw Hg'| | |]; subst; clear H2.
  inversion H4; subst; clear H4.
  inversion H3 as [| | | | | |r w g' H5]; subst; clear H3.
  simpl in Hg. injection Hg as <-.
  inversion H5 as [| | |r1 r2 w5 w6 g5 g6 H6 H7 Hr Hw Hg'| | |]; subst; clear H5.
  inversion H7 as [| | |r1 r2 w7 w8 g7 g8 H8 H9 Hr Hw Hg''| | |]; subst; clear H7.
  inversion H8; subst; clear H8.
  inversion H6 as [| |p lo hi w Hall Hlo Hhi| | | |]; subst; clear H6.
  inversion H9 as [| |p lo hi w Hall' Hlo' Hhi'| | | |]; subst; clear H9.
  specialize (Hhi _ eq_refl). specialize (Hhi' _ eq_refl).
  exists w5, w8. repeat split; try done; lia.
Qed.

Lemma min_timestamp_least (p : Path) : ltb (extract_timestamp p) MIN_TIMESTAMP = false.
Proof.
  unfold extract_timestamp.
  destruct (group1 re_timestamp (basename p)) as [g|] eqn:Hg; [|apply ltb_irrefl].
  apply group1_sound in Hg as [c Hc].
  apply timestamp_shape in Hc as (w1 & w2 & -> & Hd1 & Hl1 & Hd2 & Hl2).
  apply ltb_pointwise.
  change MIN_TIMESTAMP with (replicate 8 48 ++ u "_" ++ replicate 6 48).
  rewrite <- Hl1 at 1. rewrite <- Hl2 at 1.
  apply Forall2_app; [by apply digits_above_zeros|].
  apply Forall2_app; [|by apply digits_above_zeros].
  repeat constructor; lia.
Qed.

Lemma is_prefix_spec (p s : pystr) : is_prefix p s = true <-> exists t, s = p ++ t.
Proof.
  split; [intros H; eexists; by apply is_prefix_app|].
  intros [t ->]. induction p as [|a p IH]; [done|]. simpl.
  unfold eqb_char. by rewrite N.eqb_refl.
Qed.

Lemma is_suffix_spec (p s : pystr) : is_suffix p s = true <-> exists t, s = t ++ p.
Proof.
  unfold is_suffix. rewrite is_prefix_spec. split.
  - intros [t Ht]. exists (rev t).
    apply (f_equal (@rev N)) in Ht. rewrite rev_app_distr, !rev_involutive in Ht. done.
  - intros [t ->]. exists (rev t). apply rev_app_distr.
Qed.

(** The names [glob] keeps are those of the form
    [ur_net_results_<anything>.json]. *)
Lemma glob_match_spec (name : pystr) :
  glob_match name = true <-> exists mid, name = RESULTS_PREFIX ++ mid ++ JSON_SUFFIX.
Proof.
  unfold glob_match. rewrite andb_true_iff, is_prefix_spec, is_suffix_spec. split.
  - intros [[t ->] [mid Hmid]]. rewrite drop_app_length in Hmid. subst t. eauto.
  - intros [mid ->]. split; [eauto|]. rewrite drop_app_length. eauto.
Qed.

End Timestamp_facts.

(** C8, as the claim states it, fails: a name that does not parse is
    selected although it is not the only candidate. The directory holds
    [ur_net_results_latest.json], which carries no timestamp, and then
    [ur_net_results_00000000_000000.json], which carries the minimum one; both
    get the same key and [max] keeps the first. *)
Lemma unparsed_name_selected_among_two :
  find_latest_result_file RESULTS (Listing [Fixtures.NAME_LATEST; Fixtures.NAME_ZERO])
    = Some (join RESULTS Fixtures.NAME_LATEST)
  /\ candidates RESULTS (Listing [Fixtures.NAME_LATEST; Fixtures.NAME_ZERO])
     = [join RESULTS Fixtures.NAME_LATEST; join RESULTS Fixtures.NAME_ZERO]
  /\ group1 re_timestamp Fixtures.NAME_LATEST = None
  /\ group1 re_timestamp Fixtures.NAME_ZERO = Some MIN_TIMESTAMP.
Proof. vm_compute. done. Qed.

(** C8 (amended): the lookup returns nothing exactly when there is no
    candidate, which is the case when the directory is absent or holds no
    name of the form [ur_net_results_*.json]; otherwise it returns the first
    candidate, in scan order, whose timestamp no candidate exceeds in the
    order of strings. A name that does not parse gets the timestamp
    [00000000_000000], which no parsed timestamp is below, so such a name
    is returned only when every candidate has that same minimum timestamp. *)
Theorem latest_snapshot_lookup results_dir dir :
  let found := find_latest_result_file results_dir dir in
  let cands := candidates results_dir dir in
  (found = None <-> cands = [])
  /\ candidates results_dir Absent = []
  /\ (forall names p,
        p ∈ candidates results_dir (Listing names)
        <-> exists name mid, name ∈ names
              /\ name = RESULTS_PREFIX ++ mid ++ JSON_SUFFIX
              /\ p = join results_dir name)
  /\ (forall f, found = Some f ->
        (exists before after,
           cands = before ++ f :: after
           /\ Forall (fun c => ltb (extract_timestamp c) (extract_timestamp f) = true) before
           /\ Forall (fun c => ltb (extract_timestamp f) (extract_timestamp c) = false) after)
        /\ (forall c, c ∈ cands -> ltb (extract_timestamp f) (extract_timestamp c) = false))
  /\ (forall p, malformed p -> extract_timestamp p = MIN_TIMESTAMP)
  /\ (forall p, ltb (extract_timestamp p) MIN_TIMESTAMP = false)
  /\ (forall f, found = Some f -> malformed f ->
        Forall (fun c => extract_timestamp c = MIN_TIMESTAMP) cands).
Proof.
  intros found cands.
  assert (forall p, malformed p -> extract_timestamp p = MIN_TIMESTAMP) as Hmal.
  { intros p Hp. unfold extract_timestamp. unfold malformed in Hp. by rewrite Hp. }
  assert (forall f, found = Some f ->
            forall c, c ∈ cands -> ltb (extract_timestamp f) (extract_timestamp c) = false)
    as Hmax.
  { subst found cands. unfold find_latest_result_file, candidates.
    destruct dir as [|names|e]; try done.
    destruct (glob results_dir names) as [|f0 fs]; [done|].
    intros f [= <-] c Hc. by apply max_from_greatest. }
  split; [|split; [done|split; [|split; [|split; [exact Hmal|split]]]]].
  - subst found cands. unfold find_latest_result_file, candidates.
    destruct dir as [|names|e]; try done.
    by destruct (glob results_dir names).
  - intros names p. unfold candidates, glob.
    rewrite list_elem_of_fmap. split.
    + intros (name & -> & [Hm Hin]%list_elem_of_filter).
      apply glob_match_spec in Hm as [mid Hmid]. eauto.
    + intros (name & mid & Hin & Hname & ->). exists name. split; [done|].
      apply list_elem_of_filter. split; [|done]. apply glob_match_spec. eauto.
  - intros f Hf. split; [|by apply Hmax].
    subst found cands. unfold find_latest_result_file, candidates in *.
    destruct dir as [|names|e]; try done.
    destruct (glob results_dir names) as [|f0 fs]; [done|].
    injection Hf as <-. apply max_from_spec.
  - apply min_timestamp_least.
  - intros f Hf Hm. apply Forall_forall. intros c Hc.
    apply ltb_antisym; [apply min_timestamp_least|].
    rewrite <- (Hmal f Hm). by apply Hmax.
Qed.

Lemma latest_snapshot_lookup_witness :
  find_latest_result_file RESULTS
    (Listing [Fixtures.NAME_LATEST; u "notes.txt"; Fixtures.NAME_0])
  = Some Fixtures.snapshot_file
  /\ ltb (extract_timestamp Fixtures.snapshot_file)
         (extract_timestamp (join RESULTS Fixtures.NAME_LATEST)) = false.
Proof.
  split; [vm_compute; reflexivity|].
  refine (proj2 (proj1 (proj2 (proj2 (proj2 (latest_snapshot_lookup RESULTS
    (Listing [Fixtures.NAME_LATEST; u "notes.txt"; Fixtures.NAME_0])))))
    Fixtures.snapshot_file _) (join RESULTS Fixtures.NAME_LATEST) _).
  - vm_compute. reflexivity.
  - vm_compute. apply list_elem_of_here.
Defined.

(** ** The units of a row *)

Section Row_facts.

Context (row : Row).

(** A unit is emitted only under the guard, and then carries the layout and
    the rent the row yielded, not the placeholder put in their place. *)
Lemma row_rooms_guard r :
  r ∈ row_rooms row ->
  exists layout price,
    extract_room_type row = Some layout /\ layout <> []
    /\ extract_rent row = Some price /\ price <> []
    /\ type r = layout /\ rent r = price.
Proof.
  unfold row_rooms.
  destruct (extract_room_type row) as [[|c layout]|]; simpl;
    rewrite ?andb_false_r; try by intros ?%elem_of_nil.
  destruct (extract_rent row) as [[|c' price]|]; simpl;
    rewrite ?andb_false_r; try by intros ?%elem_of_nil.
  destruct (_ && _); [|by intros ?%elem_of_nil].
  intros ->%list_elem_of_singleton. by eexists _, _.
Qed.

Lemma scan_type_sound selectors g :
  scan_type row selectors = Some g -> exists s, group1 re_type s = Some g.
Proof.
  induction selectors as [|selector rest IH]; simpl; [done|].
  destruct (row_query_selector row selector) as [[element|]|]; try done.
  destruct (text_content element) as [text|]; try done.
  destruct (truthy text && truthy (strip <$> text)); try done.
  destruct (group1 re_type (strip (default [] text))) as [g'|] eqn:Hg; [|done].
  intros [= <-]. eauto.
Qed.

Lemma extract_room_type_sound g :
  extract_room_type row = Some g -> g <> [] -> exists s, group1 re_type s = Some g.
Proof.
  unfold extract_room_type, or_row_text.
  destruct (scan_type row type_selectors) as [[|c v]|] eqn:Hs; cbn [truthy].
  - destruct (row_text_content row) as [[[|c row_text]|]|];
      try (by intros [= <-] ?).
    destruct (group1 re_type (c :: row_text)) as [g'|] eqn:Hg; [|by intros [= <-] ?].
    intros [= <-] _. eauto.
  - intros [= <-] _. by eapply scan_type_sound.
  - destruct (row_text_content row) as [[[|c row_text]|]|]; try done.
    destruct (group1 re_type (c :: row_text)) as [g'|] eqn:Hg; [|done].
    intros [= <-] _. eauto.
Qed.

End Row_facts.

Section Sentinel_facts.

(** Group 1 of the layout pattern starts with a digit. *)
Lemma type_shape c g :
  Matches re_type c (Some g) -> exists d w, g = d :: w /\ digit d = true.
Proof.
  unfold re_type. intros H.
  inversion H as [| | | | | |r w g' H1]; subst; clear H.
  inversion H1 as [| | |r1 r2 w1 w2 g1 g2 H2 H3 Hr Hw Hg| | |]; subst; clear H1.
  inversion H2 as [| |p lo hi w Hall Hlo Hhi| | | |]; subst; clear H2.
  destruct w1 as [|d w1]; simpl in Hlo; [lia|].
  apply Forall_cons in Hall as [Hd _]. by exists d, (w1 ++ w2).
Qed.

(** Group 1 of the rent pattern starts with a digit. *)
Lemma price_shape c g :
  Matches (Grp re_price) c (Some g) -> exists d w, g = d :: w /\ digit d = true.
Proof.
  unfold re_price, re_price_core. intros H.
  inversion H as [| | | | | |r w g' H1]; subst; clear H.
  inversion H1 as [| | |r1 r2 w1 w2 g1 g2 H2 H3 Hr Hw Hg| | |]; subst; clear H1.
  inversion H2 as [| | |r1 r2 w3 w4 g3 g4 H4 H5 Hr Hw Hg'| | |]; subst; clear H2.
  inversion H4 as [| |p lo hi w Hall Hlo Hhi| | | |]; subst; clear H4.
  destruct w3 as [|d w3]; simpl in Hlo; [lia|].
  apply Forall_cons in Hall as [Hd _]. by exists d, ((w3 ++ w4) ++ w2).
Qed.

Lemma unknown_starts_without_digit d w : UNKNOWN = d :: w -> digit d = false.
Proof. by intros [= <- _]. Qed.

(** The layout of an emitted unit is never the placeholder. *)
Lemma row_rooms_type_known row r : r ∈ row_rooms row -> type r <> UNKNOWN.
Proof.
  intros (layout & price & Ht & Hne & _ & _ & -> & _)%row_rooms_guard Hu.
  apply extract_room_type_sound in Ht as [s Hs]; [|done].
  apply group1_sound in Hs as [c Hc].
  apply type_shape in Hc as (d & w & -> & Hd).
  apply eq_sym, unknown_starts_without_digit in Hu. congruence.
Qed.

(** What the loop over the price cells can leave in its variable: the
    initial value, or the text of one of the cells, stripped or, when that
    leaves nothing, as it was read. *)
Lemma scan_cells_origin query accept selectors : forall var v,
  scan_cells query accept selectors var = Some v ->
  var = Some v
  \/ exists selector element text,
       selector ∈ selectors
       /\ query selector = Ok (Some element)
       /\ text_content element = Ok (Some text)
       /\ (v = strip text \/ (v = text /\ strip text = [])).
Proof.
  induction selectors as [|selector rest IH]; intros var v; simpl; [by left|].
  destruct (query selector) as [[element|]|] eqn:Hq;
    try (intros [H|(s & el & t & Hin & H)]%IH; [by left|];
         right; exists s, el, t; split; [by right | done]).
  destruct (text_content element) as [text|] eqn:Ht;
    try (intros [H|(s & el & t & Hin & H)]%IH; [by left|];
         right; exists s, el, t; split; [by right | done]).
  destruct (truthy text && truthy (strip <$> text)) eqn:Hc.
  - destruct text as [text|]; [|done].
    assert (forall w, Some (strip (default [] (Some text))) = Some w \/
                      scan_cells query accept rest (Some (strip text)) = Some w ->
            Some w = Some v ->
            var = Some v \/ exists selector0 element0 text0,
              selector0 ∈ selector :: rest /\ query selector0 = Ok (Some element0)
              /\ text_content element0 = Ok (Some text0)
              /\ (v = strip text0 \/ (v = text0 /\ strip text0 = []))) as Hstep.
    { intros w [Hw|Hw] [= <-].
      - injection Hw as <-. right. exists selector, element, text.
        split; [by left|]. eauto.
      - apply IH in Hw as [[= <-]|(s & el & t & Hin & H)].
        + right. exists selector, element, text. split; [by left|]. eauto.
        + right. exists s, el, t. split; [by right | done]. }
    destruct (accept (strip (default [] (Some text)))); intros H.
    + eapply Hstep; [left; reflexivity | exact H].
    + eapply Hstep; [right; exact H | reflexivity].
  - intros [H|(s & el & t & Hin & H)]%IH.
    + right. destruct text as [text|]; [|done].
      exists selector, element, text. split; [by left|].
      split; [done|]. split; [done|].
      injection H as <-. right. split; [done|].
      destruct text as [|c text]; [done|]. simpl in Hc.
      by destruct (strip (c :: text)).
    + right. exists s, el, t. split; [by right | done].
Qed.

(** The rent of an emitted unit is the placeholder text only when one of
    the price cells of the row reads so. *)
Lemma row_rooms_rent_unknown row r :
  r ∈ row_rooms row -> rent r = UNKNOWN ->
  exists selector element text,
    selector ∈ price_selectors
    /\ row_query_selector row selector = Ok (Some element)
    /\ text_content element = Ok (Some text)
    /\ strip text = UNKNOWN.
Proof.
  intros (layout & price & _ & _ & Hr & Hne & _ & ->)%row_rooms_guard ->.
  unfold extract_rent, or_row_text in Hr.
  destruct (scan_cells _ _ _ _) as [v|] eqn:Hscan.
  - destruct (truthy (Some v)) eqn:Hv.
    + injection Hr as ->.
      apply scan_cells_origin in Hscan as [?|(s & el & t & Hin & Hq & Ht & [H|[H H']])];
        [done| |].
      * eauto 10.
      * subst t. by vm_compute in H'.
    + destruct (row_text_content row) as [[row_text|]|]; try by simplify_eq.
      destruct (truthy (Some row_text)); [|by simplify_eq].
      destruct (group1 (Grp re_price) row_text) as [g|] eqn:Hg; [|by simplify_eq].
      injection Hr as ->. apply group1_sound in Hg as [c Hc].
      apply price_shape in Hc as (d & w & Hu & Hd).
      apply unknown_starts_without_digit in Hu. congruence.
  - cbn [truthy] in Hr.
    destruct (row_text_content row) as [[[|x row_text]|]|]; try done.
    destruct (group1 (Grp re_price) (x :: row_text)) as [g|] eqn:Hg; [|done].
    injection Hr as ->. apply group1_sound in Hg as [c Hc].
    apply price_shape in Hc as (d & w & Hu & Hd).
    apply unknown_starts_without_digit in Hu. congruence.
Qed.

End Sentinel_facts.

(** C5 fails on the code: the loop over the price cells stores each cell
    text in [rent] before checking its shape, so a text that fails the check
    stays in the variable and keeps the search of the row text from running.
    For a row whose fourth cell reads 不明 and whose rent stands in the fifth,
    the row is kept, the row text does hold the rent, and yet the unit is
    emitted with the placeholder text as its rent. *)
Theorem unit_emitted_with_placeholder_rent :
  keep_row Fixtures.shifted_row = true
  /\ row_text_content Fixtures.shifted_row = Ok (Some (u " 1号棟101号室 2LDK 不明 85,000円"))
  /\ group1 (Grp re_price) (u " 1号棟101号室 2LDK 不明 85,000円") = Some (u "85,000円")
  /\ extract_rent Fixtures.shifted_row = Some UNKNOWN
  /\ vacant_rooms (extract_property_info Fixtures.shifted_page Fixtures.URL_A None)
     = [ {| type := u "2LDK"; rent := UNKNOWN;
            area := u "85,000円"; floor := u "85,000円" |} ].
Proof. vm_compute. done. Qed.

(** ** The model at work on a page as the site renders it *)

(** The header row is rejected, the listed unit is found with its four
    fields, and the fields of the property come from the page. *)
Example listed_page_is_extracted :
  keep_row Fixtures.header_row = false
  /\ extract_property_info Fixtures.listed_page Fixtures.URL_A None
     = {| url := Fixtures.URL_A;
          property_name := Some (u "UR ひばりが丘");
          title := u "ひばりが丘（東京都）の賃貸物件｜UR賃貸住宅";
          vacant_rooms :=
            [ {| type := u "2LDK"; rent := u "85,000円";
                 area := u "52㎡"; floor := u "3階/5階" |} ];
          total_vacant := 1;
          phone_number := u "03-0000-0000";
          phone_source := SCRAPED;
          transportation := u "西武池袋線「ひばりヶ丘」駅 徒歩10分";
          transportation_source := SCRAPED;
          address := UNKNOWN;
          address_source := UNKNOWN;
          management_years := UNKNOWN;
          management_years_source := UNKNOWN;
          status := success;
          error := None |}.
Proof. vm_compute. done. Qed.

(** A run over two targets that load: one page per target, closed before
    the next is made, and the pause between the targets only. *)
Example two_targets_run :
  (check_properties 5 (fun _ => Ok Fixtures.listed_page)
     [ItemDict {[ K_url := Fixtures.URL_A ]}; ItemPair Fixtures.URL_B (u "B")]).1
  = [ NewPage 0 true; Goto 0 0 true; Sleep delay_seconds; Extract 0; Close 0;
      Sleep delay_seconds;
      NewPage 1 true; Goto 1 0 true; Sleep delay_seconds; Extract 1; Close 1;
      BrowserClose ].
Proof. vm_compute. done. Qed.

(** * Further properties of the checker *)

(** ** Row discovery *)

Lemma keep_row_spec row :
  keep_row row = true <->
  exists text,
    row_text_content row = Ok (Some text) /\ text <> []
    /\ Forall (fun header => contains header text = false) header_labels
    /\ found re_price text = true
    /\ (found re_room_name text = true \/ found re_ldk text = true).
Proof.
  unfold keep_row. split.
  - destruct (row_text_content row) as [[text|]|]; try done.
    rewrite !andb_true_iff, negb_true_iff, orb_true_iff.
    intros [[Ht Hh] [Hp Hr]]. exists text. split; [done|].
    split; [by destruct text|]. split; [|done].
    apply Forall_forall. intros h Hin.
    destruct (contains h text) eqn:Hc; [|done].
    assert (existsb (fun header => contains header text) header_labels = true) as Hex.
    { apply existsb_exists. exists h. split; [by apply list_elem_of_In | done]. }
    congruence.
  - intros (text & -> & Hne & Hh & Hp & Hr).
    rewrite !andb_true_iff, negb_true_iff, orb_true_iff.
    split; [split|done]; [by destruct text|].
    destruct (existsb _ header_labels) eqn:Hex; [|done].
    apply existsb_exists in Hex as (h & Hin & Hc).
    rewrite Forall_forall in Hh. apply list_elem_of_In in Hin.
    specialize (Hh h Hin). congruence.
Qed.

Lemma find_room_rows_cases page selectors :
  find_room_rows page selectors = []
  \/ exists before selector after rows,
       selectors = before ++ selector :: after
       /\ query_selector_all page selector = Ok rows
       /\ find_room_rows page selectors = filter (fun row => keep_row row = true) rows
       /\ Forall (fun s => forall rows',
                    query_selector_all page s = Ok rows' ->
                    filter (fun row => keep_row row = true) rows' = []) before.
Proof.
  induction selectors as [|selector rest IH]; [by left|]. simpl.
  destruct (query_selector_all page selector) as [[|r rows]|e] eqn:Hq.
  - destruct IH as [->|(before & s & after & rows' & -> & Hs & -> & Hb)]; [by left|].
    right. exists (selector :: before), s, after, rows'.
    repeat split; try done. constructor; [|done].
    intros rows0. rewrite Hq. by intros [= <-].
  - destruct (filter _ (r :: rows)) as [|r' kept] eqn:Hf.
    + destruct IH as [->|(before & s & after & rows' & -> & Hs & -> & Hb)]; [by left|].
      right. exists (selector :: before), s, after, rows'.
      repeat split; try done. constructor; [|done].
      intros rows0. rewrite Hq. by intros [= <-].
    + right. exists [], selector, rest, (r :: rows). by rewrite Hf.
  - destruct IH as [->|(before & s & after & rows' & -> & Hs & -> & Hb)]; [by left|].
    right. exists (selector :: before), s, after, rows'.
    repeat split; try done. constructor; [|done].
    intros rows0. by rewrite Hq.
Qed.

(** X1: a row that reaches the extraction of units never is a header row:
    its text is present and not empty, holds none of the six header labels,
    and holds a price together with a room name or a layout. *)
Theorem processed_rows_are_no_headers page row :
  row ∈ find_room_rows page room_table_selectors ->
  exists text,
    row_text_content row = Ok (Some text) /\ text <> []
    /\ Forall (fun header => contains header text = false) header_labels
    /\ found re_price text = true
    /\ (found re_room_name text = true \/ found re_ldk text = true).
Proof.
  intros Hin. apply keep_row_spec.
  destruct (find_room_rows_cases page room_table_selectors)
    as [Hnil|(before & s & after & rows & _ & _ & Hf & _)].
  - rewrite Hnil in Hin. by apply elem_of_nil in Hin.
  - rewrite Hf in Hin. by apply list_elem_of_filter in Hin as [? _].
Qed.

Lemma processed_rows_are_no_headers_witness :
  Fixtures.listed_row ∈ find_room_rows Fixtures.listed_page room_table_selectors
  /\ exists text,
       row_text_content Fixtures.listed_row = Ok (Some text) /\ text <> []
       /\ Forall (fun header => contains header text = false) header_labels
       /\ found re_price text = true
       /\ (found re_room_name text = true \/ found re_ldk text = true).
Proof.
  assert (Fixtures.listed_row ∈ find_room_rows Fixtures.listed_page room_table_selectors)
    as Hin by (vm_compute; apply list_elem_of_here).
  split; [exact Hin|].
  exact (processed_rows_are_no_headers Fixtures.listed_page Fixtures.listed_row Hin).
Defined.

(** X2: the rows that are processed all come from one selector, the first
    in the list for which the page yields a row that passes the filter; the
    rows of several selectors are never merged, and nothing is processed only
    when no selector yields such a row. *)
Theorem room_rows_come_from_first_yielding_selector page :
  (find_room_rows page room_table_selectors = []
   /\ Forall (fun s => forall rows,
                query_selector_all page s = Ok rows ->
                filter (fun row => keep_row row = true) rows = [])
             room_table_selectors)
  \/ exists before selector after rows,
       room_table_selectors = before ++ selector :: after
       /\ query_selector_all page selector = Ok rows
       /\ find_room_rows page room_table_selectors
          = filter (fun row => keep_row row = true) rows
       /\ find_room_rows page room_table_selectors <> []
       /\ Forall (fun s => forall rows',
                    query_selector_all page s = Ok rows' ->
                    filter (fun row => keep_row row = true) rows' = []) before.
Proof.
  assert (forall selectors,
    find_room_rows page selectors = [] ->
    Forall (fun s => forall rows,
              query_selector_all page s = Ok rows ->
              filter (fun row => keep_row row = true) rows = []) selectors) as Hnone.
  { induction selectors as [|s rest IH]; [constructor|]. simpl.
    destruct (query_selector_all page s) as [[|r rows]|e] eqn:Hq.
    - intros H. constructor; [|by apply IH].
      intros rows0 Heq. rewrite Hq in Heq. by simplify_eq.
    - destruct (filter _ (r :: rows)) as [|r' kept] eqn:Hf; [|done].
      intros H. constructor; [|by apply IH].
      intros rows0 Heq. rewrite Hq in Heq. by simplify_eq.
    - intros H. constructor; [|by apply IH].
      intros rows0 Heq. rewrite Hq in Heq. done. }
  destruct (find_room_rows page room_table_selectors) as [|r kept] eqn:Hrows.
  - left. split; [done|]. by apply Hnone.
  - right.
    destruct (find_room_rows_cases page room_table_selectors)
      as [Hnil|(before & s & after & rows & Hsel & Hq & Hf & Hb)]; [congruence|].
    exists before, s, after, rows. rewrite <- Hf, Hrows. done.
Qed.

(** ** The units and the fields of a result *)

Lemma type_shape_full c g :
  Matches re_type c (Some g) ->
  exists digits letters,
    g = digits ++ letters /\ digits <> [] /\ letters <> []
    /\ Forall (fun x => digit x = true) digits
    /\ Forall (fun x => one_of (u "SLDK") x = true) letters.
Proof.
  unfold re_type. intros H.
  inversion H as [| | | | | |r w g' H1]; subst; clear H.
  inversion H1 as [| | |r1 r2 w1 w2 g1 g2 H2 H3 Hr Hw Hg| | |]; subst; clear H1.
  inversion H2 as [| |p lo hi w Hall Hlo Hhi| | | |]; subst; clear H2.
  inversion H3 as [| |p lo hi w Hall' Hlo' Hhi'| | | |]; subst; clear H3.
  exists w1, w2. repeat split; try done.
  - intros ->. simpl in Hlo. lia.
  - intros ->. simpl in Hlo'. lia.
Qed.

Lemma or_else_not_empty o : or_else o UNKNOWN <> [].
Proof. by destruct o as [[|c s]|]. Qed.

Lemma row_rooms_at_most_one row : (length (row_rooms row) <= 1)%nat.
Proof. unfold row_rooms. destruct (_ && _); simpl; lia. Qed.

Lemma bind_length_le {A B} (f : A -> list B) (l : list A) :
  (forall x, length (f x) <= 1)%nat -> (length (l ≫= f) <= length l)%nat.
Proof.
  intros Hf. induction l as [|x l IH]; [done|].
  change ((x :: l) ≫= f) with (f x ++ (l ≫= f)).
  rewrite length_app. specialize (Hf x). simpl. lia.
Qed.

(** X3: every unit of an extraction has a layout of the form digits
    followed by letters among S, L, D, K, so never the placeholder, and none
    of its four fields is the empty text; a row yields at most one unit. *)
Theorem units_are_complete page room :
  room ∈ extract_vacant_rooms page ->
  (exists digits letters,
     type room = digits ++ letters /\ digits <> [] /\ letters <> []
     /\ Forall (fun x => digit x = true) digits
     /\ Forall (fun x => one_of (u "SLDK") x = true) letters)
  /\ type room <> UNKNOWN
  /\ rent room <> [] /\ area room <> [] /\ floor room <> []
  /\ (length (extract_vacant_rooms page)
      <= length (find_room_rows page room_table_selectors))%nat.
Proof.
  unfold extract_vacant_rooms.
  intros (row & Hroom & Hrow)%list_elem_of_bind.
  split; [|split; [by eapply row_rooms_type_known|]].
  - pose proof Hroom as (layout & price & Ht & Hne & _ & _ & Htype & _)%row_rooms_guard.
    apply extract_room_type_sound in Ht as [s Hs]; [|done].
    apply group1_sound in Hs as [c Hc]. rewrite Htype. by eapply type_shape_full.
  - pose proof Hroom as (layout & price & _ & _ & _ & Hp & _ & ->)%row_rooms_guard.
    split; [done|].
    unfold row_rooms in Hroom. destruct (_ && _); [|by apply elem_of_nil in Hroom].
    apply list_elem_of_singleton in Hroom as ->. simpl.
    split; [apply or_else_not_empty|]. split; [apply or_else_not_empty|].
    apply bind_length_le, row_rooms_at_most_one.
Qed.

Lemma units_are_complete_witness :
  Fixtures.unit_2ldk_listed ∈ extract_vacant_rooms Fixtures.listed_page
  /\ type Fixtures.unit_2ldk_listed <> UNKNOWN.
Proof.
  assert (Fixtures.unit_2ldk_listed ∈ extract_vacant_rooms Fixtures.listed_page) as Hin
    by (vm_compute; apply list_elem_of_here).
  split; [exact Hin|].
  exact (proj1 (proj2 (units_are_complete Fixtures.listed_page
                         Fixtures.unit_2ldk_listed Hin))).
Defined.

Section Field_facts.

Context (page : Page) (the_url : pystr) (pre : Predefined).

Lemma scraped_cases r :
  (scraped r).2 = SCRAPED /\ (scraped r).1 <> []
  \/ (scraped r).2 = UNKNOWN /\ (scraped r).1 = UNKNOWN.
Proof. destruct r as [[[|c v]|]|e]; simpl; eauto. Qed.

(** The four fields of a successful extraction: given beforehand, all four
    at once, or each read from the page or unknown. *)
Lemma additional_info_cases :
  let info := additional_info page pre in
  (exists t a p m,
     all_predefined pre = Some (t, a, p, m)
     /\ s_transportation info = (t, PREDEFINED) /\ s_address info = (a, PREDEFINED)
     /\ s_phone info = (p, PREDEFINED) /\ s_management_years info = (m, PREDEFINED))
  \/ (all_predefined pre = None
      /\ Forall (fun f => f.2 = SCRAPED /\ f.1 <> [] \/ f.2 = UNKNOWN /\ f.1 = UNKNOWN)
           [s_transportation info; s_address info; s_phone info;
            s_management_years info]).
Proof.
  unfold additional_info.
  destruct (all_predefined pre) as [[[[t a] p] m]|].
  - left. by exists t, a, p, m.
  - right. split; [done|].
    repeat (apply Forall_cons; split; [apply scraped_cases|]). done.
Qed.

Lemma extraction_body_fields r :
  extraction_body page the_url pre = Ok r ->
  let info := additional_info page pre in
  (transportation r, transportation_source r) = s_transportation info
  /\ (address r, address_source r) = s_address info
  /\ (phone_number r, phone_source r) = s_phone info
  /\ (management_years r, management_years_source r) = s_management_years info
  /\ error r = None.
Proof.
  unfold extraction_body, Dom.bind.
  destruct (extract_name page pre) as [name|]; [|done].
  destruct (if given pre && truthy (pre_get pre K_name)
            then Ok name else Dom.title page) as [t|]; [|done].
  intros [= <-]. simpl.
  by destruct (s_transportation _), (s_address _), (s_phone _), (s_management_years _).
Qed.

End Field_facts.

Lemma all_predefined_present (d : gmap pystr pystr) (t a p m : pystr) :
  d !! K_transportation = Some t -> d !! K_address = Some a ->
  d !! K_phone = Some p -> d !! K_management_years = Some m ->
  all_predefined (Some d) = Some (t, a, p, m).
Proof.
  intros Ht Ha Hp Hm. unfold all_predefined, given, pre_get. simpl.
  rewrite bool_decide_eq_false_2; simpl.
  - by rewrite Ht, Ha, Hp, Hm.
  - intros ->. by rewrite lookup_empty in Ht.
Qed.

Lemma check_single_property_predefined (max_retries : Z) (browser : Browser) (id : nat)
    (the_url : pystr) (d : gmap pystr pystr) (t a p m : pystr) :
  d !! K_transportation = Some t -> d !! K_address = Some a ->
  d !! K_phone = Some p -> d !! K_management_years = Some m ->
  let r := (check_single_property max_retries browser id the_url (Some d)).2 in
  (transportation r = t /\ address r = a /\ phone_number r = p /\ management_years r = m)
  /\ (status r = success ->
      transportation_source r = PREDEFINED /\ address_source r = PREDEFINED
      /\ phone_source r = PREDEFINED /\ management_years_source r = PREDEFINED).
Proof.
  intros Ht Ha Hp Hm r.
  destruct (check_single_property_cases max_retries browser id the_url (Some d))
    as [(page & _ & Hr & Hs)|(err & Hr)]; fold r in Hr; try fold r in Hs.
  - destruct (extract_property_info_cases page the_url (Some d)) as [Hb|Hf].
    + rewrite <- Hr in Hb.
      apply extraction_body_fields in Hb as (H1 & H2 & H3 & H4 & _).
      destruct (additional_info_cases page (Some d))
        as [(t' & a' & p' & m' & Hall & E1 & E2 & E3 & E4)|[Hnone _]].
      * rewrite (all_predefined_present d t a p m) in Hall by done.
        injection Hall as <- <- <- <-.
        rewrite E1 in H1. rewrite E2 in H2. rewrite E3 in H3. rewrite E4 in H4.
        by simplify_eq.
      * by rewrite (all_predefined_present d t a p m) in Hnone.
    + rewrite <- Hr in Hf. rewrite Hf in Hs. done.
  - rewrite Hr. split; [|done]. simpl.
    repeat split; by apply pre_get_or_present.
Qed.

(** X4: when the caller gives all four of transportation, address, phone
    and management years, the result of checking the target carries exactly
    these values, whatever the page shows and whether or not it loads; when
    the check succeeds their provenance is 事前定義. *)
Theorem predefined_fields_override (max_retries : Z) (browser : Browser) (id : nat)
    (the_url : pystr) (d : gmap pystr pystr) (t a p m : pystr) :
  d !! K_transportation = Some t -> d !! K_address = Some a ->
  d !! K_phone = Some p -> d !! K_management_years = Some m ->
  let r := (check_single_property max_retries browser id the_url (Some d)).2 in
  (transportation r = t /\ address r = a /\ phone_number r = p /\ management_years r = m)
  /\ (status r = success ->
      transportation_source r = PREDEFINED /\ address_source r = PREDEFINED
      /\ phone_source r = PREDEFINED /\ management_years_source r = PREDEFINED).
Proof. apply check_single_property_predefined. Qed.

Lemma predefined_fields_override_witness :
  Fixtures.predefined_full !! K_transportation = Some (u "西武池袋線 ひばりヶ丘駅")
  /\ phone_number
       (check_single_property 5 (fun _ => Ok Fixtures.listed_page) 0
          Fixtures.URL_A (Some Fixtures.predefined_full)).2
     = u "03-1111-2222".
Proof.
  split; [vm_compute; reflexivity|].
  refine (proj1 (proj2 (proj2 (proj1 (predefined_fields_override 5
    (fun _ => Ok Fixtures.listed_page) 0 Fixtures.URL_A Fixtures.predefined_full
    (u "西武池袋線 ひばりヶ丘駅") (u "東京都西東京市ひばりが丘") (u "03-1111-2222") (u "45年")
    _ _ _ _))))); vm_compute; reflexivity.
Defined.

Lemma additional_info_fields page pre :
  let info := additional_info page pre in
  Forall (fun f => f.2 ∈ [PREDEFINED; SCRAPED; UNKNOWN]
                   /\ (f.2 = UNKNOWN -> f.1 = UNKNOWN)
                   /\ (f.2 = SCRAPED -> f.1 <> []))
    [s_transportation info; s_address info; s_phone info; s_management_years info].
Proof.
  cbv zeta.
  destruct (additional_info_cases page pre)
    as [(t & a & p & m & _ & -> & -> & -> & ->)|[_ Hall]].
  - repeat (apply Forall_cons; split;
            [split; [by apply list_elem_of_here | by split]|]). done.
  - eapply Forall_impl; [exact Hall|]. simpl.
    intros [v tag]. simpl. intros [[-> Hne]|[-> ->]].
    + split; [apply list_elem_of_further, list_elem_of_here | by split].
    + split; [do 2 apply list_elem_of_further; apply list_elem_of_here | by split].
Qed.

Lemma pre_source_tag pre k : pre_source pre k PREDEFINED UNKNOWN ∈ [PREDEFINED; SCRAPED; UNKNOWN].
Proof.
  unfold pre_source. destruct (_ && _).
  - apply list_elem_of_here.
  - do 2 apply list_elem_of_further. apply list_elem_of_here.
Qed.

Lemma check_failed_error the_url pre e1 e2 :
  check_failed the_url pre e1 = check_failed the_url pre e2 -> e2 = e1.
Proof. intros H. apply (f_equal error) in H. by injection H. Qed.

(** X5: the dictionary of the handler of [extract_property_info], with its
    tags 预定义 and 未知, never leaves [check_single_property]: every
    provenance of a returned result is one of 事前定義, ウェブページ抓取 and 不明;
    a result is successful exactly when it has no error, and a failed one
    names one of the two errors of [check_single_property], has an empty title
    and no unit. In a successful result a field of unknown provenance reads
    不明 and a scraped field is never empty. *)
Theorem result_tags_and_errors max_retries browser id the_url pre :
  let r := (check_single_property max_retries browser id the_url pre).2 in
  Forall (fun f => f.2 ∈ [PREDEFINED; SCRAPED; UNKNOWN]
                   /\ (status r = success ->
                       (f.2 = UNKNOWN -> f.1 = UNKNOWN) /\ (f.2 = SCRAPED -> f.1 <> [])))
    [(transportation r, transportation_source r); (address r, address_source r);
     (phone_number r, phone_source r); (management_years r, management_years_source r)]
  /\ (status r = success <-> error r = None)
  /\ (status r = failed ->
      (error r = Some MAX_RETRIES_EXCEEDED \/ error r = Some PAGE_LOAD_FAILED)
      /\ title r = [] /\ vacant_rooms r = [] /\ total_vacant r = 0%Z).
Proof.
  intros r.
  destruct (check_single_property_cases max_retries browser id the_url pre)
    as [(page & Hpage & Hr & Hs)|(err & Hr)]; fold r in Hr; try fold r in Hs.
  - destruct (extract_property_info_cases page the_url pre) as [Hb|Hf];
      [|rewrite <- Hr in Hf; rewrite Hf in Hs; done].
    rewrite <- Hr in Hb.
    apply extraction_body_fields in Hb as (-> & -> & -> & -> & He).
    split; [|split; [by rewrite Hs, He | by rewrite Hs]].
    eapply Forall_impl; [apply additional_info_fields|].
    intros f (Htag & Hu & Hsc). done.
  - assert (err = MAX_RETRIES_EXCEEDED \/ err = PAGE_LOAD_FAILED) as Herr.
    { subst r. unfold check_single_property in Hr.
      destruct (browser id) as [page|];
        [|cbn [snd] in Hr; apply check_failed_error in Hr; by left].
      destruct (navigate _ _ _ _ _) as [t []]; cbn [snd] in Hr.
      - destruct (close page); cbn [snd] in Hr;
          [|apply check_failed_error in Hr; by left].
        case_decide as Hst; [|apply check_failed_error in Hr; by left].
        rewrite Hr in Hst. discriminate Hst.
      - apply check_failed_error in Hr. by right. }
    rewrite Hr. cbn [status error title vacant_rooms total_vacant check_failed].
    split; [|split; [done|]].
    + cbn [transportation transportation_source address address_source phone_number
           phone_source management_years management_years_source].
      repeat (apply Forall_cons; split; [split; [apply pre_source_tag | discriminate]|]).
      done.
    + intros _. split; [|done]. destruct Herr as [-> | ->]; [by left | by right].
Qed.

(** ** Navigation, by the outcomes of the attempts *)

Lemma navigate_until_success max_retries page id k : forall todo a,
  (k < todo)%nat ->
  (Z.of_nat (a + k) < max_retries)%Z ->
  (forall b, (a <= b < a + k)%nat -> exists e, goto page b = Raise e) ->
  goto page (a + k) = Ok () ->
  navigate max_retries page id todo a
  = (backoff_from id a k ++ [Goto id (a + k) true; Sleep delay_seconds], loaded).
Proof.
  induction k as [|k IH]; intros todo a Htodo Hmax Hfail Hok.
  - destruct todo as [|todo]; [lia|]. cbn [navigate].
    rewrite Nat.add_0_r in *. by rewrite Hok.
  - destruct todo as [|todo]; [lia|]. cbn [navigate].
    destruct (Hfail a) as [e ->]; [lia|].
    rewrite (proj2 (Z.ltb_lt _ _)) by lia.
    rewrite (IH todo (S a)); [|lia|lia| |].
    + rewrite backoff_from_S. by replace (S a + k)%nat with (a + S k)%nat by lia.
    + intros b Hb. apply Hfail. lia.
    + by replace (S a + k)%nat with (a + S k)%nat by lia.
Qed.

Lemma navigate_all_fail max_retries page id : forall todo a,
  (S todo + a = Z.to_nat max_retries)%nat ->
  (forall b, (a <= b < a + S todo)%nat -> exists e, goto page b = Raise e) ->
  navigate max_retries page id (S todo) a
  = (backoff_from id a todo ++ [Goto id (a + todo) false], gave_up).
Proof.
  induction todo as [|todo IH]; intros a Hsum Hfail.
  - cbn [navigate]. destruct (Hfail a) as [e ->]; [lia|].
    rewrite (proj2 (Z.ltb_ge _ _)) by lia. by rewrite Nat.add_0_r.
  - remember (S todo) as todo' eqn:Htodo. cbn [navigate]. subst todo'.
    destruct (Hfail a) as [e ->]; [lia|].
    rewrite (proj2 (Z.ltb_lt _ _)) by lia.
    rewrite (IH (S a)); [|lia|intros b Hb; apply Hfail; lia].
    rewrite backoff_from_S. by replace (S a + todo)%nat with (a + S todo)%nat by lia.
Qed.

Lemma backoff_seconds_app t1 t2 :
  backoff_seconds (t1 ++ t2) = backoff_seconds t1 + backoff_seconds t2.
Proof.
  induction t1 as [|e t1 IH]; [done|]. simpl.
  destruct e as [| | [|n] | | |]; rewrite ?IH; lia.
Qed.

Lemma backoff_seconds_backoff id k : forall a,
  backoff_seconds (backoff_from id a k) + 2 ^ N.of_nat a = 2 ^ N.of_nat (a + k).
Proof.
  induction k as [|k IH]; intros a.
  - by rewrite Nat.add_0_r.
  - rewrite backoff_from_S. simpl.
    specialize (IH (S a)).
    replace (N.of_nat (S a + k)) with (N.of_nat (a + S k)) in IH by lia.
    replace (N.of_nat (S a)) with (N.succ (N.of_nat a)) in IH by lia.
    rewrite N.pow_succ_r' in IH. lia.
Qed.

(** X6: when attempt [k] is the first that goes through, within the
    [max_retries] allowed, the target is navigated exactly [k + 1] times, has
    waited [2^k - 1] seconds of backoff in all, and is then settled, extracted
    and closed; no attempt follows the successful one. *)
Theorem navigation_stops_at_first_success max_retries browser id the_url pre page k :
  browser id = Ok page ->
  (k < Z.to_nat max_retries)%nat ->
  (forall b, (b < k)%nat -> exists e, goto page b = Raise e) ->
  goto page k = Ok () ->
  let run := check_single_property max_retries browser id the_url pre in
  (exists closes,
     run.1 = NewPage id true :: backoff id k
               ++ Goto id k true :: Sleep delay_seconds :: Extract id :: closes
     /\ (closes = [Close id] \/ closes = [Close id; Close id]))
  /\ length (filter is_goto run.1) = S k
  /\ backoff_seconds run.1 + 1 = 2 ^ N.of_nat k
  /\ ~ gave_up_loading run.2.
Proof.
  intros Hpage Hk Hfail Hok run. subst run. unfold check_single_property.
  rewrite Hpage.
  rewrite (navigate_until_success max_retries page id k (Z.to_nat max_retries) 0);
    [|done|lia|intros b Hb; apply Hfail; lia|done].
  simpl (0 + k)%nat. fold (backoff id k).
  assert (forall closes,
    length (filter is_goto
      (NewPage id true :: (backoff id k ++ [Goto id k true; Sleep delay_seconds])
         ++ Extract id :: closes)) = (S k + length (filter is_goto closes))%nat
    /\ backoff_seconds
         (NewPage id true :: (backoff id k ++ [Goto id k true; Sleep delay_seconds])
            ++ Extract id :: closes) + 1
       = 2 ^ N.of_nat k + backoff_seconds closes) as Hcount.
  { intros closes. split.
    - rewrite filter_cons_False by (simpl; tauto).
      rewrite !filter_app, !length_app. unfold backoff. rewrite backoff_from_gotos.
      rewrite filter_cons_True by done.
      rewrite !filter_cons_False by (simpl; tauto). rewrite filter_nil. simpl. lia.
    - change (NewPage id true :: ?t) with ([NewPage id true] ++ t).
      rewrite !backoff_seconds_app. simpl.
      pose proof (backoff_seconds_backoff id k 0) as Hb. simpl in Hb.
      unfold backoff. lia. }
  destruct (close page); simpl.
  - destruct (Hcount [Close id]) as [Hg Hb]. simpl in Hg, Hb.
    split; [exists [Close id]; split; [by rewrite <- app_assoc | by left]|].
    split; [rewrite Hg; lia|]. split; [lia|].
    case_decide as Hs.
    + destruct (extract_property_info_cases page the_url pre) as [Hbody|Hf];
        [|rewrite Hf in Hs; done].
      apply extraction_body_fields in Hbody as (_ & _ & _ & _ & He).
      unfold gave_up_loading. by rewrite He.
    + by unfold gave_up_loading.
  - destruct (Hcount [Close id; Close id]) as [Hg Hb]. simpl in Hg, Hb.
    split; [exists [Close id; Close id]; split; [by rewrite <- app_assoc | by right]|].
    split; [rewrite Hg; lia|]. split; [lia|]. by unfold gave_up_loading.
Qed.

Lemma navigation_stops_at_first_success_witness :
  (fun _ : nat => Ok Fixtures.slow_page) 0%nat = Ok Fixtures.slow_page
  /\ backoff_seconds
       (check_single_property 5 (fun _ => Ok Fixtures.slow_page) 0
          Fixtures.URL_A None).1 + 1 = 2 ^ N.of_nat 2.
Proof.
  split; [reflexivity|].
  refine (proj1 (proj2 (proj2 (navigation_stops_at_first_success 5
    (fun _ => Ok Fixtures.slow_page) 0 Fixtures.URL_A None Fixtures.slow_page 2
    eq_refl _ _ eq_refl)))).
  - vm_compute. lia.
  - intros [|[|b]] Hb; [by eexists|by eexists|lia].
Defined.

(** X7: when every one of the [max_retries] attempts fails, the target is
    navigated exactly [max_retries] times, has waited [2^(max_retries-1) - 1]
    seconds of backoff in all (15 seconds for the default of 5), and ends as
    the failure 'ページ読み込み失敗' without any extraction. *)
Theorem navigation_gives_up_after_last_attempt max_retries browser id the_url pre page :
  browser id = Ok page ->
  (0 < max_retries)%Z ->
  (forall b, (b < Z.to_nat max_retries)%nat -> exists e, goto page b = Raise e) ->
  let run := check_single_property max_retries browser id the_url pre in
  let last_attempt := (Z.to_nat max_retries - 1)%nat in
  run = (NewPage id true :: backoff id last_attempt ++ [Goto id last_attempt false],
         check_failed the_url pre PAGE_LOAD_FAILED)
  /\ length (filter is_goto run.1) = Z.to_nat max_retries
  /\ backoff_seconds run.1 + 1 = 2 ^ N.of_nat last_attempt
  /\ Extract id ∉ run.1.
Proof.
  intros Hpage Hpos Hfail run last_attempt.
  assert (run = (NewPage id true :: backoff id last_attempt
                   ++ [Goto id last_attempt false],
                 check_failed the_url pre PAGE_LOAD_FAILED)) as Hrun.
  { subst run. unfold check_single_property. rewrite Hpage.
    replace (Z.to_nat max_retries) with (S last_attempt) by (subst last_attempt; lia).
    rewrite (navigate_all_fail max_retries page id last_attempt 0);
      [done|subst last_attempt; lia|intros b Hb; apply Hfail; subst last_attempt; lia]. }
  rewrite Hrun. split; [done|]. cbn [fst]. split; [|split].
  - rewrite filter_cons_False by (simpl; tauto).
    rewrite filter_app, length_app. unfold backoff. rewrite backoff_from_gotos.
    rewrite filter_cons_True by done. rewrite filter_nil.
    simpl. subst last_attempt. lia.
  - change (NewPage id true :: ?t) with ([NewPage id true] ++ t).
    rewrite !backoff_seconds_app. simpl.
    pose proof (backoff_seconds_backoff id last_attempt 0) as Hb. simpl in Hb.
    unfold backoff. lia.
  - rewrite elem_of_cons, elem_of_app, list_elem_of_singleton.
    intros [?|[(b & _ & [?|?])%elem_of_backoff_from|?]]; done.
Qed.

Lemma navigation_gives_up_after_last_attempt_witness :
  Fixtures.first_unreachable 0%nat = Ok Fixtures.unreachable_page
  /\ backoff_seconds
       (check_single_property 5 Fixtures.first_unreachable 0 Fixtures.URL_A None).1 + 1
     = 2 ^ N.of_nat (Z.to_nat 5 - 1).
Proof.
  split; [reflexivity|].
  refine (proj1 (proj2 (proj2 (navigation_gives_up_after_last_attempt 5
    Fixtures.first_unreachable 0 Fixtures.URL_A None Fixtures.unreachable_page
    eq_refl _ _)))).
  - lia.
  - intros b _. by eexists.
Defined.

(** ** The pages of a run *)

Section Page_facts.

Lemma open_after_app o t1 t2 :
  open_after o (t1 ++ t2) = open_after (open_after o t1) t2.
Proof. apply foldl_app. Qed.

Lemma exclusive_from_app t1 t2 : forall o,
  exclusive_from o (t1 ++ t2)
  <-> exclusive_from o t1 /\ exclusive_from (open_after o t1) t2.
Proof.
  induction t1 as [|e t1 IH]; intros o; simpl; [tauto|].
  rewrite IH. tauto.
Qed.

Lemma navigating_neutral e : navigating e -> neutral e.
Proof. by destruct e as [|? ? ?| | | |]. Qed.

Lemma neutral_open t : forall o, Forall neutral t -> open_after o t = o.
Proof.
  induction t as [|e t IH]; intros o Hn; [done|].
  apply Forall_cons in Hn as [He Ht]. simpl.
  rewrite <- (IH o Ht) at 2. f_equal.
  by destruct e as [? [|]| | | | |].
Qed.

Lemma neutral_exclusive t : forall o,
  Forall neutral t -> (length o <= 1)%nat -> exclusive_from o t.
Proof.
  induction t as [|e t IH]; intros o Hn Ho; [done|].
  apply Forall_cons in Hn as [He Ht]. simpl.
  assert (track o e = o) as -> by by destruct e as [? [|]| | | | |].
  split; [done | by apply IH].
Qed.

Lemma navigate_events max_retries page id : forall todo a,
  Forall navigating (navigate max_retries page id todo a).1.
Proof.
  induction todo as [|todo IH]; intros a; cbn [navigate]; [by constructor|].
  destruct (goto page a); [by repeat constructor|].
  destruct (_ <? _)%Z; [|by repeat constructor].
  specialize (IH (S a)). destruct (navigate _ _ _ todo (S a)) as [t n].
  by repeat constructor.
Qed.

(** The events of one target: its page is made, navigated, and then either
    given up and left open, or extracted and closed. *)
Lemma check_single_property_events max_retries browser id the_url pre :
  let run := check_single_property max_retries browser id the_url pre in
  (run.1 = [NewPage id false] /\ ~ gave_up_loading run.2)
  \/ (exists t, Forall navigating t
        /\ run.1 = NewPage id true :: t /\ gave_up_loading run.2)
  \/ (exists t closes, Forall navigating t
        /\ run.1 = NewPage id true :: t ++ Extract id :: Close id :: closes
        /\ (closes = [] \/ closes = [Close id])
        /\ ~ gave_up_loading run.2).
Proof.
  assert (forall e, e = MAX_RETRIES_EXCEEDED ->
            ~ gave_up_loading (check_failed the_url pre e)) as Hmax.
  { intros e -> H. by vm_compute in H. }
  unfold check_single_property.
  destruct (browser id) as [page|]; [|left; split; [done | by apply Hmax]].
  pose proof (navigate_events max_retries page id (Z.to_nat max_retries) 0) as Hnav.
  destruct (navigate _ _ _ _ _) as [t []]; cbn [fst] in Hnav.
  - right; right. exists t.
    destruct (close page).
    + exists []. split; [done|]. split; [done|]. split; [by left|]. cbn [snd].
      case_decide as Hs; [|by apply Hmax].
      destruct (extract_property_info_cases page the_url pre) as [Hb|Hf];
        [|rewrite Hf in Hs; discriminate Hs].
      apply extraction_body_fields in Hb as (_ & _ & _ & _ & He).
      unfold gave_up_loading. by rewrite He.
    + exists [Close id]. split; [done|]. split; [done|]. split; [by right|].
      by apply Hmax.
  - right; left. exists t. by repeat split.
Qed.

Lemma filter_not_in (o : list nat) id : id ∉ o -> filter (fun x => x <> id) o = o.
Proof.
  intros Hid. induction o as [|x o IH]; [done|].
  apply not_elem_of_cons in Hid as [Hne Hid].
  rewrite filter_cons_True by done. by rewrite IH.
Qed.

(** What one target does to the pages that are open. *)
Lemma check_single_property_pages max_retries browser id the_url pre o :
  id ∉ o ->
  let run := check_single_property max_retries browser id the_url pre in
  (gave_up_loading run.2 /\ open_after o run.1 = id :: o)
  \/ (~ gave_up_loading run.2 /\ open_after o run.1 = o
      /\ (o = [] -> exclusive_from [] run.1)).
Proof.
  intros Hid run.
  destruct (check_single_property_events max_retries browser id the_url pre)
    as [[Ht Hg]|[(t & Hn & Ht & Hg)|(t & closes & Hn & Ht & Hc & Hg)]];
    fold run in Ht, Hg; rewrite Ht.
  - right. split; [done|]. split; [done|]. intros ->. simpl. split; [lia | done].
  - left. split; [done|]. simpl.
    apply neutral_open. eapply Forall_impl; [exact Hn | apply navigating_neutral].
  - right. split; [done|].
    assert (Forall neutral t) as Hn'
      by (eapply Forall_impl; [exact Hn | apply navigating_neutral]).
    assert (forall o', id ∉ o' ->
              open_after (id :: o') (t ++ Extract id :: Close id :: closes) = o') as Hopen.
    { intros o' Ho'. rewrite open_after_app, (neutral_open t) by done. simpl.
      rewrite filter_cons_False by (intros H; by apply H).
      rewrite (filter_not_in o' id Ho').
      destruct Hc as [-> | ->]; simpl; [done | by apply filter_not_in]. }
    split; [by apply Hopen|]. intros ->. simpl. split; [lia|].
    apply exclusive_from_app. split; [apply neutral_exclusive; [done | simpl; lia]|].
    rewrite (neutral_open t) by done. simpl.
    rewrite filter_cons_False by (intros H; by apply H). rewrite filter_nil.
    split; [simpl; lia|]. simpl. split; [lia|].
    destruct Hc as [-> | ->]; simpl; [done | split; [lia | done]].
Qed.

Lemma check_loop_pages max_retries browser total items : forall i made o,
  Forall (fun x => x < made)%nat o ->
  let run := check_loop max_retries browser total i made items in
  length (open_after o run.1) = (length o + length (filter gave_up_loading run.2))%nat
  /\ Forall (fun x => x < made + length run.2)%nat (open_after o run.1)
  /\ (o = [] -> Forall (fun r => ~ gave_up_loading r) run.2 ->
      exclusive_from [] run.1 /\ open_after [] run.1 = []).
Proof.
  induction items as [|item items IH]; intros i made o Ho; cbn [check_loop].
  - simpl. split; [lia|]. split; [|by intros ->].
    eapply Forall_impl; [exact Ho|]. simpl. lia.
  - destruct (negb _); [by apply IH|].
    assert (made ∉ o) as Hmade.
    { intros Hin. rewrite Forall_forall in Ho. specialize (Ho made Hin). lia. }
    pose proof (check_single_property_pages max_retries browser made
                  (item_url item) (item_predefined item) o Hmade) as Hone.
    destruct (check_single_property _ _ _ _ _) as [t r]. cbn [fst snd] in Hone.
    set (pause := if (i <? total)%nat then [Sleep delay_seconds] else []).
    assert (Forall neutral pause) as Hpause
      by (subst pause; destruct (i <? total)%nat; by repeat constructor).
    destruct Hone as [[Hg Hopen]|(Hg & Hopen & Hex)].
    + assert (Forall (fun x => x < S made)%nat (made :: o)) as Ho'.
      { constructor; [lia|]. eapply Forall_impl; [exact Ho|]. simpl. lia. }
      specialize (IH (S i) (S made) (made :: o) Ho').
      destruct (check_loop _ _ _ _ _ items) as [t' rs]. cbn [fst snd] in *.
      destruct IH as (Hlen & Hall & _).
      rewrite !open_after_app, Hopen, (neutral_open pause) by done.
      rewrite filter_cons_True by done. simpl in *.
      split; [lia|]. split.
      * eapply Forall_impl; [exact Hall|]. simpl. lia.
      * intros _ Hnone. apply Forall_cons in Hnone as [Hnone _]. done.
    + assert (Forall (fun x => x < S made)%nat o) as Ho'.
      { eapply Forall_impl; [exact Ho|]. simpl. lia. }
      specialize (IH (S i) (S made) o Ho').
      destruct (check_loop _ _ _ _ _ items) as [t' rs]. cbn [fst snd] in *.
      destruct IH as (Hlen & Hall & Hcalm).
      rewrite !open_after_app, Hopen, (neutral_open pause) by done.
      rewrite filter_cons_False by done.
      split; [lia|]. split.
      * eapply Forall_impl; [exact Hall|]. simpl. lia.
      * intros -> Hnone. apply Forall_cons in Hnone as [_ Hnone].
        destruct (Hcalm eq_refl Hnone) as [Hex' Hend].
        split; [|by rewrite Hopen, (neutral_open pause)].
        apply exclusive_from_app. split; [by apply Hex|]. rewrite Hopen.
        apply exclusive_from_app. split; [apply neutral_exclusive; [done|simpl; lia]|].
        by rewrite (neutral_open pause).
Qed.

End Page_facts.

Lemma check_properties_events max_retries browser url_data :
  check_properties max_retries browser url_data
  = ((check_loop max_retries browser (length url_data) 1 0 url_data).1 ++ [BrowserClose],
     (check_loop max_retries browser (length url_data) 1 0 url_data).2).
Proof. unfold check_properties. by destruct (check_loop _ _ _ _ _ _). Qed.

(** X8: when no target of a run ends with the failure to load its page,
    at no moment of the run are two pages open, and none is open when the
    browser is closed: each page is closed before the next one is made. *)
Theorem pages_never_overlap max_retries browser url_data :
  let run := check_properties max_retries browser url_data in
  Forall (fun r => ~ gave_up_loading r) run.2 ->
  exclusive_from [] run.1 /\ open_after [] run.1 = [].
Proof.
  intros run Hnone. subst run. rewrite check_properties_events in *. cbn [fst snd] in *.
  destruct (check_loop_pages max_retries browser (length url_data) url_data 1 0 [])
    as (_ & _ & Hcalm); [done|].
  destruct (Hcalm eq_refl Hnone) as [Hex Hend].
  rewrite open_after_app, Hend. split; [|done].
  apply exclusive_from_app. split; [done|]. rewrite Hend. simpl. split; [lia | done].
Qed.

Lemma pages_never_overlap_witness :
  Forall (fun r => ~ gave_up_loading r)
    (check_properties 5 (fun _ => Ok Fixtures.slow_page)
       [ItemDict {[ K_url := Fixtures.URL_A ]}; ItemPair Fixtures.URL_B []]).2
  /\ open_after []
       (check_properties 5 (fun _ => Ok Fixtures.slow_page)
          [ItemDict {[ K_url := Fixtures.URL_A ]}; ItemPair Fixtures.URL_B []]).1 = [].
Proof.
  assert (Forall (fun r => ~ gave_up_loading r)
    (check_properties 5 (fun _ => Ok Fixtures.slow_page)
       [ItemDict {[ K_url := Fixtures.URL_A ]}; ItemPair Fixtures.URL_B []]).2) as Hnone.
  { vm_compute. repeat constructor; intros [=]. }
  split; [exact Hnone|].
  exact (proj2 (pages_never_overlap 5 (fun _ => Ok Fixtures.slow_page)
    [ItemDict {[ K_url := Fixtures.URL_A ]}; ItemPair Fixtures.URL_B []] Hnone)).
Defined.

(** X9: the pages still open when the browser is closed are as many as
    the results 'ページ読み込み失敗': every target whose last attempt fails
    leaves its page open for the rest of the run, and no other target does. *)
Theorem pages_left_open max_retries browser url_data :
  let run := check_properties max_retries browser url_data in
  length (open_after [] run.1) = length (filter gave_up_loading run.2).
Proof.
  intros run. subst run. rewrite check_properties_events. cbn [fst snd].
  destruct (check_loop_pages max_retries browser (length url_data) url_data 1 0 [])
    as (Hlen & _ & _); [done|].
  rewrite open_after_app. simpl in *. exact Hlen.
Qed.

Section Request_facts.

Lemma new_page_ids_app t1 t2 :
  new_page_ids (t1 ++ t2) = new_page_ids t1 ++ new_page_ids t2.
Proof. apply omap_app. Qed.

Lemma navigating_requests t :
  Forall navigating t -> new_page_ids t = [] /\ BrowserClose ∉ t.
Proof.
  induction 1 as [|e t He _ [IH1 IH2]]; [split; [done | apply not_elem_of_nil]|].
  split.
  - destruct e; try done; exact IH1.
  - apply not_elem_of_cons. split; [by destruct e | done].
Qed.

Lemma check_single_property_requests max_retries browser id the_url pre :
  let run := check_single_property max_retries browser id the_url pre in
  new_page_ids run.1 = [id] /\ BrowserClose ∉ run.1.
Proof.
  intros run.
  destruct (check_single_property_events max_retries browser id the_url pre)
    as [[Ht _]|[(t & Hn & Ht & _)|(t & closes & Hn & Ht & Hc & _)]];
    fold run in Ht; rewrite Ht.
  - split; [done | intros Hin; not_listed Hin].
  - apply navigating_requests in Hn as [Hi Hb].
    split; [simpl; fold (new_page_ids t); by rewrite Hi|].
    apply not_elem_of_cons. by split.
  - apply navigating_requests in Hn as [Hi Hb].
    split.
    + change (new_page_ids (NewPage id true :: t ++ Extract id :: Close id :: closes))
        with (id :: new_page_ids (t ++ Extract id :: Close id :: closes)).
      rewrite new_page_ids_app, Hi. by destruct Hc as [-> | ->].
    + apply not_elem_of_cons. split; [done|].
      rewrite elem_of_app. intros [?|Hin]; [done|].
      destruct Hc as [-> | ->]; not_listed Hin.
Qed.

Lemma check_loop_requests max_retries browser total items : forall i made,
  let run := check_loop max_retries browser total i made items in
  new_page_ids run.1 = seq made (length run.2) /\ BrowserClose ∉ run.1.
Proof.
  induction items as [|item items IH]; intros i made; cbn [check_loop].
  - split; [done | apply not_elem_of_nil].
  - destruct (negb _); [by apply IH|].
    pose proof (check_single_property_requests max_retries browser made
                  (item_url item) (item_predefined item)) as [Hi Hb].
    destruct (check_single_property _ _ _ _ _) as [t r]. cbn [fst snd] in Hi, Hb.
    specialize (IH (S i) (S made)).
    destruct (check_loop _ _ _ _ _ items) as [t' rs]. cbn [fst snd] in *.
    destruct IH as [Hi' Hb'].
    split.
    + rewrite !new_page_ids_app, Hi, Hi'. by destruct (i <? total)%nat.
    + rewrite !elem_of_app. intros [?|[Hin|?]]; [done| |done].
      destruct (i <? total)%nat; not_listed Hin.
Qed.

End Request_facts.

(** X10: a run asks the browser for exactly one page per result it
    returns, numbered in the order of the results, and closes the browser
    once, as its last step, whatever the pages did. *)
Theorem one_page_per_result_and_browser_closed max_retries browser url_data :
  let run := check_properties max_retries browser url_data in
  exists t, run.1 = t ++ [BrowserClose]
    /\ (BrowserClose ∉ t)
    /\ new_page_ids t = seq 0 (length run.2).
Proof.
  intros run. subst run. rewrite check_properties_events. cbn [fst snd].
  eexists. split; [done|].
  destruct (check_loop_requests max_retries browser (length url_data) url_data 1 0)
    as [Hi Hb].
  by split.
Qed.

(** ** The entries of a comparison *)

Section Entry_facts.

Lemma dict_set_keys {V} (d : list (pystr * V)) k v :
  dict_keys (dict_set k v d)
  = if bool_decide (k ∈ dict_keys d) then dict_keys d else dict_keys d ++ [k].
Proof.
  unfold dict_keys. induction d as [|[k0 v0] d IH]; [done|]. cbn [dict_set].
  destruct (decide (k0 = k)) as [->|Hne].
  - cbn [fmap list_fmap fst]. rewrite bool_decide_eq_true_2; [done | apply list_elem_of_here].
  - cbn [fmap list_fmap fst]. fold (fmap (M:=list) (@fst pystr V)). rewrite IH.
    case_bool_decide as Hin.
    + rewrite bool_decide_eq_true_2; [done | by apply list_elem_of_further].
    + rewrite bool_decide_eq_false_2; [done|].
      intros [?|?]%elem_of_cons; [congruence | done].
Qed.

Lemma vacant_properties_keys results : forall acc,
  NoDup (dict_keys acc) ->
  NoDup (dict_keys (vacant_properties results acc))
  /\ (length (vacant_properties results acc) <= length acc + length results)%nat.
Proof.
  induction results as [|r results IH]; intros acc Hacc; cbn [vacant_properties].
  - split; [done | simpl; lia].
  - destruct (_ && _).
    + destruct (IH (dict_set (url r)
                      {| v_property_name := property_name r;
                         v_total_vacant := total_vacant r;
                         v_vacant_rooms := vacant_rooms r |} acc)) as [Hnd Hlen].
      * rewrite dict_set_keys. case_bool_decide as Hin; [done|].
        apply NoDup_app. split; [done|]. split; [|apply NoDup_singleton].
        intros k Hk ->%list_elem_of_singleton. done.
      * split; [done|].
        assert (length (dict_set (url r)
                      {| v_property_name := property_name r;
                         v_total_vacant := total_vacant r;
                         v_vacant_rooms := vacant_rooms r |} acc) <= S (length acc))%nat.
        { rewrite <- !(length_fmap fst). fold (dict_keys acc).
          change (fst <$> dict_set ?k ?v ?d) with (dict_keys (dict_set k v d)).
          rewrite dict_set_keys. case_bool_decide; [lia|].
          rewrite length_app. simpl. lia. }
        simpl. lia.
    + destruct (IH acc Hacc) as [Hnd Hlen]. split; [done | simpl; lia].
Qed.

Context (current previous : list (pystr * Vacancy)).

Lemma collect_urls urls :
  Forall (fun k => is_Some (dict_get k current)) urls ->
  n_url <$> collect current previous urls = urls.
Proof.
  induction 1 as [|k urls [c Hc] _ IH]; [done|].
  unfold collect in *. cbn [mbind list_bind]. rewrite Hc.
  cbn [app fmap list_fmap n_url]. by f_equal.
Qed.

Lemma flagged_urls_present :
  Forall (fun k => is_Some (dict_get k current))
    (new_vacant_urls current previous ++ increased_vacant_urls current previous).
Proof.
  apply Forall_forall. intros k [Hk|Hk]%elem_of_app.
  - by apply new_vacant_urls_spec in Hk as [? _].
  - apply increased_vacant_urls_spec in Hk as (c & p & Hc & _). eauto.
Qed.

Lemma flagged_urls_distinct :
  NoDup (dict_keys current) ->
  NoDup (new_vacant_urls current previous ++ increased_vacant_urls current previous).
Proof.
  intros Hnd. apply NoDup_app. split; [by apply NoDup_filter|].
  split; [|by apply NoDup_filter].
  intros k [_ Hn]%new_vacant_urls_spec (c & p & _ & Hp & _)%increased_vacant_urls_spec.
  congruence.
Qed.

End Entry_facts.

(** X11: a comparison reports no url twice, even when the batch checked
    it more than once: the urls of the entries are the newly vacant urls, in
    the order in which the set of them is listed, followed by the urls whose
    count grew, in the order of the batch. The counts of the summary add up:
    the total is the number of entries, the sum of the two partial counts, and
    at most the number of vacant urls of the batch, which is at most the
    number of its results. *)
Theorem comparison_reports_each_url_once current_results previous_results file :
  let d := compare_results current_results file (Ok previous_results) in
  let current := vacancies current_results in
  let previous := vacancies previous_results in
  NoDup (n_url <$> new_properties d)
  /\ (exists news,
        news ≡ₚ new_vacant_urls current previous
        /\ n_url <$> new_properties d = news ++ increased_vacant_urls current previous)
  /\ (forall k, k ∈ n_url <$> new_properties d
                <-> k ∈ new_vacant_urls current previous
                    \/ k ∈ increased_vacant_urls current previous)
  /\ exists p c n g,
       comparison_summary d = Counts p c n g (n + g)
       /\ length (new_properties d) = (n + g)%nat
       /\ (n + g <= c)%nat
       /\ (c <= length current_results)%nat
       /\ (p <= length previous_results)%nat.
Proof.
  intros d current previous. subst d.
  cbn [compare_results new_properties comparison_summary].
  fold (vacancies current_results). fold (vacancies previous_results).
  fold current. fold previous.
  destruct (vacant_properties_keys current_results []) as [Hnd Hc]; [constructor|].
  destruct (vacant_properties_keys previous_results []) as [_ Hp]; [constructor|].
  fold (vacancies current_results) in Hnd, Hc. fold current in Hnd, Hc.
  fold (vacancies previous_results) in Hp. fold previous in Hp.
  pose proof (collect_urls current previous _ (flagged_urls_present current previous)) as Hurls.
  pose proof (flagged_urls_distinct current previous Hnd) as Hdist.
  split; [by rewrite Hurls|].
  split; [exists (new_vacant_urls current previous); by split|].
  split; [intros k; rewrite Hurls; apply elem_of_app|].
  exists (length previous), (length current),
    (length (new_vacant_urls current previous)),
    (length (increased_vacant_urls current previous)).
  assert (length (collect current previous
            (new_vacant_urls current previous ++ increased_vacant_urls current previous))
          = (length (new_vacant_urls current previous)
             + length (increased_vacant_urls current previous))%nat) as Hlen.
  { rewrite <- (length_fmap n_url), Hurls. apply length_app. }
  split; [by rewrite Hlen|]. split; [exact Hlen|].
  split; [|split; [simpl in Hc; lia | simpl in Hp; lia]].
  rewrite <- length_app, <- (length_fmap fst current).
  apply submseteq_length, NoDup_submseteq; [done|].
  intros k [Hk|Hk]%elem_of_app;
    [apply list_elem_of_filter in Hk as [_ Hk] | apply list_elem_of_filter in Hk as [_ Hk]];
    exact Hk.
Qed.

(** X12: every entry of a comparison takes its name, count and units from
    one result of the batch: the last one among the results for its url that
    succeeded with a positive count. *)
Theorem comparison_entry_origin current_results previous_results file e :
  e ∈ new_properties (compare_results current_results file (Ok previous_results)) ->
  exists r, last (filter (vacant_at (n_url e)) current_results) = Some r
    /\ r ∈ current_results
    /\ url r = n_url e /\ status r = success /\ (0 < total_vacant r)%Z
    /\ n_property_name e = property_name r
    /\ n_total_vacant e = total_vacant r
    /\ n_vacant_rooms e = vacant_rooms r.
Proof.
  cbn [compare_results new_properties]. intros He.
  apply collect_spec in He as (k & c & _ & Hc & ->). cbn [n_url n_property_name
    n_total_vacant n_vacant_rooms].
  rewrite vacant_properties_lookup in Hc.
  destruct (last (filter (vacant_at k) current_results)) as [r|] eqn:Hl; [|done].
  injection Hc as <-. exists r. split; [done|].
  apply last_Some in Hl as [l' Hl].
  assert (r ∈ filter (vacant_at k) current_results) as Hin.
  { rewrite Hl. apply elem_of_app. right. apply list_elem_of_here. }
  apply list_elem_of_filter in Hin as [(Hu & Hs & Ht) Hin]. done.
Qed.

Lemma comparison_entry_origin_witness :
  exists e,
    e ∈ new_properties (compare_results Fixtures.current_results Fixtures.snapshot_file
                          (Ok Fixtures.prior_results))
    /\ n_url e = Fixtures.URL_B
    /\ exists r, last (filter (vacant_at (n_url e)) Fixtures.current_results) = Some r
         /\ n_total_vacant e = total_vacant r.
Proof.
  exists {| n_url := Fixtures.URL_B; n_property_name := Some (u "UR");
            n_total_vacant := 3; n_vacant_rooms := replicate 3 Fixtures.unit_2ldk;
            change_type := increased |}.
  assert ({| n_url := Fixtures.URL_B; n_property_name := Some (u "UR");
            n_total_vacant := 3; n_vacant_rooms := replicate 3 Fixtures.unit_2ldk;
            change_type := increased |}
          ∈ new_properties (compare_results Fixtures.current_results Fixtures.snapshot_file
                              (Ok Fixtures.prior_results))) as Hin.
  { vm_compute. apply list_elem_of_further, list_elem_of_here. }
  split; [exact Hin|]. split; [done|].
  destruct (comparison_entry_origin _ _ _ _ Hin) as (r & Hl & _ & _ & _ & _ & _ & Ht & _).
  exists r. by split.
Defined.

(** ** Saving, and deciding afterwards *)

Section Exact_match_facts.

Lemma ways_lit l s : ways (Lit l) (l ++ s) = [(l, None, s)].
Proof.
  cbn [ways]. rewrite (proj2 (is_prefix_spec l (l ++ s))) by eauto.
  by rewrite drop_app_length.
Qed.

Lemma run_exact p w s :
  Forall (fun c => p c = true) w -> run p (Some (length w)) (w ++ s) = length w.
Proof.
  induction 1 as [|c w Hc _ IH]; [by destruct s|].
  simpl. rewrite Hc. by f_equal.
Qed.

Lemma ways_rep_exact p n w s :
  Forall (fun c => p c = true) w -> length w = n ->
  ways (Rep p n (Some n)) (w ++ s) = [(w, None, s)].
Proof.
  intros Hw <-. cbn [ways]. rewrite run_exact by done.
  replace (S (length w) - length w)%nat with 1%nat by lia.
  cbn [seq]. change (reverse [length w]) with [length w]. cbn [fmap list_fmap].
  by rewrite take_app_length, drop_app_length.
Qed.

Lemma ways_cat_single r1 r2 s c1 g1 s1 c2 g2 s2 :
  ways r1 s = [(c1, g1, s1)] -> ways r2 s1 = [(c2, g2, s2)] ->
  ways (Cat r1 r2) s = [(c1 ++ c2, later_group g1 g2, s2)].
Proof. intros H1 H2. cbn [ways]. rewrite H1. simpl. by rewrite H2. Qed.

Lemma ways_grp_single r s c g s1 :
  ways r s = [(c, g, s1)] -> ways (Grp r) s = [(c, Some c, s1)].
Proof. intros H. cbn [ways]. by rewrite H. Qed.

Lemma search_head r s w ws :
  ways r s = w :: ws -> search r s = Some (w.1.1, w.1.2).
Proof. intros H. destruct s; simpl; by rewrite H. Qed.

Lemma forallb_class (p : N -> bool) (w : pystr) :
  forallb p w = true -> Forall (fun c => p c = true) w.
Proof.
  induction w as [|c w IH]; [constructor|]. simpl.
  intros [Hc Hw]%andb_true_iff. constructor; [done | by apply IH].
Qed.

Lemma is_stamp_spec s :
  is_stamp s = true ->
  exists w1 w2, s = w1 ++ u "_" ++ w2
    /\ Forall (fun c => digit c = true) w1 /\ length w1 = 8%nat
    /\ Forall (fun c => digit c = true) w2 /\ length w2 = 6%nat.
Proof.
  unfold is_stamp. rewrite !andb_true_iff, !bool_decide_eq_true.
  intros [[[Hl H1] Hu] H2].
  exists (take 8 s), (drop 9 s). rewrite <- Hu.
  split.
  { rewrite <- (take_drop 9 s) at 1. rewrite <- (take_drop 8 (take 9 s)) at 1.
    rewrite take_take. by rewrite <- app_assoc. }
  split; [by apply forallb_class|].
  split; [rewrite length_take; lia|].
  split; [by apply forallb_class|].
  rewrite length_drop. lia.
Qed.

(** The timestamp of the name that [save_results] computes is the stamp
    of the clock. *)
Lemma extract_timestamp_saved dir clock :
  is_stamp (stamp clock) = true ->
  extract_timestamp (join dir (saved_name clock)) = stamp clock.
Proof.
  intros (w1 & w2 & Hs & Hd1 & Hl1 & Hd2 & Hl2)%is_stamp_spec.
  unfold extract_timestamp, saved_name, basename, join, group1. cbn [snd].
  rewrite Hs.
  assert (ways re_timestamp (RESULTS_PREFIX ++ (w1 ++ u "_" ++ w2) ++ JSON_SUFFIX)
          = [(RESULTS_PREFIX ++ (w1 ++ u "_" ++ w2) ++ JSON_SUFFIX,
              Some (w1 ++ u "_" ++ w2), [])]) as Hw;
    [|by rewrite (search_head _ _ _ _ Hw)].
  unfold re_timestamp.
  eapply (ways_cat_single _ _ _ _ None _ _ (Some (w1 ++ u "_" ++ w2)));
    [apply ways_lit|].
  eapply (ways_cat_single _ _ _ _ (Some (w1 ++ u "_" ++ w2)) _ _ None);
    [|rewrite <- (app_nil_r JSON_SUFFIX); apply ways_lit].
  apply ways_grp_single with (g := None).
  rewrite <- !app_assoc.
  eapply (ways_cat_single _ _ _ _ None _ _ None); [by apply ways_rep_exact|].
  eapply (ways_cat_single _ _ _ _ None _ _ None); [apply ways_lit|].
  by apply ways_rep_exact.
Qed.

Lemma filter_none {A} (P : A -> Prop) `{forall x, Decision (P x)} (l : list A) :
  Forall (fun x => ~ P x) l -> filter P l = [].
Proof.
  induction 1 as [|x l Hx _ IH]; [done|]. by rewrite filter_cons_False.
Qed.

(** A batch compared with itself shows nothing new. *)
Lemma compare_with_itself results file :
  new_properties (compare_results results file (Ok results)) = []
  /\ has_new_properties (compare_results results file (Ok results)) = false.
Proof.
  cbn [compare_results new_properties has_new_properties].
  set (current := vacant_properties results []).
  assert (new_vacant_urls current current = []) as ->.
  { apply filter_none, Forall_forall. intros k Hk.
    apply dict_keys_get in Hk. rewrite dict_has_false. intros Hn.
    rewrite Hn in Hk. by destruct Hk. }
  assert (increased_vacant_urls current current = []) as ->.
  { apply filter_none, Forall_forall. intros k _. unfold grew.
    destruct (dict_get k current); [|done]. rewrite Z.ltb_irrefl. done. }
  done.
Qed.

End Exact_match_facts.

Section Save_facts.

Context (clock : Clock) (results : list PropertyResult).

Lemma save_results_default_json fs :
  save_results clock results (u "json") None fs
  = {| dirs := {[ (computed_path fs clock (u "json")).1 ]} ∪ dirs fs;
       files := <[ computed_path fs clock (u "json")
                   := JsonSnapshot (iso clock) (length results) (sum_vacant results) results ]>
                (files fs) |}.
Proof.
  unfold save_results. rewrite decide_True by done. unfold write_file, makedirs.
  cbn [dirs files]. rewrite bool_decide_eq_true_2 by set_solver. done.
Qed.

Lemma computed_path_without_app fs :
  APP ∉ dirs fs -> computed_path fs clock (u "json") = join RESULTS (saved_name clock).
Proof.
  intros Happ. unfold computed_path. by rewrite bool_decide_eq_false_2.
Qed.

End Save_facts.

Section Save_cases.

Context (clock : Clock) (results : list PropertyResult).

Lemma rows_until_error_spec rs :
  exists rest,
    rs = rows_until_error rs ++ rest
    /\ Forall (fun r => error r = None) (rows_until_error rs)
    /\ (rest = [] \/ exists r rest', rest = r :: rest' /\ is_Some (error r)).
Proof.
  induction rs as [|r rs (rest & Hrs & Hall & Hrest)].
  - exists []. split; [done|]. split; [constructor | by left].
  - cbn [rows_until_error]. destruct (error r) as [e|] eqn:He.
    + exists (r :: rs). split; [done|]. split; [constructor|].
      right. exists r, rs. split; [done|]. rewrite He. eauto.
    + exists rest. split; [cbn [app]; by f_equal|]. split; [by constructor | done].
Qed.

(** The rows of the csv file: all of them, or those before the first
    result with an error when the first result has none. *)
Lemma csv_written_spec :
  exists rest,
    results = csv_written results ++ rest
    /\ (rest = []
        \/ exists first r rest',
             head results = Some first /\ error first = None
             /\ rest = r :: rest' /\ is_Some (error r)
             /\ Forall (fun r => error r = None) (csv_written results)).
Proof.
  unfold csv_written. destruct results as [|first rs] eqn:Hres.
  - exists []. split; [done | by left].
  - destruct (error first) as [e|] eqn:He.
    + exists []. split; [by rewrite app_nil_r | by left].
    + destruct (rows_until_error_spec (first :: rs)) as (rest & Hrs & Hall & Hrest).
      exists rest. split; [exact Hrs|].
      destruct Hrest as [->|(r & rest' & -> & Hr)]; [by left|].
      right. exists first, r, rest'. done.
Qed.

(** [save_results] by its target and by the file system the write starts
    from. *)
Lemma save_results_cases output_format output_path fs :
  let target := target_path clock output_format output_path fs in
  let base := if decide (path_given output_path) then fs else makedirs target.1 fs in
  save_results clock results output_format output_path fs
  = catch
      (if decide (output_format = u "json") then
         write_file target
           (JsonSnapshot (iso clock) (length results) (sum_vacant results) results) base
       else if decide (output_format = u "csv") then
         write_file target (CsvTable (csv_written results)) base
       else if decide (output_format = u "txt") then
         write_file target (TextReport results) base
       else Ok base)
      (fun _ => base).
Proof.
  unfold target_path, save_results.
  destruct (decide (path_given output_path)) as [(p & -> & Hne)|Hg].
  - by rewrite bool_decide_eq_false_2.
  - destruct output_path as [p|]; [|done].
    rewrite bool_decide_eq_true_2; [done|].
    destruct (decide (p = ([], []))) as [Hp|Hp]; [done|].
    exfalso. apply Hg. by exists p.
Qed.

Lemma write_or_keep (target : Path) (c : Content) (base : FS) :
  let fs' := catch (write_file target c base) (fun _ => base) in
  dirs fs' = dirs base
  /\ (forall other, other <> target -> files fs' !! other = files base !! other)
  /\ (target.1 ∈ dirs base -> files fs' !! target = Some c)
  /\ (target.1 ∉ dirs base -> fs' = base).
Proof.
  unfold write_file. case_bool_decide as Hdir; cbn [catch dirs files].
  - split; [done|]. split; [intros other Hne; by apply lookup_insert_ne|].
    split; [intros _; apply lookup_insert_eq | done].
  - done.
Qed.

End Save_cases.

(** X13: a save changes at most the file at its target path, which is
    the path given or, when none or the empty one is given, the computed one:
    every other file and every directory stays, and the only directory it may
    add is the computed one. When the directory of a given path is missing,
    the failure is swallowed and the file system is left as it was; with a
    format other than json, csv and txt no file is written, although the
    computed directory is still made. Otherwise the target holds the view of
    the results that the format names; for csv these are the rows written
    before the writer fails: all of them, or, when the first result has no
    error, those before the first result that has one. *)
Theorem save_results_touches_one_path clock results output_format output_path fs :
  let target := target_path clock output_format output_path fs in
  let fs' := save_results clock results output_format output_path fs in
  (forall other, other <> target -> files fs' !! other = files fs !! other)
  /\ dirs fs ⊆ dirs fs'
  /\ (forall d, d ∈ dirs fs' ->
        d ∈ dirs fs \/ (~ path_given output_path /\ d = target.1))
  /\ (target.1 ∉ dirs fs' -> fs' = fs)
  /\ (~ supported output_format -> files fs' = files fs)
  /\ (target.1 ∈ dirs fs' ->
      (output_format = u "json" ->
       files fs' !! target
       = Some (JsonSnapshot (iso clock) (length results) (sum_vacant results) results))
      /\ (output_format = u "csv" ->
          files fs' !! target = Some (CsvTable (csv_written results)))
      /\ (output_format = u "txt" -> files fs' !! target = Some (TextReport results)))
  /\ (exists rest,
        results = csv_written results ++ rest
        /\ (rest = []
            \/ exists first r rest',
                 head results = Some first /\ error first = None
                 /\ rest = r :: rest' /\ is_Some (error r)
                 /\ Forall (fun r => error r = None) (csv_written results))).
Proof.
  intros target fs'. subst fs'. rewrite save_results_cases. fold target.
  set (base := if decide (path_given output_path) then fs else makedirs target.1 fs).
  assert (files base = files fs) as Hfiles by (subst base; by case_decide).
  assert (dirs fs ⊆ dirs base) as Hsub.
  { subst base. case_decide; [done|]. unfold makedirs. cbn [dirs].
    apply union_subseteq_r. }
  assert (forall d, d ∈ dirs base ->
            d ∈ dirs fs \/ (~ path_given output_path /\ d = target.1)) as Hadd.
  { subst base. case_decide as Hg; [by left|]. unfold makedirs. cbn [dirs].
    intros d [->%elem_of_singleton|Hin]%elem_of_union; [by right | by left]. }
  assert (target.1 ∉ dirs base -> base = fs) as Hmiss.
  { subst base. case_decide as Hg; [done|]. unfold makedirs. cbn [dirs].
    intros Hn. exfalso. apply Hn, elem_of_union. left. by apply elem_of_singleton. }
  assert (u "json" <> u "csv") as Hjc by (by vm_compute).
  assert (u "json" <> u "txt") as Hjt by (by vm_compute).
  assert (u "csv" <> u "txt") as Hct by (by vm_compute).
  assert (forall c : Content,
            let fs' := catch (write_file target c base) (fun _ => base) in
            (forall other, other <> target -> files fs' !! other = files fs !! other)
            /\ dirs fs ⊆ dirs fs'
            /\ (forall d, d ∈ dirs fs' ->
                  d ∈ dirs fs \/ (~ path_given output_path /\ d = target.1))
            /\ (target.1 ∉ dirs fs' -> fs' = fs)
            /\ (target.1 ∈ dirs fs' -> files fs' !! target = Some c)) as Hwrite.
  { intros c. destruct (write_or_keep target c base) as (Hd & Ho & Hin & Hout).
    cbv zeta. rewrite Hd.
    split; [intros other Hne; by rewrite Ho, Hfiles|]. split; [done|].
    split; [done|]. split; [|done].
    intros Hn. rewrite Hout by done. by apply Hmiss. }
  destruct (decide (output_format = u "json")) as [->|Hj];
    [|destruct (decide (output_format = u "csv")) as [->|Hc];
      [|destruct (decide (output_format = u "txt")) as [->|Ht]]].
  - destruct (Hwrite (JsonSnapshot (iso clock) (length results)
                        (sum_vacant results) results)) as (H1 & H2 & H3 & H4 & H5).
    split; [exact H1|]. split; [exact H2|]. split; [exact H3|]. split; [exact H4|].
    split; [intros Hn; exfalso; apply Hn; by left|].
    split; [|apply csv_written_spec].
    intros Hin. split; [intros _; by apply H5|]. split; intros Heq; congruence.
  - destruct (Hwrite (CsvTable (csv_written results))) as (H1 & H2 & H3 & H4 & H5).
    split; [exact H1|]. split; [exact H2|]. split; [exact H3|]. split; [exact H4|].
    split; [intros Hn; exfalso; apply Hn; right; by left|].
    split; [|apply csv_written_spec].
    intros Hin. split; [intros Heq; congruence|].
    split; [intros _; by apply H5 | intros Heq; congruence].
  - destruct (Hwrite (TextReport results)) as (H1 & H2 & H3 & H4 & H5).
    split; [exact H1|]. split; [exact H2|]. split; [exact H3|]. split; [exact H4|].
    split; [intros Hn; exfalso; apply Hn; right; by right|].
    split; [|apply csv_written_spec].
    intros Hin. split; [intros Heq; congruence|].
    split; [intros Heq; congruence | intros _; by apply H5].
  - cbn [catch].
    split; [intros other _; by rewrite Hfiles|]. split; [exact Hsub|].
    split; [exact Hadd|]. split; [exact Hmiss|]. split; [done|].
    split; [|apply csv_written_spec].
    intros _. repeat split; intros Heq; congruence.
Qed.

(** A batch whose second target failed, saved as csv: the columns are
    those of the first result, the failed one brings the column [error], and
    the file keeps the first row only. An empty path is no path. *)
Example csv_is_cut_at_the_first_failed_result :
  files (save_results Fixtures.clock
           [Fixtures.vacant Fixtures.URL_A 1;
            check_failed Fixtures.URL_B None PAGE_LOAD_FAILED;
            Fixtures.vacant Fixtures.URL_C 1]
           (u "csv") (Some (join RESULTS (u "out.csv"))) Fixtures.disk)
    !! join RESULTS (u "out.csv")
  = Some (CsvTable [Fixtures.vacant Fixtures.URL_A 1])
  /\ save_results Fixtures.clock [] (u "json") (Some ([], [])) Fixtures.disk
     = save_results Fixtures.clock [] (u "json") None Fixtures.disk.
Proof. split; [by vm_compute | reflexivity]. Qed.

(** X14: the end of [main] with its default options, in a working
    directory without [/app]: the snapshot is saved first and the decision is
    taken afterwards. When the stamp of the clock is later than the timestamp
    of every other snapshot name in the directory, the lookup returns the
    snapshot just written, the batch is compared with itself, and the decision
    is never a first run and never asks for mail. *)
Theorem default_run_is_compared_with_itself clock results fs names :
  APP ∉ dirs fs ->
  is_stamp (stamp clock) = true ->
  listed (save_results clock results (u "json") None fs) RESULTS names ->
  (forall name, name ∈ names -> glob_match name = true -> name <> saved_name clock ->
     ltb (extract_timestamp (join RESULTS name)) (stamp clock) = true) ->
  let run := save_and_decide clock results (u "json") None fs (Listing names) in
  files run.1 !! join RESULTS (saved_name clock)
    = Some (JsonSnapshot (iso clock) (length results) (sum_vacant results) results)
  /\ find_latest_result_file RESULTS (Listing names)
     = Some (join RESULTS (saved_name clock))
  /\ should_send run.2 = false
  /\ reason run.2 = nothing_new
  /\ is_first_run run.2 = false
  /\ (new_properties <$> comparison_result run.2) = Some [].
Proof.
  intros Happ Hstamp Hlisted Hothers run. subst run. unfold save_and_decide. cbn [fst snd].
  rewrite save_results_default_json in *.
  rewrite computed_path_without_app in * by done.
  set (saved := join RESULTS (saved_name clock)) in *.
  set (fs' := {| dirs := _; files := _ |}) in *.
  assert (files fs' !! saved
          = Some (JsonSnapshot (iso clock) (length results) (sum_vacant results) results))
    as Hsaved by apply lookup_insert_eq.
  split; [exact Hsaved|].
  assert (saved ∈ glob RESULTS names) as Hin.
  { unfold glob. apply list_elem_of_fmap. exists (saved_name clock). split; [done|].
    apply list_elem_of_filter. split.
    - apply glob_match_spec. by exists (stamp clock).
    - apply Hlisted. eexists. exact Hsaved. }
  assert (find_latest_result_file RESULTS (Listing names) = Some saved) as Hfound.
  { cbn [find_latest_result_file].
    destruct (glob RESULTS names) as [|f fs0] eqn:Hg; [by apply elem_of_nil in Hin|].
    f_equal.
    pose proof (max_from_greatest extract_timestamp fs0 f saved Hin) as Hmax.
    destruct (max_from_spec extract_timestamp fs0 f) as (before & after & Heq & _ & _).
    set (m := max_from extract_timestamp f fs0) in *.
    destruct (decide (m = saved)) as [|Hne]; [done|]. exfalso.
    assert (m ∈ glob RESULTS names) as Hm.
    { rewrite Hg, Heq. apply elem_of_app. right. apply list_elem_of_here. }
    unfold glob in Hm. apply list_elem_of_fmap in Hm as (name & Hname & Hm).
    apply list_elem_of_filter in Hm as [Hmatch Hm].
    assert (name <> saved_name clock) as Hdiff by (intros ->; by apply Hne).
    pose proof (Hothers name Hm Hmatch Hdiff) as Hlt.
    rewrite <- Hname in Hlt.
    unfold saved in Hmax. rewrite extract_timestamp_saved in Hmax by done.
    congruence. }
  split; [exact Hfound|].
  unfold should_send_email. rewrite Hfound.
  assert (read_snapshot fs' saved = Ok results) as ->
    by (unfold read_snapshot; by rewrite Hsaved).
  destruct (compare_with_itself results saved) as [Hnew Hhas].
  rewrite Hhas. cbn [should_send reason is_first_run comparison_result fmap option_fmap option_map].
  by rewrite Hnew.
Qed.

Lemma default_run_is_compared_with_itself_witness :
  should_send
    (save_and_decide Fixtures.later_clock Fixtures.current_results (u "json") None
       Fixtures.disk
       (Listing [Fixtures.NAME_0; saved_name Fixtures.later_clock])).2 = false.
Proof.
  apply (default_run_is_compared_with_itself Fixtures.later_clock
           Fixtures.current_results Fixtures.disk
           [Fixtures.NAME_0; saved_name Fixtures.later_clock]).
  - by vm_compute.
  - by vm_compute.
  - rewrite save_results_default_json.
    rewrite computed_path_without_app by (by vm_compute).
    intros name. cbn [files Fixtures.disk]. unfold join.
    rewrite lookup_insert_is_Some, lookup_singleton_is_Some.
    unfold Fixtures.snapshot_file, join. rewrite elem_of_cons, list_elem_of_singleton.
    split.
    + intros [-> | ->]; [right; split; [by vm_compute | done] | by left].
    + intros [H|[_ H]]; injection H as <-; [by right | by left].
  - intros name [-> | ->%list_elem_of_singleton]%elem_of_cons _ Hne; [by vm_compute | done].
Defined.

(** ** The targets read from a text *)

Section Findall_facts.

Lemma run_stop p s : stops p (drop (run p None s) s).
Proof.
  induction s as [|c s IH]; [done|]. simpl.
  destruct (p c) eqn:Hc; [exact IH | exact Hc].
Qed.

Lemma greedy_end_rep p lo : greedy_end p (Rep p lo None).
Proof.
  intros s w ws. cbn [ways].
  destruct (S (run p None s) - lo)%nat as [|m] eqn:Hm; [done|].
  rewrite seq_S, reverse_snoc. cbn [fmap list_fmap]. intros [= <- _]. cbn [snd].
  replace (lo + m)%nat with (run p None s) by lia. apply run_stop.
Qed.

Lemma greedy_end_cat p r1 r2 : greedy_end p r2 -> greedy_end p (Cat r1 r2).
Proof.
  intros H2 s w ws. cbn [ways].
  induction (ways r1 s) as [|[[c1 g1] s1] l IH]; [done|].
  cbn [mbind list_bind]. 
  destruct (ways r2 s1) as [|[[c2 g2] s2] l2] eqn:Hw2; [exact IH|].
  cbn [mbind list_bind app]. intros [= <- _]. cbn [snd].
  exact (H2 s1 _ _ Hw2).
Qed.

Lemma findall_from_spec p r :
  greedy_end p r ->
  forall s skip,
    Forall (fun m => exists pre post g,
              s = pre ++ m ++ post /\ Matches r m g /\ stops p post)
           (findall_from r skip s).
Proof.
  intros Hr s. induction s as [|c s IH]; intros skip; [constructor|].
  assert (forall k, Forall (fun m => exists pre post g,
              c :: s = pre ++ m ++ post /\ Matches r m g /\ stops p post)
           (findall_from r k s)) as Hrest.
  { intros k. eapply Forall_impl; [apply (IH k)|].
    intros m (pre & post & g & -> & Hm & Hp). by exists (c :: pre), post, g. }
  cbn [findall_from]. destruct skip as [|k]; [|apply Hrest].
  destruct (ways r (c :: s)) as [|[[m g] rest] ws] eqn:Hw; [apply Hrest|].
  constructor; [|apply Hrest]. cbn [fst].
  destruct (ways_sound r (c :: s) m g rest) as [Hs Hm];
    [rewrite Hw; apply list_elem_of_here|].
  exists [], rest, g. split; [done|]. split; [done|].
  exact (Hr _ _ _ Hw).
Qed.

Lemma http_head : u "http" ++ URL_HEAD = u "http://www.ur-net.go.jp/".
Proof. vm_compute. reflexivity. Qed.

Lemma https_head : u "http" ++ u "s" ++ URL_HEAD = u "https://www.ur-net.go.jp/".
Proof. vm_compute. reflexivity. Qed.

Lemma url_pattern_shape m g :
  Matches url_pattern m g ->
  exists tail,
    (m = u "http://www.ur-net.go.jp/" ++ tail \/ m = u "https://www.ur-net.go.jp/" ++ tail)
    /\ tail <> [] /\ Forall (fun c => is_space c = false) tail.
Proof.
  unfold url_pattern. intros H.
  inversion H as [| | |r1 r2 w1 w2 g1 g2 H1 H2 Hr Hw Hg| | |]; subst; clear H.
  inversion H1; subst; clear H1.
  inversion H2 as [| | |r1 r2 w3 w4 g3 g4 H3 H4 Hr Hw Hg'| | |]; subst; clear H2.
  inversion H4 as [| | |r1 r2 w5 w6 g5 g6 H5 H6 Hr Hw Hg''| | |]; subst; clear H4.
  inversion H5; subst; clear H5.
  inversion H3 as [| |p lo hi w Hall Hlo Hhi| | | |]; subst; clear H3.
  inversion H6 as [| |p lo hi w Hall' Hlo' Hhi'| | | |]; subst; clear H6.
  specialize (Hhi _ eq_refl).
  exists w6. split; [|split].
  - destruct w3 as [|c [|c' w3]]; [| |simpl in Hhi; lia].
    + left. rewrite <- http_head, app_nil_l. apply app_assoc.
    + apply Forall_cons in Hall as [Hc _]. right.
      unfold one_of in Hc. simpl in Hc. rewrite orb_false_r in Hc.
      apply N.eqb_eq in Hc as ->.
      rewrite <- https_head, <- !app_assoc. reflexivity.
  - intros ->. simpl in Hlo'. lia.
  - eapply Forall_impl; [exact Hall'|]. intros c Hc. unfold not_space in Hc.
    by apply negb_true_iff in Hc.
Qed.

End Findall_facts.

Lemma parse_urls_from_text_spec text the_url :
  the_url ∈ parse_urls_from_text text ->
  (exists tail,
     (the_url = u "http://www.ur-net.go.jp/" ++ tail
      \/ the_url = u "https://www.ur-net.go.jp/" ++ tail)
     /\ tail <> [] /\ Forall (fun c => is_space c = false) tail)
  /\ exists pre post,
       text = pre ++ the_url ++ post
       /\ match post with [] => True | c :: _ => is_space c = true end.
Proof.
  unfold parse_urls_from_text, findall. intros Hin.
  assert (greedy_end not_space url_pattern) as Hg
    by (unfold url_pattern; do 3 apply greedy_end_cat; apply greedy_end_rep).
  pose proof (findall_from_spec not_space url_pattern Hg text 0) as Hall.
  rewrite Forall_forall in Hall.
  destruct (Hall the_url Hin) as (pre & post & g & Ht & Hm & Hp).
  split; [by apply url_pattern_shape in Hm|].
  exists pre, post. split; [done|].
  destruct post as [|c post]; [done|]. simpl in Hp. unfold not_space in Hp.
  by apply negb_false_iff in Hp.
Qed.

(** X15: every url that [parse_urls_from_text] returns starts with
    [http://www.ur-net.go.jp/] or [https://www.ur-net.go.jp/], continues with
    at least one character and holds no white space; it stands in the text as
    it is returned and runs up to the next white space or the end of the
    text, so that punctuation after a url becomes part of it. *)
Theorem extracted_urls_shape text the_url :
  the_url ∈ parse_urls_from_text text ->
  (exists tail,
     (the_url = u "http://www.ur-net.go.jp/" ++ tail
      \/ the_url = u "https://www.ur-net.go.jp/" ++ tail)
     /\ tail <> [] /\ Forall (fun c => is_space c = false) tail)
  /\ exists pre post,
       text = pre ++ the_url ++ post
       /\ match post with [] => True | c :: _ => is_space c = true end.
Proof. apply parse_urls_from_text_spec. Qed.

Lemma extracted_urls_shape_witness :
  exists pre post,
    u "see https://www.ur-net.go.jp/chintai/a.html, and more"
    = pre ++ u "https://www.ur-net.go.jp/chintai/a.html," ++ post
    /\ match post with [] => True | c :: _ => is_space c = true end.
Proof.
  apply (extracted_urls_shape
           (u "see https://www.ur-net.go.jp/chintai/a.html, and more")
           (u "https://www.ur-net.go.jp/chintai/a.html,")).
  vm_compute. apply list_elem_of_here.
Defined.

Lemma item_url_singleton (k : pystr) : item_url (ItemDict {[ K_url := k ]}) = k.
Proof. unfold item_url. by rewrite lookup_singleton_eq. Qed.

Lemma targets_of_urls_all (urls : list pystr) :
  Forall (fun k => k <> []) urls ->
  item_url <$> filter has_url (targets_of_urls urls) = urls.
Proof.
  induction urls as [|k urls IH]; [done|].
  intros [Hk Hall]%Forall_cons. specialize (IH Hall).
  unfold targets_of_urls in *. cbn [fmap list_fmap].
  rewrite filter_cons_True by (unfold has_url; by rewrite item_url_singleton).
  cbn [fmap list_fmap]. rewrite item_url_singleton. by f_equal.
Qed.

(** X16: when the targets are read from a text, the batch returns one
    result for every url found, with that url, in the order of the text; a
    url that stands twice in the text is checked twice. *)
Theorem every_url_of_a_text_is_checked max_retries browser text :
  let run := check_properties max_retries browser
               (targets_of_urls (parse_urls_from_text text)) in
  url <$> run.2 = parse_urls_from_text text.
Proof.
  intros run. subst run.
  destruct (check_properties_urls max_retries browser
              (targets_of_urls (parse_urls_from_text text))) as [-> _].
  apply targets_of_urls_all, Forall_forall. intros k Hk ->.
  apply parse_urls_from_text_spec in Hk as [(tail & [Hk|Hk] & _) _]; discriminate Hk.
Qed.

(** ** The targets read from a table *)

Section Csv_facts.

Ltac lookup_key :=
  repeat first [ rewrite lookup_insert_eq | rewrite lookup_insert_ne by (by vm_compute) ];
  rewrite ?lookup_singleton_eq; reflexivity.

Lemma urls_txt_row_spec row d : d ∈ urls_txt_row row -> positional d.
Proof.
  unfold urls_txt_row. destruct (8 <=? length row)%nat; [|by intros ?%elem_of_nil].
  destruct (field row 7) as [|c k] eqn:Hk; [by intros ?%elem_of_nil|].
  cbn [truthy andb]. destruct (is_prefix HTTP (c :: k)) eqn:Hp; [|by intros ?%elem_of_nil].
  intros ->%list_elem_of_singleton.
  exists (c :: k), (field row 3), (field row 4), (field row 5), (field row 6).
  split; [lookup_key|]. split; [done|]. split; [done|].
  repeat split; lookup_key.
Qed.

Lemma indexed_row_spec row d : d ∈ indexed_row row -> positional d.
Proof.
  unfold indexed_row. destruct (8 <=? length row)%nat; [|by intros ?%elem_of_nil].
  destruct (default [] (row !! 7%nat)) as [|c k] eqn:Hk; [by intros ?%elem_of_nil|].
  cbn [truthy andb]. destruct (is_prefix HTTP (c :: k)) eqn:Hp; [|by intros ?%elem_of_nil].
  intros ->%list_elem_of_singleton.
  exists (c :: k), (field row 3), (field row 4), (field row 5), (field row 6).
  split; [lookup_key|]. split; [done|]. split; [done|].
  repeat split; lookup_key.
Qed.

Lemma lookup_set_if_ne (k k' : pystr) (v : option pystr) (info : gmap pystr pystr) :
  k <> k' -> set_if k v info !! k' = info !! k'.
Proof. intros Hne. destruct v; [by apply lookup_insert_ne | done]. Qed.

Lemma named_row_spec row d :
  d ∈ named_row row -> exists k, d !! K_url = Some k /\ k <> [].
Proof.
  unfold named_row. destruct (first_column url_columns row) as [[|c k]|];
    [by intros ?%elem_of_nil| |by intros ?%elem_of_nil].
  intros ->%list_elem_of_singleton. exists (c :: k). split; [|done].
  rewrite !lookup_set_if_ne by (by vm_compute). apply lookup_singleton_eq.
Qed.

Lemma parse_urls_from_csv_spec file d :
  d ∈ parse_urls_from_csv file ->
  (exists k, d !! K_url = Some k /\ k <> [])
  /\ (forall f, file = Ok f -> reads_by_name f = false -> positional d).
Proof.
  destruct file as [f|e]; [|by intros ?%elem_of_nil].
  unfold parse_urls_from_csv.
  assert (forall d, positional d -> exists k, d !! K_url = Some k /\ k <> []) as Hurl.
  { intros d' (k & _ & _ & _ & _ & Hk & Hne & _). eauto. }
  destruct (contains URLS_TXT_HEADER (first_line f)) eqn:Hh.
  - intros (row & Hd & _)%list_elem_of_bind. apply urls_txt_row_spec in Hd.
    split; [by apply Hurl | by intros].
  - destruct (negb (is_prefix (u "url,") (first_line f))
              && negb (is_prefix (u "URL,") (first_line f))
              && negb (is_prefix (u "name,") (first_line f))) eqn:Hn.
    + intros (row & Hd & _)%list_elem_of_bind. apply indexed_row_spec in Hd.
      split; [by apply Hurl | by intros].
    + intros (row & Hd & _)%list_elem_of_bind.
      split; [by apply named_row_spec in Hd|].
      intros f0 [= <-] Hr. exfalso. unfold reads_by_name in Hr.
      rewrite Hh in Hr. cbn [negb andb] in Hr.
      rewrite <- !negb_orb in Hn. apply negb_false_iff in Hn. congruence.
Qed.

Lemma check_loop_pointwise max_retries browser total items : forall i made,
  Forall2 (fun item r =>
             exists id, r = (check_single_property max_retries browser id
                               (item_url item) (item_predefined item)).2)
          (filter has_url items)
          (check_loop max_retries browser total i made items).2.
Proof.
  induction items as [|item items IH]; intros i made; [constructor|].
  cbn [check_loop].
  destruct (item_url item) as [|c k] eqn:Hu.
  - cbn [truthy negb].
    rewrite filter_cons_False by (unfold has_url; rewrite Hu; intros H; by apply H).
    apply IH.
  - cbn [truthy negb]. rewrite filter_cons_True by (unfold has_url; by rewrite Hu).
    destruct (check_single_property _ _ _ _ _) as [t r] eqn:Hr.
    specialize (IH (S i) (S made)).
    destruct (check_loop _ _ _ _ _ items) as [t' rs]. cbn [snd] in *.
    constructor; [|done]. exists made. rewrite Hu. by rewrite Hr.
Qed.

Lemma Forall2_with_left {A B} (P : A -> B -> Prop) (Q : A -> Prop) l k :
  Forall2 P l k -> Forall Q l -> Forall2 (fun x y => Q x /\ P x y) l k.
Proof.
  induction 1 as [|x y l k Hxy _ IH]; [constructor|].
  intros [Hx Hl]%Forall_cons. constructor; [done | by apply IH].
Qed.

Lemma targets_of_csv_all file :
  filter has_url (targets_of_csv file) = targets_of_csv file.
Proof.
  apply filter_all, Forall_forall. unfold targets_of_csv.
  intros item (d & -> & Hd)%list_elem_of_fmap.
  apply parse_urls_from_csv_spec in Hd as [(k & Hk & Hne) _].
  unfold has_url, item_url. by rewrite Hk.
Qed.

End Csv_facts.

(** X17: every row that [parse_urls_from_csv] returns has a non-empty
    url, and the batch returns one result for each of them, with that url and
    in the order of the file. In the two layouts read by position the url
    starts with [http]; a file that cannot be read gives no row. *)
Theorem csv_rows_are_checked max_retries browser file :
  let rows := parse_urls_from_csv file in
  let run := check_properties max_retries browser (targets_of_csv file) in
  Forall (fun d => row_url d <> []) rows
  /\ url <$> run.2 = row_url <$> rows
  /\ length run.2 = length rows
  /\ (forall f, file = Ok f -> reads_by_name f = false ->
        Forall (fun d => is_prefix HTTP (row_url d) = true) rows)
  /\ (forall e, file = Raise e -> rows = []).
Proof.
  intros rows run. subst rows run.
  destruct (check_properties_urls max_retries browser (targets_of_csv file)) as [Hu Hl].
  rewrite targets_of_csv_all in Hu, Hl. unfold targets_of_csv in Hu, Hl.
  rewrite <- list_fmap_compose in Hu. rewrite length_fmap in Hl.
  split.
  { apply Forall_forall. intros d Hd.
    apply parse_urls_from_csv_spec in Hd as [(k & Hk & Hne) _].
    unfold row_url, item_url. by rewrite Hk. }
  split; [exact Hu|]. split; [exact Hl|]. split.
  - intros f -> Hpos. apply Forall_forall. intros d Hd.
    apply parse_urls_from_csv_spec in Hd as [_ Hd].
    destruct (Hd f eq_refl Hpos) as (k & _ & _ & _ & _ & Hk & _ & Hp & _).
    unfold row_url, item_url. by rewrite Hk.
  - by intros e ->.
Qed.

(** X18: in the two layouts read by position every row gives all four of
    transportation, address, phone and management years, so each result of
    the batch carries the values of its row, stripped, whatever the page
    shows and whether or not it loads, an empty cell included; on success the
    four provenance tags are 事前定義. *)
Theorem csv_fields_reach_the_results max_retries browser f :
  reads_by_name f = false ->
  let rows := parse_urls_from_csv (Ok f) in
  let run := check_properties max_retries browser (targets_of_csv (Ok f)) in
  Forall2 (fun d r =>
             url r = row_url d
             /\ d !! K_transportation = Some (transportation r)
             /\ d !! K_address = Some (address r)
             /\ d !! K_phone = Some (phone_number r)
             /\ d !! K_management_years = Some (management_years r)
             /\ (status r = success ->
                 transportation_source r = PREDEFINED /\ address_source r = PREDEFINED
                 /\ phone_source r = PREDEFINED /\ management_years_source r = PREDEFINED))
          rows run.2.
Proof.
  intros Hpos rows run. subst rows run. rewrite check_properties_results.
  pose proof (check_loop_pointwise max_retries browser
                (length (targets_of_csv (Ok f))) (targets_of_csv (Ok f)) 1 0) as Hall.
  rewrite targets_of_csv_all in Hall. unfold targets_of_csv in Hall at 1.
  apply Forall2_fmap_l in Hall.
  apply (Forall2_with_left _ (fun d => positional d)) in Hall.
  2: { apply Forall_forall. intros d Hd.
       apply parse_urls_from_csv_spec in Hd as [_ Hd]. by apply (Hd f). }
  eapply Forall2_impl; [exact Hall|].
  intros d r [Hd [id ->]]. cbn [item_url item_predefined] in *.
  destruct Hd as (k & t & a & p & m & Hk & _ & _ & Ht & Ha & Hp & Hm).
  destruct (check_single_property_predefined max_retries browser id
              (default [] (d !! K_url)) d t a p m Ht Ha Hp Hm)
    as [(E1 & E2 & E3 & E4) Hs].
  split; [apply check_single_property_url|].
  rewrite E1, E2, E3, E4. done.
Qed.

Lemma csv_fields_reach_the_results_witness :
  Forall2 (fun d r =>
             url r = row_url d
             /\ d !! K_transportation = Some (transportation r)
             /\ d !! K_address = Some (address r)
             /\ d !! K_phone = Some (phone_number r)
             /\ d !! K_management_years = Some (management_years r)
             /\ (status r = success ->
                 transportation_source r = PREDEFINED /\ address_source r = PREDEFINED
                 /\ phone_source r = PREDEFINED /\ management_years_source r = PREDEFINED))
          (parse_urls_from_csv (Ok Fixtures.urls_txt))
          (check_properties 5 (fun _ => Ok Fixtures.listed_page)
             (targets_of_csv (Ok Fixtures.urls_txt))).2.
Proof.
  apply (csv_fields_reach_the_results 5 (fun _ => Ok Fixtures.listed_page)
           Fixtures.urls_txt).
  vm_compute. reflexivity.
Defined.

(** ** The report and the figures of the mail *)

Section Group_facts.

Lemma consistent_count r : consistent r -> (0 <= total_vacant r)%Z.
Proof. intros [-> _]. lia. Qed.

Lemma groups_partition results :
  Forall (fun r => 0 <= total_vacant r)%Z results ->
  results ≡ₚ properties_with_rooms results ++ properties_without_rooms results
             ++ failed_properties results.
Proof.
  unfold properties_with_rooms, properties_without_rooms, failed_properties.
  induction 1 as [|r results Hr _ IH]; [done|].
  destruct (decide (status r = success)) as [Hs|Hs].
  - rewrite (filter_cons_False (fun r => status r <> success)) by tauto.
    destruct (decide (0 < total_vacant r)%Z) as [Hp|Hp].
    + rewrite filter_cons_True by done.
      rewrite (filter_cons_False (fun r => status r = success /\ total_vacant r = 0%Z))
        by (intros [_ ?]; lia).
      simpl. by constructor.
    + rewrite filter_cons_False by tauto.
      rewrite (filter_cons_True (fun r => status r = success /\ total_vacant r = 0%Z))
        by (split; [done | lia]).
      rewrite <- app_comm_cons, <- Permutation_middle. by constructor.
  - rewrite filter_cons_False by tauto.
    rewrite (filter_cons_False (fun r => status r = success /\ total_vacant r = 0%Z))
      by tauto.
    rewrite filter_cons_True by done.
    rewrite app_assoc, <- Permutation_middle, <- app_assoc. by constructor.
Qed.

Lemma success_split results :
  Forall (fun r => 0 <= total_vacant r)%Z results ->
  success_count results
  = (length (properties_with_rooms results)
     + length (properties_without_rooms results))%nat.
Proof.
  unfold success_count, properties_with_rooms, properties_without_rooms.
  induction 1 as [|r results Hr _ IH]; [done|].
  destruct (decide (status r = success)) as [Hs|Hs].
  - rewrite (filter_cons_True (fun r => status r = success)) by done.
    destruct (decide (0 < total_vacant r)%Z) as [Hp|Hp].
    + rewrite filter_cons_True by done.
      rewrite (filter_cons_False (fun r => status r = success /\ total_vacant r = 0%Z))
        by (intros [_ ?]; lia).
      simpl. lia.
    + rewrite filter_cons_False by tauto.
      rewrite (filter_cons_True (fun r => status r = success /\ total_vacant r = 0%Z))
        by (split; [done | lia]).
      simpl. lia.
  - rewrite !filter_cons_False by tauto. exact IH.
Qed.

Lemma failed_split results : failed_count results = length (failed_properties results).
Proof.
  unfold failed_count, success_count, failed_properties.
  induction results as [|r results IH]; [done|].
  pose proof (length_filter (fun r => status r = success) results) as Hle.
  destruct (decide (status r = success)) as [Hs|Hs].
  - rewrite filter_cons_True by done. rewrite filter_cons_False by tauto.
    simpl. exact IH.
  - rewrite filter_cons_False by done. rewrite filter_cons_True by done.
    simpl. rewrite <- IH. lia.
Qed.

Lemma sum_vacant_units results :
  Forall consistent results ->
  sum_vacant results = Z.of_nat (length (units (properties_with_rooms results))).
Proof.
  unfold units, properties_with_rooms.
  induction 1 as [|r results [Ht _] _ IH]; [done|].
  cbn [sum_vacant foldr]. fold (sum_vacant results).
  case_bool_decide as Hs.
  - destruct (decide (0 < total_vacant r)%Z) as [Hp|Hp].
    + rewrite filter_cons_True by done. cbn [mbind list_bind]. rewrite length_app. lia.
    + rewrite filter_cons_False by tauto. lia.
  - rewrite filter_cons_False by tauto. exact IH.
Qed.

Lemma no_units_elsewhere results :
  Forall consistent results ->
  units (properties_without_rooms results ++ failed_properties results) = [].
Proof.
  intros Hall. unfold units.
  assert (forall l : list PropertyResult,
            Forall (fun r => vacant_rooms r = []) l -> l ≫= vacant_rooms = []) as Hnil.
  { induction 1 as [|r l Hr _ IH]; [done|]. cbn [mbind list_bind]. by rewrite Hr. }
  apply Hnil, Forall_app. rewrite Forall_forall in Hall.
  split; apply Forall_forall; intros r [Hr Hin]%list_elem_of_filter;
    destruct (Hall r Hin) as [Ht Hf].
  - destruct Hr as [_ H0]. rewrite H0 in Ht.
    destruct (vacant_rooms r); [done | simpl in Ht; lia].
  - apply Hf. by destruct (status r).
Qed.

Lemma check_properties_consistent max_retries browser url_data :
  Forall consistent (check_properties max_retries browser url_data).2.
Proof.
  rewrite check_properties_results. apply Forall_forall. intros r Hr.
  apply check_loop_results in Hr as (id' & u' & pre' & ->).
  apply check_single_property_consistent.
Qed.

End Group_facts.

(** X19: the report of a batch adds up. Every result is in exactly one
    of the three groups (with units, without units, failed); the count of
    successes is the size of the first two groups and the count of failures
    the size of the third; the total of vacant units is the number of units
    listed under the first group, and the other two groups list none. *)
Theorem batch_report_adds_up max_retries browser url_data :
  let results := (check_properties max_retries browser url_data).2 in
  results ≡ₚ properties_with_rooms results ++ properties_without_rooms results
             ++ failed_properties results
  /\ success_count results
     = (length (properties_with_rooms results)
        + length (properties_without_rooms results))%nat
  /\ failed_count results = length (failed_properties results)
  /\ (success_count results + failed_count results)%nat = length results
  /\ sum_vacant results = Z.of_nat (length (units (properties_with_rooms results)))
  /\ units (properties_without_rooms results ++ failed_properties results) = [].
Proof.
  intros results.
  pose proof (check_properties_consistent max_retries browser url_data) as Hc.
  fold results in Hc.
  assert (Forall (fun r => 0 <= total_vacant r)%Z results) as Hpos
    by (eapply Forall_impl; [exact Hc | apply consistent_count]).
  pose proof (groups_partition results Hpos) as Hperm.
  split; [exact Hperm|]. split; [by apply success_split|].
  split; [apply failed_split|]. split.
  - rewrite success_split, failed_split by done.
    apply Permutation_length in Hperm. rewrite !length_app in Hperm. lia.
  - split; [by apply sum_vacant_units | by apply no_units_elsewhere].
Qed.

(** X20: the mail for the snapshot that a batch has just saved shows
    figures that agree: the file is read back as written, the number checked
    is the sum of the successes and the failures shown, the total of vacant
    units is the number of units listed, and the time is that of the save. *)
Theorem mail_figures_of_saved_batch max_retries browser url_data clock fs now :
  let results := (check_properties max_retries browser url_data).2 in
  let fs' := save_results clock results (u "json") None fs in
  exists data,
    load_results_from_json fs' (computed_path fs clock (u "json")) = Some data
    /\ let fig := format_figures now data in
       f_timestamp fig = iso clock
       /\ f_total_checked fig = (f_success_count fig + f_failed_count fig)%nat
       /\ f_total_vacant_rooms fig = Z.of_nat (length (units (f_with_rooms fig)))
       /\ units (f_without_rooms fig ++ f_failed fig) = []
       /\ results ≡ₚ f_with_rooms fig ++ f_without_rooms fig ++ f_failed fig.
Proof.
  intros results fs'. subst fs'. rewrite save_results_default_json.
  unfold load_results_from_json. cbn [files]. rewrite lookup_insert_eq.
  eexists. split; [done|].
  cbn [format_figures default f_timestamp f_total_checked f_total_vacant_rooms
       f_with_rooms f_without_rooms f_failed f_success_count f_failed_count].
  pose proof (check_properties_consistent max_retries browser url_data) as Hc.
  fold results in Hc.
  assert (Forall (fun r => 0 <= total_vacant r)%Z results) as Hpos
    by (eapply Forall_impl; [exact Hc | apply consistent_count]).
  pose proof (groups_partition results Hpos) as Hperm.
  split; [done|]. split.
  - apply Permutation_length in Hperm. rewrite !length_app in Hperm.
    unfold id. lia.
  - split; [by apply sum_vacant_units|].
    split; [by apply no_units_elsewhere | exact Hperm].
Qed.

(** ** Sending the mail *)

Section Mail_facts.

Lemma first_ok_from_spec smtp n : forall a,
  match first_ok_from smtp a n with
  | Some k =>
    (a <= k < a + n)%nat /\ smtp k = Ok ()
    /\ forall j, (a <= j < k)%nat -> exists e, smtp j = Raise e
  | None => forall j, (a <= j < a + n)%nat -> exists e, smtp j = Raise e
  end.
Proof.
  induction n as [|n IH]; intros a; cbn [first_ok_from]; [intros j; lia|].
  destruct (smtp a) as [[]|e] eqn:Ha.
  - split; [lia|]. split; [done|]. intros j; lia.
  - specialize (IH (S a)). destruct (first_ok_from smtp (S a) n) as [k|].
    + destruct IH as (Hk & Hok & Hbefore). split; [lia|]. split; [done|].
      intros j Hj. destruct (decide (j = a)) as [->|Hne]; [eauto|].
      apply Hbefore. lia.
    + intros j Hj. destruct (decide (j = a)) as [->|Hne]; [eauto|].
      apply IH. lia.
Qed.

Lemma retries_from_S recipients a k :
  retries_from recipients a (S k)
  = Attempt a recipients false :: Wait ((a + 1) * 2) :: retries_from recipients (S a) k.
Proof. done. Qed.

Lemma retries_from_snoc recipients a k :
  retries_from recipients a (S k)
  = retries_from recipients a k
    ++ [Attempt (a + k) recipients false; Wait ((a + k + 1) * 2)].
Proof.
  unfold retries_from. rewrite seq_S, bind_app. cbn [mbind list_bind app].
  reflexivity.
Qed.

Lemma waited_app t1 t2 : waited (t1 ++ t2) = (waited t1 + waited t2)%nat.
Proof.
  unfold waited. induction t1 as [|e t1 IH]; [done|]. simpl.
  destruct e; rewrite IH; lia.
Qed.

Lemma waited_retries recipients k :
  waited (retries_from recipients 0 k) = (k * (k + 1))%nat.
Proof.
  induction k as [|k IH]; [done|].
  rewrite retries_from_snoc, waited_app, IH. simpl. lia.
Qed.

Lemma attempts_spec max_retries smtp recipients : forall todo a,
  (todo + a)%nat = Z.to_nat max_retries ->
  attempts max_retries smtp recipients todo a
  = match first_ok_from smtp a todo with
    | Some k =>
      (retries_from recipients a (k - a) ++ [Attempt k recipients true], true)
    | None =>
      (match todo with
       | O => []
       | S m => retries_from recipients a m ++ [Attempt (a + m) recipients false]
       end, false)
    end.
Proof.
  induction todo as [|todo IH]; intros a Hsum; [done|].
  cbn [attempts first_ok_from].
  destruct (smtp a) as [[]|e] eqn:Ha.
  - by rewrite Nat.sub_diag.
  - destruct todo as [|todo].
    + rewrite (proj2 (Z.ltb_ge _ _)) by lia. cbn [first_ok_from].
      by rewrite Nat.add_0_r.
    + rewrite (proj2 (Z.ltb_lt _ _)) by lia.
      rewrite (IH (S a)) by lia.
      pose proof (first_ok_from_spec smtp (S todo) (S a)) as Hk.
      destruct (first_ok_from smtp (S a) (S todo)) as [k|].
      * destruct Hk as [Hk _].
        replace (k - a)%nat with (S (k - S a)) by lia.
        by rewrite retries_from_S.
      * rewrite retries_from_S. by rewrite Nat.add_succ_comm.
Qed.

End Mail_facts.

(** X21: [send_email] stops at the first attempt whose body ends without
    an exception and returns [True]; the failed attempts before it are each
    followed by a wait of twice their number, [k (k + 1)] seconds in all before
    attempt [k]. When all [max_retries] attempts fail it returns [False]
    without a wait after the last one, and without any attempt when
    [max_retries] is not positive. Every attempt addresses [to_addr] followed
    by the BCC list given, or by the configured one when none is given. *)
Theorem send_email_outcome max_retries configured smtp to_addr bcc :
  let recipients := to_addr :: default configured bcc in
  let n := Z.to_nat max_retries in
  let run := send_email max_retries configured smtp to_addr bcc in
  (run.2 = true <-> exists k, (k < n)%nat /\ smtp k = Ok ())
  /\ match first_ok smtp n with
     | Some k =>
       run = (retries_from recipients 0 k ++ [Attempt k recipients true], true)
       /\ waited run.1 = (k * (k + 1))%nat
       /\ (k < n)%nat /\ smtp k = Ok ()
       /\ forall j, (j < k)%nat -> exists e, smtp j = Raise e
     | None =>
       run = (match n with
              | O => []
              | S m => retries_from recipients 0 m ++ [Attempt m recipients false]
              end, false)
       /\ waited run.1 = ((n - 1) * n)%nat
     end.
Proof.
  intros recipients n run. subst run. unfold send_email. fold recipients. fold n.
  rewrite attempts_spec by (subst n; lia).
  pose proof (first_ok_from_spec smtp n 0) as Hk. unfold first_ok.
  destruct (first_ok_from smtp 0 n) as [k|].
  - destruct Hk as (Hk & Hok & Hbefore). rewrite Nat.sub_0_r. cbn [fst snd].
    split; [split; [intros _; exists k; split; [lia | done] | done]|].
    split; [done|]. split.
    + rewrite waited_app, waited_retries. simpl. lia.
    + split; [lia|]. split; [done|]. intros j Hj. apply Hbefore. lia.
  - cbn [fst snd]. split.
    + split; [done|]. intros (k & Hlt & Hok).
      destruct (Hk k) as [e He]; [lia|]. congruence.
    + split; [done|]. destruct n as [|m]; [done|].
      rewrite waited_app, waited_retries. simpl. lia.
Qed.

Section Address_facts.

Lemma lstrip_spec s :
  exists pre, s = pre ++ lstrip s
    /\ Forall (fun c => is_space c = true) pre
    /\ forall c, head (lstrip s) = Some c -> is_space c = false.
Proof.
  induction s as [|c s (pre & Hs & Hpre & Hhead)]; [by exists []|].
  cbn [lstrip]. destruct (is_space c) eqn:Hc.
  - exists (c :: pre). split; [cbn [app]; by f_equal|]. split; [by constructor | done].
  - exists []. split; [done|]. split; [constructor|].
    intros c' Hc'. injection Hc' as <-. exact Hc.
Qed.

Lemma last_rev (l : pystr) : last (rev l) = head l.
Proof. destruct l as [|c l]; [done|]. cbn [rev head]. apply last_snoc. Qed.

Lemma strip_spec s :
  exists pre post, s = pre ++ strip s ++ post
    /\ Forall (fun c => is_space c = true) pre
    /\ Forall (fun c => is_space c = true) post
    /\ (forall c, head (strip s) = Some c -> is_space c = false)
    /\ (forall c, last (strip s) = Some c -> is_space c = false).
Proof.
  unfold strip.
  destruct (lstrip_spec s) as (pre & Hs & Hpre & Hhead).
  destruct (lstrip_spec (rev (lstrip s))) as (pre' & Hr & Hpre' & Hhead').
  set (t := lstrip s) in *. set (t' := lstrip (rev t)) in *.
  assert (t = rev t' ++ rev pre') as Ht.
  { rewrite <- (rev_involutive t), Hr. apply rev_app_distr. }
  exists pre, (rev pre'). split; [by rewrite <- Ht|].
  split; [done|]. split; [by apply Forall_rev|]. split.
  - intros c Hc. apply Hhead. rewrite Ht.
    destruct (rev t'); [done | exact Hc].
  - intros c Hc. apply Hhead'. by rewrite last_rev in Hc.
Qed.

Lemma split_on_shape sep s :
  exists w0 ws post0,
    split_on sep s = w0 :: ws /\ s = w0 ++ post0 /\ (sep ∉ w0)
    /\ Forall (fun w => (sep ∉ w) /\ exists pre post, s = pre ++ w ++ post) ws.
Proof.
  induction s as [|c s (w0 & ws & post0 & Hsp & Hs & Hn & Hall)].
  - exists [], [], []. split; [done|]. split; [done|].
    split; [apply not_elem_of_nil | constructor].
  - assert (Forall (fun w => (sep ∉ w) /\ exists pre post, c :: s = pre ++ w ++ post) ws)
      as Hall'.
    { eapply Forall_impl; [exact Hall|].
      intros w (Hw & pre & post & Hpl). split; [done|].
      exists (c :: pre), post. cbn [app]. by f_equal. }
    cbn [split_on]. rewrite Hsp. destruct (c =? sep) eqn:Hc.
    + exists [], (w0 :: ws), (c :: s). split; [done|]. split; [done|].
      split; [apply not_elem_of_nil|]. constructor; [|exact Hall'].
      split; [done|]. exists [c], post0. cbn [app]. by f_equal.
    + apply N.eqb_neq in Hc.
      exists (c :: w0), ws, post0. split; [done|].
      split; [cbn [app]; by f_equal|].
      split; [|exact Hall'].
      apply not_elem_of_cons. split; [congruence | done].
Qed.

Lemma split_on_spec sep s w :
  w ∈ split_on sep s -> (sep ∉ w) /\ exists pre post, s = pre ++ w ++ post.
Proof.
  destruct (split_on_shape sep s) as (w0 & ws & post0 & -> & Hs & Hn & Hall).
  intros [->|Hw]%elem_of_cons.
  - split; [done|]. by exists [], post0.
  - rewrite Forall_forall in Hall. by apply Hall.
Qed.

Lemma bcc_addrs_spec bcc_addr addr :
  addr ∈ bcc_addrs bcc_addr ->
  addr <> [] /\ (COMMA ∉ addr)
  /\ (forall c, head addr = Some c -> is_space c = false)
  /\ (forall c, last addr = Some c -> is_space c = false)
  /\ exists pre post, bcc_addr = pre ++ addr ++ post.
Proof.
  unfold bcc_addrs. destruct (truthy (Some bcc_addr)); [|by intros ?%elem_of_nil].
  intros [Hne Hin]%list_elem_of_filter.
  apply list_elem_of_fmap in Hin as (w & -> & Hw).
  apply split_on_spec in Hw as (Hn & pre1 & post1 & ->).
  destruct (strip_spec w) as (pre & post & Hw & _ & _ & Hhead & Hlast).
  split; [done|]. split.
  - intros Hin. apply Hn. rewrite Hw. apply elem_of_app. right.
    apply elem_of_app. by left.
  - split; [done|]. split; [done|].
    exists (pre1 ++ pre), (post ++ post1). rewrite Hw at 1.
    by rewrite <- !app_assoc.
Qed.

End Address_facts.

(** X22: every configured BCC address is a non-empty part of the
    [bcc_addr] setting that holds no comma and neither starts nor ends with
    white space; empty pieces between commas give no address, and an empty
    setting gives none. *)
Theorem bcc_addresses_are_clean bcc_addr addr :
  addr ∈ bcc_addrs bcc_addr ->
  addr <> [] /\ (COMMA ∉ addr)
  /\ (forall c, head addr = Some c -> is_space c = false)
  /\ (forall c, last addr = Some c -> is_space c = false)
  /\ exists pre post, bcc_addr = pre ++ addr ++ post.
Proof. apply bcc_addrs_spec. Qed.

Lemma bcc_addresses_are_clean_witness :
  bcc_addrs (u " a@example.jp, ,b@example.jp ") = [u "a@example.jp"; u "b@example.jp"]
  /\ (COMMA ∉ u "b@example.jp").
Proof.
  split; [by vm_compute|].
  apply (bcc_addresses_are_clean (u " a@example.jp, ,b@example.jp ") (u "b@example.jp")).
  vm_compute. apply list_elem_of_further, list_elem_of_here.
Defined.
